(** * Explicit-free-list allocator (src/memoryAllocator.c): model and properties

    The allocator works on raw memory obtained from a page provider
    (memlib: [mem_map], [mem_unmap], [mem_pagesize]).  It is embedded here
    over a word store: every access of the source is a [size_t]/pointer
    access through [GET]/[PUT] or through a field of [eflNode], so memory is
    a finite map from byte addresses to 64-bit words; an access to an address
    that holds no word (unmapped or misaligned) is a fault.

    - [size_t] values are integers in [0, 2^64); every [size_t] operation of
      the source is followed by its wrap-around ([wrap]).
    - Pointers are byte addresses in [Z]; [NULL] is 0.
    - The globals [basePage] and [nextFree] are fields of the state.
    - The functions are computations in a state-and-fault monad [M]; the
      recursion of [mm_malloc] and its list walk are bounded by fuel. *)

From stdpp Require Import base decidable option list gmap fin_maps.
From Stdlib Require Import ZArith Lia.

Local Open Scope Z_scope.

Ltac Zify.zify_post_hook ::= Z.to_euclidean_division_equations.

(** ** Machine words *)

Definition wrap (z : Z) : Z := z mod 2 ^ 64.

Definition NULL : Z := 0.

(** ** Constants and pure macros of the source *)

Definition ALIGNMENT : Z := 16.
Definition sizeof_blockHeader : Z := 8.
Definition sizeof_blockFooter : Z := 8.
Definition sizeof_eflNode : Z := 16.

Definition OVERHEAD : Z := sizeof_blockHeader + sizeof_blockFooter.
Definition MINSIZE : Z := sizeof_eflNode.
Definition PAGEOVERHEAD : Z := 2 * sizeof_blockHeader + 2 * sizeof_blockFooter.
Definition PAGERATIO : Z := 10.

(** [ALIGN(size)]: [((size) + (ALIGNMENT - 1)) & ~(ALIGNMENT - 1)].  The mask
    is an [int] converted to [size_t]. *)
Definition ALIGN (size : Z) : Z :=
  Z.land (wrap (size + (ALIGNMENT - 1))) (wrap (Z.lnot (ALIGNMENT - 1))).

(** [PAGEALIGN(size)], with the value of [mem_pagesize()] passed in. *)
Definition PAGEALIGN (pagesize size : Z) : Z :=
  Z.land (wrap (size + (pagesize - 1))) (wrap (Z.lnot (pagesize - 1))).

(** [PACK(size, alloc)]. *)
Definition PACK (size alloc : Z) : Z := Z.lor size alloc.

(** The word parts read by [GET_ALLOC] and [GET_SIZE]. *)
Definition alloc_of (w : Z) : Z := Z.land w 1.
Definition size_of (w : Z) : Z := Z.land w (wrap (Z.lnot 15)).

(** [HDRP(bp)]. *)
Definition HDRP (bp : Z) : Z := bp - sizeof_blockHeader.

(** Offsets of the fields of [eflNode]. *)
Definition prev_field (n : Z) : Z := n.
Definition next_field (n : Z) : Z := n + 8.

(** ** State *)

(** Modelled from the spec: the page provider (memlib.h/memlib.c are not among
    the sources).  [map(bytes)] returns a fresh zero-initialised region or the
    failure sentinel, [unmap] returns a region, [page_size] is fixed.  The
    provider's choices are the list [answers]: each call of [mem_map] consumes
    one address ([NULL] is a refusal, an exhausted list refuses as well).
    [regions] are the regions currently mapped, [unmaps] the log of the calls
    of [mem_unmap], most recent first. *)
Record state : Type := State {
  mem : gmap Z Z;
  basePage : Z;
  nextFree : Z;
  pagesize : Z;
  answers : list Z;
  regions : list (Z * Z);
  unmaps : list (Z * Z)
}.

Definition with_mem (m : gmap Z Z) (s : state) : state :=
  State m (basePage s) (nextFree s) (pagesize s) (answers s) (regions s) (unmaps s).
Definition with_basePage (p : Z) (s : state) : state :=
  State (mem s) p (nextFree s) (pagesize s) (answers s) (regions s) (unmaps s).
Definition with_nextFree (p : Z) (s : state) : state :=
  State (mem s) (basePage s) p (pagesize s) (answers s) (regions s) (unmaps s).

(** ** The monad *)

Inductive outcome (A : Type) : Type :=
| Ret (a : A) (s : state)
| Fault
| OutOfFuel.
Arguments Ret {A} a s.
Arguments Fault {A}.
Arguments OutOfFuel {A}.

Definition M (A : Type) : Type := state → outcome A.

Definition ret {A} (a : A) : M A := λ s, Ret a s.

Definition bind {A B} (c : M A) (k : A → M B) : M B :=
  λ s, match c s with
       | Ret a s' => k a s'
       | Fault => Fault
       | OutOfFuel => OutOfFuel
       end.

Notation "x <- c ;; k" := (bind c (λ x, k))
  (at level 100, c at next level, right associativity).
Notation "c ;;; k" := (bind c (λ _, k))
  (at level 100, right associativity).

Definition out_of_fuel {A} : M A := λ _, OutOfFuel.

(** [GET(p)] and [PUT(p, val)]. *)
Definition GET (p : Z) : M Z :=
  λ s, match mem s !! p with
       | Some w => Ret w s
       | None => Fault
       end.

Definition PUT (p val : Z) : M unit :=
  λ s, match mem s !! p with
       | Some _ => Ret tt (with_mem (<[p := val]> (mem s)) s)
       | None => Fault
       end.

Definition get_nextFree : M Z := λ s, Ret (nextFree s) s.
Definition set_nextFree (p : Z) : M unit := λ s, Ret tt (with_nextFree p s).
Definition get_basePage : M Z := λ s, Ret (basePage s) s.
Definition set_basePage (p : Z) : M unit := λ s, Ret tt (with_basePage p s).

(** [GET_ALLOC(p)], [GET_SIZE(p)]. *)
Definition GET_ALLOC (p : Z) : M Z := w <- GET p ;; ret (alloc_of w).
Definition GET_SIZE (p : Z) : M Z := w <- GET p ;; ret (size_of w).

(** [FTRP(bp)], [NEXT_BLKP(bp)], [PREV_BLKP(bp)]: each use reads memory. *)
Definition FTRP (bp : Z) : M Z :=
  sz <- GET_SIZE (HDRP bp) ;; ret (bp + sz - OVERHEAD).
Definition NEXT_BLKP (bp : Z) : M Z :=
  sz <- GET_SIZE (HDRP bp) ;; ret (bp + sz).
Definition PREV_BLKP (bp : Z) : M Z :=
  sz <- GET_SIZE (bp - OVERHEAD) ;; ret (bp - sz).

(** ** The page provider *)

(** [zero_fill m a n]: [m] with the [n] words from address [a] set to 0. *)
Fixpoint zero_fill (m : gmap Z Z) (a : Z) (n : nat) : gmap Z Z :=
  match n with
  | O => m
  | S k => <[a := 0]> (zero_fill m (a + 8) k)
  end.

Definition mem_pagesize : M Z := λ s, Ret (pagesize s) s.

Definition mem_map (size : Z) : M Z :=
  λ s, match answers s with
       | [] => Ret NULL s
       | a :: rest =>
           if decide (a = NULL) then
             Ret NULL (State (mem s) (basePage s) (nextFree s) (pagesize s)
                             rest (regions s) (unmaps s))
           else
             Ret a (State (zero_fill (mem s) a (Z.to_nat (size / 8)))
                          (basePage s) (nextFree s) (pagesize s)
                          rest ((a, size) :: regions s) (unmaps s))
       end.

Definition in_range (addr size a : Z) : Prop := addr <= a < addr + size.

Definition mem_unmap (addr size : Z) : M unit :=
  λ s, Ret tt (State (filter (λ kv, ¬ in_range addr size kv.1) (mem s))
                     (basePage s) (nextFree s) (pagesize s) (answers s)
                     (filter (λ r, r.1 ≠ addr) (regions s))
                     ((addr, size) :: unmaps s)).

(** ** The explicit free list *)

Definition addEFLNode (newFree : Z) : M unit :=
  nf <- get_nextFree ;;
  if decide (nf ≠ NULL) then
    PUT (prev_field newFree) NULL ;;;
    nf1 <- get_nextFree ;;
    PUT (next_field newFree) nf1 ;;;
    nf2 <- get_nextFree ;;
    PUT (prev_field nf2) newFree ;;;
    set_nextFree newFree
  else
    set_nextFree newFree ;;;
    nf1 <- get_nextFree ;;
    PUT (next_field nf1) NULL ;;;
    nf2 <- get_nextFree ;;
    PUT (prev_field nf2) NULL.

Definition removeEFLNode (oldFree : Z) : M unit :=
  p <- GET (prev_field oldFree) ;;
  both <- (if decide (p ≠ NULL)
           then n <- GET (next_field oldFree) ;; ret (bool_decide (n ≠ NULL))
           else ret false) ;;
  if both : bool then
    p1 <- GET (prev_field oldFree) ;;
    n1 <- GET (next_field oldFree) ;;
    PUT (next_field p1) n1 ;;;
    n2 <- GET (next_field oldFree) ;;
    p2 <- GET (prev_field oldFree) ;;
    PUT (prev_field n2) p2
  else
    p3 <- GET (prev_field oldFree) ;;
    if decide (p3 ≠ NULL) then
      p4 <- GET (prev_field oldFree) ;;
      PUT (next_field p4) NULL
    else
      n3 <- GET (next_field oldFree) ;;
      if decide (n3 ≠ NULL) then
        n4 <- GET (next_field oldFree) ;;
        set_nextFree n4 ;;;
        nf <- get_nextFree ;;
        PUT (prev_field nf) NULL
      else
        set_nextFree NULL.

(** ** Internal operations *)

Definition extend (size : Z) : M unit :=
  ps <- mem_pagesize ;;
  let size1 := if decide (size mod ps ≠ 0) then PAGEALIGN ps size else size in
  let size2 := wrap (size1 * PAGERATIO) in
  pageAdr <- mem_map size2 ;;
  if decide (pageAdr = NULL) then ret tt
  else
    PUT (pageAdr + ALIGNMENT / 2) (PACK OVERHEAD 1) ;;;
    PUT (pageAdr + ALIGNMENT / 2 + sizeof_blockHeader) (PACK OVERHEAD 1) ;;;
    PUT (pageAdr + size2 - sizeof_blockFooter) (PACK 0 1) ;;;
    PUT (pageAdr + ALIGNMENT / 2 + OVERHEAD)
        (PACK (wrap (size2 - PAGEOVERHEAD)) 0) ;;;
    f <- FTRP (pageAdr + OVERHEAD + sizeof_blockHeader) ;;
    PUT f (PACK (wrap (size2 - PAGEOVERHEAD)) 0) ;;;
    addEFLNode (pageAdr + PAGEOVERHEAD) ;;;
    base <- get_basePage ;;
    if decide (base = NULL) then set_basePage pageAdr else ret tt.

Definition setAllocated (bp size : Z) : M unit :=
  available <- GET_SIZE (HDRP bp) ;;
  if decide (wrap (available - size) >= PAGEOVERHEAD) then
    PUT (HDRP bp) (PACK size 1) ;;;
    f <- FTRP bp ;;
    PUT f (PACK size 1) ;;;
    removeEFLNode bp ;;;
    bp' <- NEXT_BLKP bp ;;
    PUT (HDRP bp') (PACK (wrap (available - size)) 0) ;;;
    f' <- FTRP bp' ;;
    PUT f' (PACK (wrap (available - size)) 0) ;;;
    addEFLNode bp'
  else
    PUT (HDRP bp) (PACK available 1) ;;;
    f <- FTRP bp ;;
    PUT f (PACK available 1) ;;;
    removeEFLNode bp.

Definition coalesce (bp : Z) : M Z :=
  pv <- PREV_BLKP bp ;;
  fpv <- FTRP pv ;;
  prevAlloc <- GET_ALLOC fpv ;;
  nx <- NEXT_BLKP bp ;;
  nextAlloc <- GET_ALLOC (HDRP nx) ;;
  size <- GET_SIZE (HDRP bp) ;;
  if decide (prevAlloc ≠ 0 ∧ nextAlloc ≠ 0) then
    addEFLNode bp ;;;
    ret bp
  else if decide (prevAlloc ≠ 0 ∧ ¬ nextAlloc ≠ 0) then
    nx1 <- NEXT_BLKP bp ;;
    nsz <- GET_SIZE (HDRP nx1) ;;
    let size' := wrap (size + nsz) in
    nx2 <- NEXT_BLKP bp ;;
    removeEFLNode nx2 ;;;
    PUT (HDRP bp) (PACK size' 0) ;;;
    f <- FTRP bp ;;
    PUT f (PACK size' 0) ;;;
    addEFLNode bp ;;;
    ret bp
  else if decide (¬ prevAlloc ≠ 0 ∧ nextAlloc ≠ 0) then
    pv1 <- PREV_BLKP bp ;;
    psz <- GET_SIZE (HDRP pv1) ;;
    let size' := wrap (size + psz) in
    f <- FTRP bp ;;
    PUT f (PACK size' 0) ;;;
    pv2 <- PREV_BLKP bp ;;
    PUT (HDRP pv2) (PACK size' 0) ;;;
    pv3 <- PREV_BLKP bp ;;
    ret pv3
  else
    pv1 <- PREV_BLKP bp ;;
    psz <- GET_SIZE (HDRP pv1) ;;
    nx1 <- NEXT_BLKP bp ;;
    nsz <- GET_SIZE (HDRP nx1) ;;
    let size' := wrap (size + wrap (psz + nsz)) in
    nx2 <- NEXT_BLKP bp ;;
    removeEFLNode nx2 ;;;
    pv2 <- PREV_BLKP bp ;;
    PUT (HDRP pv2) (PACK size' 0) ;;;
    pv3 <- PREV_BLKP bp ;;
    f <- FTRP pv3 ;;
    PUT f (PACK size' 0) ;;;
    pv4 <- PREV_BLKP bp ;;
    ret pv4.

(** ** Public operations *)

Definition mm_init : M Z :=
  set_nextFree NULL ;;;
  set_basePage NULL ;;;
  ps <- mem_pagesize ;;
  extend ps ;;;
  ret 0.

(** The [while] loop of [mm_malloc]: [Some p] when the loop returned [p] from
    inside, [None] when it ran off the end of the list. *)
Fixpoint mm_malloc_walk (fuel : nat) (sizeAlign avail : Z) : M (option Z) :=
  match fuel with
  | O => out_of_fuel
  | S fuel' =>
      if decide (avail ≠ NULL) then
        sz <- GET_SIZE (HDRP avail) ;;
        if decide (sz >= sizeAlign) then
          setAllocated avail sizeAlign ;;;
          ret (Some avail)
        else
          nx <- GET (next_field avail) ;;
          mm_malloc_walk fuel' sizeAlign nx
      else ret None
  end.

Fixpoint mm_malloc (fuel : nat) (size : Z) : M Z :=
  match fuel with
  | O => out_of_fuel
  | S fuel' =>
      if decide (size = 0) then ret NULL
      else
        let size1 := if decide (size <= MINSIZE) then MINSIZE else size in
        let sizeAlign := ALIGN (wrap (size1 + OVERHEAD)) in
        avail <- get_nextFree ;;
        found <- mm_malloc_walk fuel' sizeAlign avail ;;
        match found with
        | Some p => ret p
        | None =>
            extend sizeAlign ;;;
            mm_malloc fuel' size1
        end
  end.

Definition mm_free (bp : Z) : M unit :=
  size <- GET_SIZE (HDRP bp) ;;
  PUT (HDRP bp) (PACK size 0) ;;;
  f <- FTRP bp ;;
  PUT f (PACK size 0) ;;;
  bp1 <- coalesce bp ;;
  size1 <- GET_SIZE (HDRP bp1) ;;
  pv <- PREV_BLKP bp1 ;;
  psz <- GET_SIZE (HDRP pv) ;;
  if decide (psz = OVERHEAD) then
    nx <- NEXT_BLKP bp1 ;;
    nsz <- GET_SIZE (HDRP nx) ;;
    if decide (nsz = 0) then
      let start := wrap (bp1 - 2 * OVERHEAD) in
      base <- get_basePage ;;
      if decide (start = base) then ret tt
      else
        removeEFLNode bp1 ;;;
        mem_unmap start (wrap (size1 + PAGEOVERHEAD))
    else ret tt
  else ret tt.

(** A block size as the allocator stores it: a multiple of 16 that fits a word
    together with the allocation bit. *)
Definition size_ok (sz : Z) : Prop := 0 <= sz < 2 ^ 64 ∧ sz mod 16 = 0.

Definition bit (a : Z) : Prop := a = 0 ∨ a = 1.

(** ** Representation of the explicit free list

    [cells L] are the addresses of the link fields of the nodes [L]; [dll m p L]
    says that the nodes [L] are linked in [m] in this order, the first one
    having [p] as its [prev] and the last one [NULL] as its [next]. *)

Fixpoint cells (L : list Z) : list Z :=
  match L with
  | [] => []
  | n :: L' => prev_field n :: next_field n :: cells L'
  end.

Fixpoint dll (m : gmap Z Z) (p : Z) (L : list Z) : Prop :=
  match L with
  | [] => True
  | n :: L' =>
      n ≠ NULL ∧ m !! prev_field n = Some p ∧
      m !! next_field n = Some (hd NULL L') ∧ dll m n L'
  end.

(** The EFL of state [s] is the list [L]: [nextFree] is its head, the nodes
    are doubly linked, and no two link fields share an address. *)
Definition efl (s : state) (L : list Z) : Prop :=
  nextFree s = hd NULL L ∧ dll (mem s) NULL L ∧ NoDup (cells L).

(** The predecessor of the node that follows [l]: the last node of [l], or
    [p] when [l] is empty. *)
Definition pred_of (p : Z) (l : list Z) : Z := default p (last l).

(** What [removeEFLNode] and [addEFLNode] write, given the neighbours. *)
Definition upd (c : bool) (a v : Z) (m : gmap Z Z) : gmap Z Z :=
  if c then <[a := v]> m else m.

Definition unlink (m : gmap Z Z) (pb nb : Z) : gmap Z Z :=
  upd (bool_decide (nb ≠ NULL)) (prev_field nb) pb
      (upd (bool_decide (pb ≠ NULL)) (next_field pb) nb m).

Definition link (m : gmap Z Z) (b h : Z) : gmap Z Z :=
  upd (bool_decide (h ≠ NULL)) (prev_field h) b
      (<[next_field b := h]> (<[prev_field b := NULL]> m)).

(** Host-side fields are untouched. *)
Definition same_host (s s' : state) : Prop :=
  basePage s' = basePage s ∧ pagesize s' = pagesize s ∧
  answers s' = answers s ∧ regions s' = regions s ∧ unmaps s' = unmaps s.

(** [s'] differs from [s] at most in the words at the addresses [C] and in
    [nextFree]; the same addresses hold words. *)
Definition frame (C : list Z) (s s' : state) : Prop :=
  same_host s s' ∧
  (∀ a, a ∉ C → mem s' !! a = mem s !! a) ∧
  (∀ a, is_Some (mem s' !! a) ↔ is_Some (mem s !! a)).

(** The number of bytes [extend size] asks of [mem_map]. *)
Definition extend_bytes (ps size : Z) : Z :=
  wrap ((if decide (size mod ps ≠ 0) then PAGEALIGN ps size else size) * PAGERATIO).

(** The words of a region of [len] bytes at [base] after [extend] has laid it
    out, [h] being the head of the EFL before. *)
Definition extend_mem (m : gmap Z Z) (base len h : Z) : gmap Z Z :=
  link (<[base + 24 := PACK (len - 32) 0]>
         (<[base + 24 := PACK (len - 32) 0]>
           (<[base + len - 8 := PACK 0 1]>
             (<[base + 16 := PACK OVERHEAD 1]>
               (<[base + 8 := PACK OVERHEAD 1]>
                 (zero_fill m base (Z.to_nat (len / 8))))))))
       (base + 32) h.

(** No link field of a node of [L] lies in the byte range from [lo] to [hi]. *)
Definition apart (lo hi : Z) (L : list Z) : Prop :=
  Forall (λ n, n + 16 <= lo ∨ hi <= n) L.

(** The [n] words from address [a] on are mapped. *)
Definition mapped_words (m : gmap Z Z) (a n : Z) : Prop :=
  Forall (λ i, is_Some (m !! (a + 8 * i))) (seqZ 0 n).

(** [c] started in [s] returns, and the result and final state satisfy [Q]. *)
Definition returns {A} (c : M A) (s : state) (Q : A → state → Prop) : Prop :=
  ∃ a s', c s = Ret a s' ∧ Q a s'.

(** The state in which [mm_free] calls [coalesce]: both tags of the block
    show it free. *)
Definition cleared (b sz : Z) (s : state) : state :=
  with_mem (<[b + sz - 16 := PACK sz 0]> (<[b - 8 := PACK sz 0]> (mem s))) s.




(** [c] neither maps nor unmaps, and does not touch [basePage]. *)
Definition host_stable {A} (c : M A) : Prop :=
  ∀ s a s', c s = Ret a s' → same_host s s'.

(** Rounding [x] up to a multiple of [a], and the block size a request of [n]
    bytes needs, as the specification writes them. *)
Definition align_up (x a : Z) : Z := a * ((x + a - 1) / a).
Definition needed (n : Z) : Z := align_up (Z.max n MINSIZE + OVERHEAD) ALIGNMENT.

(** The size [mm_malloc] computes for a request of [size] bytes. *)
Definition sizeAlign_of (size : Z) : Z :=
  ALIGN (wrap ((if decide (size <= MINSIZE) then MINSIZE else size) + OVERHEAD)).

(** A block of the EFL whose header records a size below [sz]. *)
Definition too_small (s : state) (sz x : Z) : Prop :=
  ∃ w, mem s !! (x - 8) = Some w ∧ size_of w < sz.

(** ** Concrete states (page size 4096, as in the seed scenarios) *)

Definition boot (ans : list Z) : state :=
  State ∅ NULL NULL 4096 ans [] [].

(** The state a computation ends in ([s] itself when it does not return). *)
Definition final {A} (c : M A) (s : state) : state :=
  match c s with
  | Ret _ s' => s'
  | _ => s
  end.

(** The value a computation returns, if it does. *)
Definition result {A} (c : M A) (s : state) : option A :=
  match c s with
  | Ret a _ => Some a
  | _ => None
  end.

(** States of the seed scenarios: page size 4096, the provider grants the
    regions at 65536 and 131072 and refuses afterwards. *)
Definition st_boot : state := boot [65536; 131072].
Definition st_init : state := final mm_init st_boot.
(** after [mm_malloc(40900)], which takes the whole primordial block *)
Definition st_full : state := final (mm_malloc 5 40900) st_init.
(** after a further [mm_malloc(64)], which maps the second region *)
Definition st_two : state := final (mm_malloc 5 64) st_full.
(** after three [mm_malloc(100)] on [st_init]: blocks at 65568, 65696, 65824 *)
Definition st_xyz : state :=
  final (mm_malloc 5 100) (final (mm_malloc 5 100) (final (mm_malloc 5 100) st_init)).
(** [st_xyz] after [mm_free] of the middle block, and of the first one *)
Definition st_xz : state := final (mm_free 65696) st_xyz.
(** [st_xyz] after [mm_malloc(200)] and [mm_malloc(100)], blocks at 65952 (224
    bytes) and 66176 *)
Definition st_five : state :=
  final (mm_malloc 5 100) (final (mm_malloc 5 200) st_xyz).
(** [st_five] after [mm_free] of the fourth and then of the second block: the
    EFL is 65696 (128 bytes), 65952 (224 bytes), 66304 (the rest) *)
Definition st_holes : state :=
  final (mm_free 65696) (final (mm_free 65952) st_five).

(** The same addresses hold words in both states. *)
Definition same_domain (s s' : state) : Prop :=
  ∀ a, is_Some (mem s' !! a) ↔ is_Some (mem s !! a).

(** [c] works on the heap only: it neither maps nor unmaps, leaves [basePage]
    alone, and writes only to addresses that hold a word. *)
Definition heap_only {A} (c : M A) : Prop :=
  ∀ s a s', c s = Ret a s' → same_host s s' ∧ same_domain s s'.

(** Every run of [c] that returns relates the initial to the final state by [R]. *)
Definition keeps (R : state → state → Prop) {A} (c : M A) : Prop :=
  ∀ s a s', c s = Ret a s' → R s s'.

(** What a call of [mm_malloc] may do to the provider's side of the state:
    nothing is unmapped, the page size is the same, [basePage] is set once,
    every address that held a word still does, and regions are only added. *)
Definition alloc_effect (s s' : state) : Prop :=
  unmaps s' = unmaps s ∧ pagesize s' = pagesize s ∧
  (basePage s ≠ NULL → basePage s' = basePage s) ∧
  (∀ a, is_Some (mem s !! a) → is_Some (mem s' !! a)) ∧
  regions s `suffix_of` regions s' ∧ answers s' `suffix_of` answers s.

(** What a call of [mm_free] may do to it: nothing is mapped, [basePage] is
    the same, and at most one region, not the one at [basePage], is unmapped. *)
Definition release_effect (s s' : state) : Prop :=
  answers s' = answers s ∧ pagesize s' = pagesize s ∧ basePage s' = basePage s ∧
  (∀ a, is_Some (mem s' !! a) → is_Some (mem s !! a)) ∧
  (unmaps s' = unmaps s ∧ regions s' = regions s ∨
   ∃ start size, unmaps s' = (start, size) :: unmaps s ∧ start ≠ basePage s).


(** * Properties *)

(** ** Words, masks and tags *)

Lemma wrap_small z : 0 <= z < 2 ^ 64 → wrap z = z.
Proof. intros. unfold wrap. by apply Z.mod_small. Qed.

Lemma wrap_range z : 0 <= wrap z < 2 ^ 64.
Proof. unfold wrap. apply Z.mod_pos_bound. lia. Qed.

Lemma land_mask_pow2 w k :
  0 <= k <= 64 → 0 <= w < 2 ^ 64 →
  Z.land w (wrap (Z.lnot (2 ^ k - 1))) = 2 ^ k * (w / 2 ^ k).
Proof.
  intros Hk Hw.
  assert (Hm : wrap (Z.lnot (2 ^ k - 1)) = Z.land (Z.lnot (Z.ones k)) (Z.ones 64)).
  { rewrite Z.land_ones by lia. unfold wrap. f_equal. f_equal.
    rewrite Z.ones_equiv. lia. }
  rewrite Hm, Z.land_comm, <- Z.land_assoc.
  rewrite (Z.land_comm (Z.ones 64)), Z.land_ones by lia.
  rewrite (Z.mod_small w) by lia.
  rewrite Z.land_comm.
  rewrite <- Z.ldiff_land.
  rewrite Z.ldiff_ones_r by lia.
  rewrite Z.shiftr_div_pow2, Z.shiftl_mul_pow2 by lia. lia.
Qed.

Lemma size_of_div w : 0 <= w < 2 ^ 64 → size_of w = 16 * (w / 16).
Proof. intros. unfold size_of. apply (land_mask_pow2 w 4); lia. Qed.

Lemma alloc_of_mod w : alloc_of w = w mod 2.
Proof.
  unfold alloc_of. change (Z.land w 1) with (Z.land w (Z.ones 1)).
  by rewrite Z.land_ones.
Qed.

Lemma PACK_0 sz : PACK sz 0 = sz.
Proof. unfold PACK. apply Z.lor_0_r. Qed.

Lemma PACK_1 sz : 0 <= sz → sz mod 16 = 0 → PACK sz 1 = sz + 1.
Proof.
  intros Hsz Hm. unfold PACK.
  assert (Z.land sz 1 = 0).
  { change (Z.land sz 1) with (Z.land sz (Z.ones 1)). rewrite Z.land_ones by lia.
    change (2 ^ 1) with 2. rewrite (Z.div_mod sz 16) by lia.
    rewrite Hm. replace (16 * (sz / 16) + 0) with ((8 * (sz / 16)) * 2) by lia.
    apply Z.mod_mul. lia. }
  rewrite <- Z.lxor_lor by done. symmetry. by apply Z.add_nocarry_lxor.
Qed.

Lemma PACK_add sz a : size_ok sz → bit a → PACK sz a = sz + a.
Proof.
  intros [? ?] [-> | ->]; [rewrite PACK_0; lia | apply PACK_1; lia].
Qed.

Lemma PACK_range sz a : size_ok sz → bit a → 0 <= PACK sz a < 2 ^ 64.
Proof.
  intros Hs Ha. rewrite PACK_add by done.
  destruct Hs as [? Hm], Ha as [-> | ->]; [lia |].
  assert (sz mod 16 = (2 ^ 64 - 1) mod 16 → False) by (rewrite Hm; done).
  assert (sz ≠ 2 ^ 64 - 1) by (intros ->; auto). lia.
Qed.

Lemma size_of_PACK sz a : size_ok sz → bit a → size_of (PACK sz a) = sz.
Proof.
  intros Hs Ha. rewrite size_of_div by by apply PACK_range.
  rewrite PACK_add by done. destruct Hs as [? Hm].
  rewrite (Z.div_mod sz 16) at 1 by lia. rewrite Hm.
  replace (16 * (sz / 16) + 0 + a) with (sz / 16 * 16 + a) by lia.
  rewrite Z.div_add_l by lia.
  replace (a / 16) with 0 by (destruct Ha as [-> | ->]; done).
  pose proof (Z.div_mod sz 16). lia.
Qed.

Lemma alloc_of_PACK sz a : size_ok sz → bit a → alloc_of (PACK sz a) = a.
Proof.
  intros Hs Ha. rewrite alloc_of_mod, PACK_add by done. destruct Hs as [? Hm].
  rewrite (Z.div_mod sz 16) by lia. rewrite Hm.
  replace (16 * (sz / 16) + 0 + a) with (a + (8 * (sz / 16)) * 2) by lia.
  rewrite Z.mod_add by lia. destruct Ha as [-> | ->]; done.
Qed.

Lemma ALIGN_div x : 0 <= x → x + 15 < 2 ^ 64 → ALIGN x = 16 * ((x + 15) / 16).
Proof.
  intros. unfold ALIGN, ALIGNMENT. rewrite wrap_small by lia.
  apply (land_mask_pow2 (x + (16 - 1)) 4); lia.
Qed.

Lemma PAGEALIGN_div k x :
  0 <= k <= 64 → 0 <= x → x + (2 ^ k - 1) < 2 ^ 64 →
  PAGEALIGN (2 ^ k) x = 2 ^ k * ((x + (2 ^ k - 1)) / 2 ^ k).
Proof.
  intros. unfold PAGEALIGN.
  assert (0 < 2 ^ k) by (apply Z.pow_pos_nonneg; lia).
  rewrite wrap_small by lia. apply land_mask_pow2; lia.
Qed.

(** ** Running the monad *)

Lemma bind_Ret {A B} (c : M A) (k : A → M B) s a s1 :
  c s = Ret a s1 → bind c k s = k a s1.
Proof. intros H. unfold bind. by rewrite H. Qed.

Lemma GET_Ret p w s : mem s !! p = Some w → GET p s = Ret w s.
Proof. intros H. unfold GET. by rewrite H. Qed.

Lemma PUT_Ret p v s :
  is_Some (mem s !! p) → PUT p v s = Ret tt (with_mem (<[p := v]> (mem s)) s).
Proof. intros [w H]. unfold PUT. by rewrite H. Qed.

Lemma GET_SIZE_Ret p w s : mem s !! p = Some w → GET_SIZE p s = Ret (size_of w) s.
Proof. intros H. unfold GET_SIZE. by rewrite (bind_Ret _ _ _ _ _ (GET_Ret _ _ _ H)). Qed.

Lemma GET_ALLOC_Ret p w s : mem s !! p = Some w → GET_ALLOC p s = Ret (alloc_of w) s.
Proof. intros H. unfold GET_ALLOC. by rewrite (bind_Ret _ _ _ _ _ (GET_Ret _ _ _ H)). Qed.

Lemma FTRP_Ret bp w s :
  mem s !! (bp - 8) = Some w → FTRP bp s = Ret (bp + size_of w - 16) s.
Proof.
  intros H. unfold FTRP. by rewrite (bind_Ret _ _ _ _ _ (GET_SIZE_Ret _ _ _ H)).
Qed.

Lemma NEXT_BLKP_Ret bp w s :
  mem s !! (bp - 8) = Some w → NEXT_BLKP bp s = Ret (bp + size_of w) s.
Proof.
  intros H. unfold NEXT_BLKP. by rewrite (bind_Ret _ _ _ _ _ (GET_SIZE_Ret _ _ _ H)).
Qed.

Lemma PREV_BLKP_Ret bp w s :
  mem s !! (bp - 16) = Some w → PREV_BLKP bp s = Ret (bp - size_of w) s.
Proof.
  intros H. unfold PREV_BLKP. by rewrite (bind_Ret _ _ _ _ _ (GET_SIZE_Ret _ _ _ H)).
Qed.

Lemma lookup_insert_same (m : gmap Z Z) a p v : a = p → <[a := v]> m !! p = Some v.
Proof. intros ->. apply lookup_insert_eq. Qed.

Lemma lookup_insert_diff (m : gmap Z Z) a p v : a ≠ p → <[a := v]> m !! p = m !! p.
Proof. apply lookup_insert_ne. Qed.

Lemma is_Some_insert (m : gmap Z Z) a v p :
  is_Some (m !! a) → (is_Some (<[a := v]> m !! p) ↔ is_Some (m !! p)).
Proof.
  intros Ha. destruct (decide (a = p)) as [-> | Hne].
  - rewrite lookup_insert_eq. naive_solver.
  - by rewrite lookup_insert_ne.
Qed.

(** ** The list representation *)

Lemma elem_of_cells a L : a ∈ cells L ↔ ∃ n, n ∈ L ∧ (a = n ∨ a = n + 8).
Proof.
  induction L as [| x L IH]; simpl.
  - split; [by intros ?%elem_of_nil | by intros (n & ?%elem_of_nil & _)].
  - unfold prev_field, next_field. rewrite !elem_of_cons, IH. split.
    + intros [-> | [-> | (n & Hn & Ha)]].
      * exists x. rewrite elem_of_cons. auto.
      * exists x. rewrite elem_of_cons. auto.
      * exists n. rewrite elem_of_cons. auto.
    + intros (n & Hn & Ha). apply elem_of_cons in Hn as [Hn | Hn].
      * subst n. tauto.
      * right; right. eauto.
Qed.

Lemma cells_app L1 L2 : cells (L1 ++ L2) = cells L1 ++ cells L2.
Proof. induction L1 as [| x L1 IH]; simpl; [done | by rewrite IH]. Qed.

Lemma cells_NoDup_nodes L : NoDup (cells L) → NoDup L.
Proof.
  induction L as [| x L IH]; simpl; [constructor |].
  intros [Hx [_ HL]%NoDup_cons]%NoDup_cons. constructor; [| auto].
  intros Hin. apply Hx. rewrite elem_of_cons. right.
  apply elem_of_cells. exists x. auto.
Qed.

Lemma cells_NoDup_remove l1 b l2 :
  NoDup (cells (l1 ++ b :: l2)) → NoDup (cells (l1 ++ l2)).
Proof.
  rewrite !cells_app. simpl. rewrite !NoDup_app.
  intros (H1 & H2 & [_ [_ H3]%NoDup_cons]%NoDup_cons). split_and!; [done | | done].
  intros x Hx Hx2. apply (H2 x Hx). rewrite !elem_of_cons. auto.
Qed.

Lemma dll_nonzero m p L n : dll m p L → n ∈ L → n ≠ NULL.
Proof.
  revert p. induction L as [| x L IH]; simpl; intros p H Hn.
  - by apply elem_of_nil in Hn.
  - destruct H as (Hx & _ & _ & HL).
    apply elem_of_cons in Hn as [-> | Hn]; eauto.
Qed.

Lemma dll_mapped m p L a : dll m p L → a ∈ cells L → is_Some (m !! a).
Proof.
  revert p. induction L as [| x L IH]; simpl; intros p H Ha.
  - by apply elem_of_nil in Ha.
  - destruct H as (_ & Hp & Hn & HL).
    apply elem_of_cons in Ha as [-> | Ha]; [eauto |].
    apply elem_of_cons in Ha as [-> | Ha]; eauto.
Qed.

Lemma dll_agree m m' p L :
  (∀ a, a ∈ cells L → m' !! a = m !! a) → dll m p L → dll m' p L.
Proof.
  revert p. induction L as [| x L IH]; simpl; intros p Hag H; [done |].
  destruct H as (Hx & Hp & Hn & HL). split_and!; [done | | |].
  - rewrite Hag; [done | rewrite elem_of_cons; auto].
  - rewrite Hag; [done | rewrite !elem_of_cons; auto].
  - apply IH; [| done]. intros a Ha. apply Hag. rewrite !elem_of_cons. auto.
Qed.

Lemma dll_insert m p L a v : a ∉ cells L → dll m p L → dll (<[a := v]> m) p L.
Proof.
  intros Ha. apply dll_agree. intros c Hc. apply lookup_insert_ne. by intros ->.
Qed.

Lemma efl_nodes_NoDup s L : efl s L → NoDup L.
Proof. intros (_ & _ & H). by apply cells_NoDup_nodes. Qed.

Lemma efl_PUT s L a v :
  efl s L → a ∉ cells L → efl (with_mem (<[a := v]> (mem s)) s) L.
Proof.
  intros (Hh & Hd & Hn) Ha. split_and!; [done | | done]. simpl. by apply dll_insert.
Qed.

Lemma pred_of_cons p x l : pred_of p (x :: l) = pred_of x l.
Proof. unfold pred_of. rewrite last_cons. by destruct (last l). Qed.

Lemma pred_of_elem p l : pred_of p l = p ∨ pred_of p l ∈ l.
Proof.
  revert p. induction l as [| x l IH]; intros p; [by left |].
  rewrite pred_of_cons. right. rewrite elem_of_cons.
  destruct (IH x); auto.
Qed.

Lemma hd_elem (l : list Z) : hd NULL l = NULL ∨ hd NULL l ∈ l.
Proof. destruct l; simpl; [by left | right; apply elem_of_cons; auto]. Qed.

Lemma unlink_lookup m pb nb a :
  unlink m pb nb !! a =
    if decide (nb ≠ NULL ∧ a = nb) then Some pb
    else if decide (pb ≠ NULL ∧ a = pb + 8) then Some nb
    else m !! a.
Proof.
  unfold unlink, upd, prev_field, next_field, NULL.
  repeat case_bool_decide; repeat case_decide;
    repeat first [rewrite lookup_insert_same by lia | rewrite lookup_insert_diff by lia];
    first [done | lia].
Qed.

Lemma link_lookup m b h a :
  link m b h !! a =
    if decide (h ≠ NULL ∧ a = h) then Some b
    else if decide (a = b + 8) then Some h
    else if decide (a = b) then Some NULL
    else m !! a.
Proof.
  unfold link, upd, prev_field, next_field, NULL.
  repeat case_bool_decide; repeat case_decide;
    repeat first [rewrite lookup_insert_same by lia | rewrite lookup_insert_diff by lia];
    first [done | lia].
Qed.

Lemma unlink_prev m pb nb : nb ≠ NULL → unlink m pb nb !! nb = Some pb.
Proof. intros. rewrite unlink_lookup. by rewrite decide_True. Qed.

Lemma unlink_next m pb nb :
  pb ≠ NULL → (nb ≠ NULL → pb + 8 ≠ nb) → unlink m pb nb !! (pb + 8) = Some nb.
Proof.
  intros ? H. rewrite unlink_lookup.
  rewrite decide_False by (intros [? ?]; by apply H). by rewrite decide_True.
Qed.

Lemma unlink_other m pb nb a :
  (nb ≠ NULL → a ≠ nb) → (pb ≠ NULL → a ≠ pb + 8) → unlink m pb nb !! a = m !! a.
Proof.
  intros H1 H2. rewrite unlink_lookup.
  rewrite decide_False by (intros [? ?]; by apply H1).
  rewrite decide_False by (intros [? ?]; by apply H2). done.
Qed.

Lemma dll_unlink m p l1 b l2 :
  NoDup (cells (l1 ++ b :: l2)) →
  (p ≠ NULL → next_field p ∉ cells (l1 ++ b :: l2)) →
  dll m p (l1 ++ b :: l2) →
  m !! b = Some (pred_of p l1) ∧ m !! (b + 8) = Some (hd NULL l2) ∧
  dll (unlink m (pred_of p l1) (hd NULL l2)) p (l1 ++ l2).
Proof.
  revert p. induction l1 as [| x l1 IH]; intros p Hnd Hp Hd.
  - simpl in *. destruct Hd as (Hb & Hbp & Hbn & Hl2).
    split_and!; [done | done |].
    destruct l2 as [| n l2]; [done |]. simpl in *.
    destruct Hl2 as (Hn & Hnp & Hnn & Hl2).
    unfold pred_of, prev_field, next_field in *. simpl.
    apply NoDup_cons in Hnd as [_ Hnd]. apply NoDup_cons in Hnd as [_ Hnd].
    apply NoDup_cons in Hnd as [Hn1 Hnd]. apply NoDup_cons in Hnd as [Hn2 Hnd].
    rewrite !not_elem_of_cons in Hn1.
    assert (Hp' : p ≠ NULL → p + 8 ≠ n + 8 ∧ p + 8 ∉ cells l2).
    { intros Hp0. specialize (Hp Hp0). rewrite !not_elem_of_cons in Hp. tauto. }
    split_and!; [done | | |].
    + by apply unlink_prev.
    + rewrite unlink_other; [done | lia |]. intros Hp0. specialize (Hp' Hp0). lia.
    + eapply dll_agree; [| done]. intros a Ha. apply unlink_other.
      * intros _ ->. tauto.
      * intros Hp0 ->. specialize (Hp' Hp0). tauto.
  - rewrite pred_of_cons. simpl in Hd, Hnd.
    destruct Hd as (Hx & Hxp & Hxn & Hd).
    apply NoDup_cons in Hnd as [Hx1 Hnd]. apply NoDup_cons in Hnd as [Hx2 Hnd].
    destruct (IH x Hnd (λ _, Hx2) Hd) as (Hb1 & Hb2 & IHd).
    split_and!; [done | done |]. simpl.
    unfold prev_field, next_field in *.
    assert (Hpb : pred_of x l1 = x ∨ pred_of x l1 ∈ l1 ∧ pred_of x l1 + 8 ∈ cells (l1 ++ b :: l2)).
    { destruct (pred_of_elem x l1) as [-> | Hin]; [by left | right]. split; [done |].
      apply elem_of_cells. exists (pred_of x l1). split; [| by right].
      apply elem_of_app. by left. }
    assert (Hnb : hd NULL l2 = NULL ∨ hd NULL l2 ∈ cells (l1 ++ b :: l2)).
    { destruct (hd_elem l2) as [-> | Hin]; [by left | right].
      apply elem_of_cells. exists (hd NULL l2). split; [| by left].
      apply elem_of_app. right. apply elem_of_cons. by right. }
    rewrite not_elem_of_cons in Hx1.
    split_and!; [done | | | done].
    + rewrite unlink_other; [done | |].
      * intros Hn0 Heq. destruct Hnb as [? | Hnb]; [done |]. rewrite <- Heq in Hnb. tauto.
      * intros _ Heq. destruct Hpb as [Hpb | [_ Hpb]]; [lia |]. rewrite <- Heq in Hpb. tauto.
    + destruct l1 as [| y l1]; simpl.
      * unfold pred_of. simpl. apply unlink_next; [done |].
        intros Hn0 Heq. destruct Hnb as [Hnb | Hnb]; [done |].
        rewrite <- Heq in Hnb. tauto.
      * rewrite unlink_other; [done | |].
        -- intros Hn0 Heq. destruct Hnb as [? | Hnb]; [done |]. rewrite <- Heq in Hnb. tauto.
        -- intros _ Heq.
           assert (pred_of x (y :: l1) ∈ y :: l1) as Hpb'.
           { rewrite pred_of_cons. rewrite elem_of_cons.
             destruct (pred_of_elem y l1); auto. }
           assert (pred_of x (y :: l1) = x) as Hpx by lia. rewrite Hpx in Hpb'.
           destruct Hx1 as [_ Hx1]. apply Hx1. apply elem_of_cells. exists x. split; [| by left].
           apply elem_of_app. by left.
Qed.

Lemma bind_step {A B} (c : M A) (k : A → M B) s a s1 r :
  c s = Ret a s1 → k a s1 = r → bind c k s = r.
Proof. intros H <-. by apply bind_Ret. Qed.

Ltac st_simpl :=
  cbn [mem basePage nextFree pagesize answers regions unmaps
       with_mem with_basePage with_nextFree] in *.

Ltac lk :=
  st_simpl;
  repeat first [ rewrite lookup_insert_same by lia
               | rewrite lookup_insert_diff by lia ];
  first [ eassumption | reflexivity | by eauto ].

Ltac lk_some :=
  st_simpl;
  repeat first [ rewrite lookup_insert_same by lia
               | rewrite lookup_insert_diff by lia ];
  first [ eassumption | by eauto ].

Ltac mstep tac := eapply bind_step; [ tac | cbv beta ].
Ltac mGET := mstep ltac:(apply GET_Ret; lk).
Ltac mPUT := mstep ltac:(apply PUT_Ret; lk_some).
Ltac mget := mstep ltac:(reflexivity).

Lemma pred_of_NULL L :
  (∀ n, n ∈ L → n ≠ NULL) → pred_of NULL L = NULL → L = [].
Proof.
  intros Hd Hp. destruct L as [| x L]; [done |]. exfalso.
  assert (pred_of NULL (x :: L) ∈ x :: L) as Hin.
  { rewrite pred_of_cons, elem_of_cons. destruct (pred_of_elem x L); auto. }
  rewrite Hp in Hin. by eapply Hd.
Qed.

Lemma hd_app_ne (l1 l2 l3 : list Z) : l1 ≠ [] → hd NULL (l1 ++ l2) = hd NULL (l1 ++ l3).
Proof. by destruct l1. Qed.

Lemma removeEFLNode_Ret s l1 b l2 :
  efl s (l1 ++ b :: l2) →
  removeEFLNode b s =
    Ret tt (with_nextFree (hd NULL (l1 ++ l2))
              (with_mem (unlink (mem s) (pred_of NULL l1) (hd NULL l2)) s)).
Proof.
  intros (Hh & Hd & Hnd).
  destruct (dll_unlink _ _ _ _ _ Hnd (λ H, False_ind _ (H eq_refl)) Hd)
    as (Hbp & Hbn & _).
  assert (Hpin : pred_of NULL l1 ≠ NULL → pred_of NULL l1 ∈ l1).
  { intros H. by destruct (pred_of_elem NULL l1). }
  assert (Hnin : hd NULL l2 ≠ NULL → hd NULL l2 ∈ l2).
  { intros H. by destruct (hd_elem l2). }
  assert (Hpm : pred_of NULL l1 ≠ NULL → is_Some (mem s !! (pred_of NULL l1 + 8))).
  { intros H. eapply dll_mapped; [done |]. apply elem_of_cells.
    exists (pred_of NULL l1). split; [| by right]. apply elem_of_app. auto. }
  assert (Hnm : hd NULL l2 ≠ NULL → is_Some (mem s !! hd NULL l2)).
  { intros H. eapply dll_mapped; [done |]. apply elem_of_cells.
    exists (hd NULL l2). split; [| by left]. apply elem_of_app. right.
    apply elem_of_cons. auto. }
  assert (Hne1 : pred_of NULL l1 ≠ NULL → pred_of NULL l1 + 8 ≠ b ∧ pred_of NULL l1 ≠ b).
  { intros H. specialize (Hpin H). rewrite cells_app in Hnd. simpl in Hnd.
    apply NoDup_app in Hnd as (_ & Hnd & _).
    split.
    - intros Heq. apply (Hnd (pred_of NULL l1 + 8)).
      + apply elem_of_cells. eauto.
      + rewrite <- Heq. unfold prev_field. apply elem_of_cons. auto.
    - intros Heq. apply (Hnd (pred_of NULL l1)).
      + apply elem_of_cells. eauto.
      + rewrite <- Heq. unfold prev_field. rewrite Heq. apply elem_of_cons. auto. }
  assert (Hne2 : pred_of NULL l1 ≠ NULL → hd NULL l2 ≠ NULL →
                 pred_of NULL l1 + 8 ≠ hd NULL l2).
  { intros H H'. specialize (Hpin H). specialize (Hnin H').
    rewrite cells_app in Hnd. apply NoDup_app in Hnd as (_ & Hnd & _).
    intros Heq. apply (Hnd (pred_of NULL l1 + 8)).
    - apply elem_of_cells. eauto.
    - rewrite Heq. apply elem_of_cells. exists (hd NULL l2).
      rewrite elem_of_cons. auto. }
  unfold removeEFLNode, prev_field, next_field in *.
  set (pb := pred_of NULL l1) in *. set (nb := hd NULL l2) in *.
  mGET.
  destruct (decide (pb ≠ NULL)) as [Hp | Hp].
  - destruct (Hne1 Hp) as [Hne Hne'].
    assert (l1 ≠ []) as Hl1 by (intros ->; by apply Hp).
    rewrite (hd_app_ne l1 l2 (b :: l2)), <- Hh by done.
    mstep ltac:(mGET; reflexivity).
    destruct (decide (nb ≠ NULL)) as [Hn | Hn].
    + rewrite bool_decide_true by done.
      specialize (Hne2 Hp Hn). specialize (Hpm Hp). specialize (Hnm Hn).
      mGET. mGET. mPUT. mGET. mGET. rewrite PUT_Ret by lk_some.
      unfold unlink, upd, prev_field, next_field.
      rewrite !bool_decide_true by done. by destruct s.
    + rewrite bool_decide_false by done.
      assert (nb = NULL) as Hn0 by (destruct (decide (nb = NULL)); tauto).
      specialize (Hpm Hp).
      mGET. rewrite decide_True by done. mGET. rewrite PUT_Ret by lk_some.
      unfold unlink, upd, prev_field, next_field.
      rewrite (bool_decide_true (pb ≠ NULL)), (bool_decide_false (nb ≠ NULL)) by done.
      rewrite Hn0. by destruct s.
  - assert (pb = NULL) as Hp0 by (destruct (decide (pb = NULL)); tauto).
    assert (l1 = []) as ->.
    { apply pred_of_NULL; [| done]. intros n Hn. eapply dll_nonzero; [done |].
      apply elem_of_app. auto. }
    mstep ltac:(reflexivity). mGET. rewrite decide_False by done. mGET.
    destruct (decide (nb ≠ NULL)) as [Hn | Hn].
    + specialize (Hnm Hn). mGET. mstep ltac:(reflexivity). mget.
      rewrite PUT_Ret by lk_some.
      unfold unlink, upd, prev_field, next_field.
      rewrite (bool_decide_false (pb ≠ NULL)), (bool_decide_true (nb ≠ NULL)) by done.
      rewrite Hp0. by destruct s.
    + assert (nb = NULL) as Hn0 by (destruct (decide (nb = NULL)); tauto).
      unfold unlink, upd, set_nextFree.
      rewrite (bool_decide_false (pb ≠ NULL)), (bool_decide_false (nb ≠ NULL)) by done.
      simpl. fold nb. rewrite Hn0. by destruct s.
Qed.

Lemma unlink_is_Some m pb nb a :
  (pb ≠ NULL → is_Some (m !! (pb + 8))) → (nb ≠ NULL → is_Some (m !! nb)) →
  is_Some (unlink m pb nb !! a) ↔ is_Some (m !! a).
Proof.
  intros Hp Hn. unfold unlink, upd, prev_field, next_field.
  repeat case_bool_decide; repeat (rewrite is_Some_insert); auto.
Qed.

Lemma cells_remove_subset a l1 b l2 :
  a ∈ cells (l1 ++ l2) → a ∈ cells (l1 ++ b :: l2).
Proof.
  rewrite !cells_app. simpl. rewrite !elem_of_app, !elem_of_cons. tauto.
Qed.

Lemma removeEFLNode_efl s l1 b l2 :
  efl s (l1 ++ b :: l2) →
  ∃ s', removeEFLNode b s = Ret tt s' ∧ efl s' (l1 ++ l2) ∧
        frame (cells (l1 ++ l2)) s s'.
Proof.
  intros Hefl. eexists. split; [by apply removeEFLNode_Ret |].
  destruct Hefl as (Hh & Hd & Hnd).
  destruct (dll_unlink _ _ _ _ _ Hnd (λ H, False_ind _ (H eq_refl)) Hd)
    as (Hbp & Hbn & Hd').
  assert (Hpin : pred_of NULL l1 ≠ NULL → pred_of NULL l1 + 8 ∈ cells (l1 ++ l2)).
  { intros H. apply elem_of_cells. exists (pred_of NULL l1). split; [| by right].
    apply elem_of_app. left. by destruct (pred_of_elem NULL l1). }
  assert (Hnin : hd NULL l2 ≠ NULL → hd NULL l2 ∈ cells (l1 ++ l2)).
  { intros H. apply elem_of_cells. exists (hd NULL l2). split; [| by left].
    apply elem_of_app. right. by destruct (hd_elem l2). }
  split; [split_and! |]; st_simpl.
  - done.
  - done.
  - by eapply cells_NoDup_remove.
  - split; [done |]. split; st_simpl.
    + intros a Ha. apply unlink_other.
      * intros H ->. auto.
      * intros H ->. auto.
    + intros a. apply unlink_is_Some.
      * intros H. eapply dll_mapped; [exact Hd |]. apply cells_remove_subset. auto.
      * intros H. eapply dll_mapped; [exact Hd |]. apply cells_remove_subset. auto.
Qed.

Lemma addEFLNode_Ret s b :
  is_Some (mem s !! b) → is_Some (mem s !! (b + 8)) →
  (nextFree s ≠ NULL → is_Some (mem s !! nextFree s)) →
  addEFLNode b s = Ret tt (with_nextFree b (with_mem (link (mem s) b (nextFree s)) s)).
Proof.
  intros Hb Hb8 Hh. unfold addEFLNode, prev_field, next_field. mget.
  destruct (decide (nextFree s ≠ NULL)) as [Hn | Hn].
  - specialize (Hh Hn). mPUT. mget. mPUT. mget.
    mstep ltac:(apply PUT_Ret; st_simpl; repeat (rewrite is_Some_insert); auto).
    unfold set_nextFree, link, upd, prev_field, next_field.
    rewrite bool_decide_true by done. by destruct s.
  - assert (nextFree s = NULL) as Hn0 by (destruct (decide (nextFree s = NULL)); tauto).
    mstep ltac:(reflexivity). mget. mPUT. mget.
    rewrite PUT_Ret by (st_simpl; by rewrite is_Some_insert).
    unfold link, upd, prev_field, next_field.
    rewrite bool_decide_false by done. st_simpl. rewrite Hn0.
    rewrite (insert_insert_ne (mem s) b (b + 8)) by lia. by destruct s.
Qed.

Lemma link_is_Some m b h a :
  is_Some (m !! b) → is_Some (m !! (b + 8)) → (h ≠ NULL → is_Some (m !! h)) →
  is_Some (link m b h !! a) ↔ is_Some (m !! a).
Proof.
  intros Hb Hb8 Hh. unfold link, upd, prev_field, next_field.
  case_bool_decide; repeat (rewrite is_Some_insert); auto.
Qed.

Ltac split_notin :=
  repeat match goal with
         | H : _ ∉ _ :: _ |- _ => apply not_elem_of_cons in H as [? ?]
         end.

Lemma addEFLNode_efl s L b :
  efl s L → b ≠ NULL →
  is_Some (mem s !! b) → is_Some (mem s !! (b + 8)) →
  b ∉ cells L → b + 8 ∉ cells L →
  ∃ s', addEFLNode b s = Ret tt s' ∧ efl s' (b :: L) ∧
        frame (cells (b :: L)) s s'.
Proof.
  intros (Hh & Hd & Hnd) Hb0 Hb Hb8 Hc Hc8.
  assert (Hhm : nextFree s ≠ NULL → is_Some (mem s !! nextFree s)).
  { rewrite Hh. intros H. eapply dll_mapped; [done |]. apply elem_of_cells.
    exists (hd NULL L). split; [| by left]. by destruct (hd_elem L). }
  eexists. split; [by apply addEFLNode_Ret |].
  split; [split_and! |]; st_simpl.
  - done.
  - simpl. unfold prev_field, next_field. rewrite Hh.
    assert (Hhc : hd NULL L ≠ NULL → hd NULL L ∈ cells L).
    { intros H. apply elem_of_cells. exists (hd NULL L). split; [| by left].
      by destruct (hd_elem L). }
    split_and!; [done | | |].
    + rewrite link_lookup. rewrite decide_False by (intros [H Heq]; rewrite Heq in Hc; auto).
      rewrite decide_False by lia. by rewrite decide_True.
    + rewrite link_lookup. rewrite decide_False by (intros [H Heq]; rewrite Heq in Hc8; auto).
      by rewrite decide_True.
    + destruct L as [| h L]; [done |]. simpl in *.
      destruct Hd as (Hh0 & Hhp & Hhn & Hd).
      unfold prev_field, next_field in *.
      apply NoDup_cons in Hnd as [Hn1 Hnd]. apply NoDup_cons in Hnd as [Hn2 Hnd].
      split_notin.
      split_and!; [done | | |].
      * rewrite link_lookup. by rewrite decide_True.
      * rewrite link_lookup. rewrite decide_False by lia.
        rewrite decide_False by lia. rewrite decide_False by lia. done.
      * eapply dll_agree; [| done]. intros a Ha. rewrite link_lookup.
        rewrite decide_False by (intros [_ ->]; tauto).
        rewrite decide_False by (intros ->; tauto).
        rewrite decide_False by (intros ->; tauto). done.
  - simpl. unfold prev_field, next_field. constructor.
    + rewrite not_elem_of_cons. split; [lia | done].
    + by constructor.
  - split; [done |]. split; st_simpl.
    + intros a Ha. simpl in Ha. unfold prev_field, next_field in Ha.
      rewrite !not_elem_of_cons in Ha. rewrite link_lookup.
      rewrite decide_False.
      * rewrite decide_False by tauto. rewrite decide_False by tauto. done.
      * intros [H Heq]. rewrite Hh in H, Heq. destruct Ha as (_ & _ & Ha). apply Ha.
        rewrite Heq. apply elem_of_cells. exists (hd NULL L). split; [| by left].
        by destruct (hd_elem L).
    + intros a. by apply link_is_Some.
Qed.

Lemma zero_fill_in m a n i :
  (0 <= i < Z.of_nat n) → zero_fill m a n !! (a + 8 * i) = Some 0.
Proof.
  revert a i. induction n as [| n IH]; intros a i Hi; [lia |]. simpl.
  destruct (decide (i = 0)) as [-> | Hne].
  - apply lookup_insert_same. lia.
  - rewrite lookup_insert_diff by lia.
    replace (a + 8 * i) with ((a + 8) + 8 * (i - 1)) by lia. apply IH. lia.
Qed.

Lemma zero_fill_out m a n x :
  ¬ in_range a (8 * Z.of_nat n) x → zero_fill m a n !! x = m !! x.
Proof.
  unfold in_range. revert a. induction n as [| n IH]; intros a Hx; [done |]. simpl.
  rewrite lookup_insert_diff by lia. apply IH. lia.
Qed.

Lemma zero_fill_mono m a n x :
  is_Some (m !! x) → is_Some (zero_fill m a n !! x).
Proof.
  revert a. induction n as [| n IH]; intros a Hx; [done |]. simpl.
  destruct (decide (a = x)) as [-> | Hne].
  - rewrite lookup_insert_eq. eauto.
  - rewrite lookup_insert_ne by done. by apply IH.
Qed.

Lemma Forall_cells_out L base len a :
  Forall (λ c, ¬ in_range base len c) (cells L) → a ∈ cells L → ¬ in_range base len a.
Proof. intros H Ha. by apply (proj1 (Forall_forall _ _) H). Qed.

Lemma mem_map_Ret s size base rest :
  answers s = base :: rest → base ≠ NULL →
  mem_map size s =
    Ret base (State (zero_fill (mem s) base (Z.to_nat (size / 8)))
                    (basePage s) (nextFree s) (pagesize s)
                    rest ((base, size) :: regions s) (unmaps s)).
Proof. intros Ha Hb. unfold mem_map. rewrite Ha. by rewrite decide_False. Qed.

Lemma mem_map_refused s size :
  hd NULL (answers s) = NULL →
  ∃ s', mem_map size s = Ret NULL s' ∧ mem s' = mem s ∧ nextFree s' = nextFree s ∧
        basePage s' = basePage s ∧ regions s' = regions s ∧ unmaps s' = unmaps s ∧
        pagesize s' = pagesize s ∧ answers s' = tail (answers s).
Proof.
  intros Ha. unfold mem_map. destruct (answers s) as [| a rest] eqn:E.
  - exists s. rewrite E. done.
  - simpl in Ha. rewrite decide_True by done. eexists. split; [done |]. done.
Qed.

Lemma OVERHEAD_eq : OVERHEAD = 16.
Proof. reflexivity. Qed.
Lemma PAGEOVERHEAD_eq : PAGEOVERHEAD = 32.
Proof. reflexivity. Qed.
Lemma MINSIZE_eq : MINSIZE = 16.
Proof. reflexivity. Qed.
Lemma ALIGNMENT_eq : ALIGNMENT = 16.
Proof. reflexivity. Qed.
Lemma sizeof_blockHeader_eq : sizeof_blockHeader = 8.
Proof. reflexivity. Qed.
Lemma sizeof_blockFooter_eq : sizeof_blockFooter = 8.
Proof. reflexivity. Qed.

Ltac consts :=
  unfold HDRP, prev_field, next_field in *;
  rewrite ?OVERHEAD_eq, ?PAGEOVERHEAD_eq, ?MINSIZE_eq, ?ALIGNMENT_eq,
    ?sizeof_blockHeader_eq, ?sizeof_blockFooter_eq in *.

Lemma size_of_17 : size_of (PACK 16 1) = 16.
Proof. reflexivity. Qed.

Lemma extend_exec s size base rest :
  answers s = base :: rest → base ≠ NULL →
  64 <= extend_bytes (pagesize s) size →
  extend_bytes (pagesize s) size mod 16 = 0 →
  (nextFree s ≠ NULL → is_Some (mem s !! nextFree s)) →
  extend size s =
    Ret tt (State (extend_mem (mem s) base (extend_bytes (pagesize s) size) (nextFree s))
                  (if decide (basePage s = NULL) then base else basePage s)
                  (base + 32) (pagesize s) rest
                  ((base, extend_bytes (pagesize s) size) :: regions s) (unmaps s)).
Proof.
  intros Hans Hbase Hlen Hmod Hhd.
  unfold extend_mem.
  set (len := extend_bytes (pagesize s) size) in *.
  assert (Hlen8 : len = 8 * (len / 8)) by lia.
  set (m1 := zero_fill (mem s) base (Z.to_nat (len / 8))).
  assert (Hz : ∀ i, 0 <= i < len / 8 → m1 !! (base + 8 * i) = Some 0).
  { intros i Hi. apply zero_fill_in. lia. }
  pose proof (Hz 1 ltac:(lia)) as H8. pose proof (Hz 2 ltac:(lia)) as H16.
  pose proof (Hz 3 ltac:(lia)) as H24. pose proof (Hz 4 ltac:(lia)) as H32.
  pose proof (Hz 5 ltac:(lia)) as H40.
  pose proof (Hz (len / 8 - 1) ltac:(lia)) as He.
  replace (base + 8 * 1) with (base + 8) in H8 by lia.
  replace (base + 8 * 2) with (base + 16) in H16 by lia.
  replace (base + 8 * 3) with (base + 24) in H24 by lia.
  replace (base + 8 * 4) with (base + 32) in H32 by lia.
  replace (base + 8 * 5) with (base + 40) in H40 by lia.
  replace (base + 8 * (len / 8 - 1)) with (base + len - 8) in He by lia.
  assert (Hhd' : nextFree s ≠ NULL → is_Some (m1 !! nextFree s)).
  { intros H. apply zero_fill_mono. auto. }
  unfold extend. mstep ltac:(reflexivity). cbv zeta.
  fold (extend_bytes (pagesize s) size). fold len.
  mstep ltac:(by apply mem_map_Ret). rewrite decide_False by done.
  consts. change (16 / 2) with 8.
  replace (base + 8 + 8) with (base + 16) by lia.
  replace (base + 8 + 16) with (base + 24) by lia.
  replace (base + 16 + 8) with (base + 24) by lia.
  assert (Hw : wrap (len - 32) = len - 32).
  { apply wrap_small. pose proof (wrap_range ((if decide (size mod pagesize s ≠ 0)
        then PAGEALIGN (pagesize s) size else size) * PAGERATIO)).
    unfold len, extend_bytes in *. lia. }
  rewrite Hw. fold m1.
  mPUT. mPUT. mPUT. mPUT.
  mstep ltac:(apply (FTRP_Ret _ (PACK 16 1)); replace (base + 24 - 8) with (base + 16) by lia; lk).
  rewrite size_of_17. replace (base + 24 + 16 - 16) with (base + 24) by lia.
  mPUT.
  replace (base + 40) with (base + 32 + 8) in H40 by lia.
  mstep ltac:(apply addEFLNode_Ret; st_simpl; intros; repeat (rewrite is_Some_insert); eauto).
  mget. unfold set_basePage, ret. st_simpl. by case_decide.
Qed.

Lemma extend_mem_lookup m base len h a :
  extend_mem m base len h !! a =
    if decide (h ≠ NULL ∧ a = h) then Some (base + 32)
    else if decide (a = base + 40) then Some h
    else if decide (a = base + 32) then Some NULL
    else if decide (a = base + 24) then Some (PACK (len - 32) 0)
    else if decide (a = base + len - 8) then Some (PACK 0 1)
    else if decide (a = base + 16) then Some (PACK OVERHEAD 1)
    else if decide (a = base + 8) then Some (PACK OVERHEAD 1)
    else zero_fill m base (Z.to_nat (len / 8)) !! a.
Proof.
  unfold extend_mem. rewrite link_lookup.
  repeat case_decide; try done; try lia;
    repeat first [ rewrite lookup_insert_same by lia
                 | rewrite lookup_insert_diff by lia ]; done.
Qed.

Lemma hd_cells L : hd NULL L ≠ NULL → hd NULL L ∈ cells L.
Proof.
  intros H. apply elem_of_cells. exists (hd NULL L). split; [| by left].
  by destruct (hd_elem L).
Qed.

Lemma dll_link m L b :
  dll m NULL L → NoDup (cells L) → b ≠ NULL → b ∉ cells L → b + 8 ∉ cells L →
  dll (link m b (hd NULL L)) NULL (b :: L).
Proof.
  intros Hd Hnd Hb0 Hc Hc8. pose proof (hd_cells L) as Hhc.
  simpl. unfold prev_field, next_field.
  split_and!; [done | | |].
  - rewrite link_lookup. rewrite decide_False by (intros [H Heq]; rewrite Heq in Hc; auto).
    rewrite decide_False by lia. by rewrite decide_True.
  - rewrite link_lookup. rewrite decide_False by (intros [H Heq]; rewrite Heq in Hc8; auto).
    by rewrite decide_True.
  - destruct L as [| h L]; [done |]. simpl in *.
    destruct Hd as (Hh0 & Hhp & Hhn & Hd).
    unfold prev_field, next_field in *.
    apply NoDup_cons in Hnd as [Hn1 Hnd]. apply NoDup_cons in Hnd as [Hn2 Hnd].
    split_notin.
    split_and!; [done | | |].
    + rewrite link_lookup. by rewrite decide_True.
    + rewrite link_lookup. rewrite decide_False by lia.
      rewrite decide_False by lia. rewrite decide_False by lia. done.
    + eapply dll_agree; [| done]. intros a Ha. rewrite link_lookup.
      rewrite decide_False by (intros [_ ->]; tauto).
      rewrite decide_False by (intros ->; tauto).
      rewrite decide_False by (intros ->; tauto). done.
Qed.

Lemma extend_Ret s size base rest L :
  answers s = base :: rest → 0 < base → efl s L →
  64 <= extend_bytes (pagesize s) size →
  extend_bytes (pagesize s) size mod 16 = 0 →
  Forall (λ c, ¬ in_range base (extend_bytes (pagesize s) size) c) (cells L) →
  ∃ s', extend size s = Ret tt s' ∧
        efl s' (base + 32 :: L) ∧
        mem s' !! (base + 8) = Some (PACK OVERHEAD 1) ∧
        mem s' !! (base + 16) = Some (PACK OVERHEAD 1) ∧
        mem s' !! (base + 24) = Some (PACK (extend_bytes (pagesize s) size - 32) 0) ∧
        mem s' !! (base + extend_bytes (pagesize s) size - 16) = Some 0 ∧
        mem s' !! (base + extend_bytes (pagesize s) size - 8) = Some (PACK 0 1) ∧
        basePage s' = (if decide (basePage s = NULL) then base else basePage s) ∧
        pagesize s' = pagesize s ∧ answers s' = rest ∧
        regions s' = (base, extend_bytes (pagesize s) size) :: regions s ∧
        unmaps s' = unmaps s ∧
        (∀ a, ¬ in_range base (extend_bytes (pagesize s) size) a → a ∉ cells L →
              mem s' !! a = mem s !! a).
Proof.
  intros Hans Hbase Hefl Hlen Hmod Hout.
  pose proof Hefl as (Hh & Hd & Hnd).
  pose proof (hd_cells L) as Hhc. rewrite <- Hh in Hhc.
  eexists. split.
  { apply extend_exec; try done; [unfold NULL; lia |].
    intros H. eapply dll_mapped; eauto. }
  set (len := extend_bytes (pagesize s) size) in *.
  assert (Hlen8 : len = 8 * (len / 8)) by lia.
  assert (Hzo : ∀ a, ¬ in_range base len a →
                zero_fill (mem s) base (Z.to_nat (len / 8)) !! a = mem s !! a).
  { intros a Ha. apply zero_fill_out. rewrite Z2Nat.id by lia. by rewrite <- Hlen8. }
  assert (Hzi : ∀ i, 0 <= i < len / 8 →
                zero_fill (mem s) base (Z.to_nat (len / 8)) !! (base + 8 * i) = Some 0).
  { intros i Hi. apply zero_fill_in. lia. }
  assert (Hcell : ∀ a, a ∈ cells L → ¬ in_range base len a).
  { intros a Ha. by eapply Forall_cells_out. }
  assert (Hhr : nextFree s ≠ NULL → ¬ in_range base len (nextFree s)) by auto.
  unfold in_range in *.
  st_simpl. split_and!; try done.
  - split_and!; st_simpl; [done | |].
    + unfold extend_mem. rewrite Hh. apply dll_link.
      * eapply dll_agree; [| exact Hd]. intros a Ha. specialize (Hcell a Ha).
        rewrite !lookup_insert_diff by lia. by apply Hzo.
      * done.
      * unfold NULL; lia.
      * intros Ha. specialize (Hcell _ Ha). lia.
      * intros Ha. specialize (Hcell _ Ha). lia.
    + simpl. unfold prev_field, next_field. constructor.
      * rewrite not_elem_of_cons. split; [lia |]. intros Ha. specialize (Hcell _ Ha). lia.
      * constructor; [| done]. intros Ha. specialize (Hcell _ Ha). lia.
  - rewrite extend_mem_lookup. rewrite decide_False by (intros [H ?]; specialize (Hhr H); lia).
    repeat (rewrite decide_False by lia). by rewrite decide_True.
  - rewrite extend_mem_lookup. rewrite decide_False by (intros [H ?]; specialize (Hhr H); lia).
    repeat (rewrite decide_False by lia). by rewrite decide_True.
  - rewrite extend_mem_lookup. rewrite decide_False by (intros [H ?]; specialize (Hhr H); lia).
    repeat (rewrite decide_False by lia). by rewrite decide_True.
  - rewrite extend_mem_lookup. rewrite decide_False by (intros [H ?]; specialize (Hhr H); lia).
    repeat (rewrite decide_False by lia).
    replace (base + len - 16) with (base + 8 * (len / 8 - 2)) by lia. apply Hzi. lia.
  - rewrite extend_mem_lookup. rewrite decide_False by (intros [H ?]; specialize (Hhr H); lia).
    repeat (rewrite decide_False by lia). by rewrite decide_True.
  - intros a Ha Hc. rewrite extend_mem_lookup.
    rewrite decide_False by (intros [H ->]; auto).
    repeat (rewrite decide_False by lia). by apply Hzo.
Qed.

Lemma returns_bind {A B} (c : M A) (k : A → M B) s a s1 Q :
  c s = Ret a s1 → returns (k a) s1 Q → returns (bind c k) s Q.
Proof.
  intros Hc (r & s' & Hk & HQ). exists r, s'. split; [| done].
  by rewrite (bind_Ret _ _ _ _ _ Hc).
Qed.

Lemma returns_Ret {A} (c : M A) s a s' (Q : A → state → Prop) :
  c s = Ret a s' → Q a s' → returns c s Q.
Proof. intros. by exists a, s'. Qed.

Ltac rstep tac := eapply returns_bind; [ tac | cbv beta ].

Lemma apart_not_cell lo hi L a : apart lo hi L → lo <= a < hi → a ∉ cells L.
Proof.
  intros Hap Ha Hin. apply elem_of_cells in Hin as (n & Hn & Hor).
  apply (proj1 (Forall_forall _ _) Hap) in Hn. lia.
Qed.

Lemma mapped_words_lookup m a n x :
  mapped_words m a n → a <= x < a + 8 * n → (x - a) mod 8 = 0 → is_Some (m !! x).
Proof.
  intros Hm Hx Hmod. unfold mapped_words in Hm.
  replace x with (a + 8 * ((x - a) / 8)) by lia.
  apply (proj1 (Forall_forall _ _) Hm). apply elem_of_seqZ. lia.
Qed.

Lemma frame_lookup C s s' a w :
  frame C s s' → a ∉ C → mem s !! a = Some w → mem s' !! a = Some w.
Proof. intros (_ & H & _) Ha Hw. by rewrite H. Qed.

Lemma frame_is_Some C s s' a :
  frame C s s' → is_Some (mem s !! a) → is_Some (mem s' !! a).
Proof. intros (_ & _ & H) Ha. by apply H. Qed.

Lemma same_host_trans s1 s2 s3 : same_host s1 s2 → same_host s2 s3 → same_host s1 s3.
Proof. unfold same_host. intros ? ?. destruct_and!. split_and!; congruence. Qed.

Lemma same_host_with_mem m s : same_host s (with_mem m s).
Proof. done. Qed.

Lemma setAllocated_split s l1 b l2 avail sz :
  efl s (l1 ++ b :: l2) → 0 < b →
  mem s !! (b - 8) = Some (PACK avail 0) →
  size_ok avail → size_ok sz → 32 <= sz → avail - sz >= PAGEOVERHEAD →
  mapped_words (mem s) (b - 8) (avail / 8) →
  apart (b - 8) (b + avail - 8) (l1 ++ l2) →
  returns (setAllocated b sz) s (λ _ s',
        mem s' !! (b - 8) = Some (PACK sz 1) ∧
        mem s' !! (b + sz - 16) = Some (PACK sz 1) ∧
        mem s' !! (b + sz - 8) = Some (PACK (avail - sz) 0) ∧
        mem s' !! (b + avail - 16) = Some (PACK (avail - sz) 0) ∧
        efl s' (b + sz :: l1 ++ l2) ∧
        same_host s s' ∧
        (∀ a, ¬ (b - 8 <= a < b + avail - 8) → a ∉ cells (l1 ++ l2) →
              mem s' !! a = mem s !! a)).
Proof.
  intros Hefl Hb Hhdr Hav Hsz Hsz32 Hsplit Hmap Hap. rewrite PAGEOVERHEAD_eq in Hsplit.
  pose proof Hav as [Hav1 Hav2]. pose proof Hsz as [Hsz1 Hsz2].
  assert (Hrem : size_ok (avail - sz)) by (unfold size_ok; lia).
  assert (Hm : ∀ x, b - 8 <= x < b + avail - 8 → (x - (b - 8)) mod 8 = 0 →
               is_Some (mem s !! x)).
  { intros x Hx Hx8. eapply mapped_words_lookup; [done | lia | done]. }
  assert (Hnc : ∀ a, b - 8 <= a < b + avail - 8 → a ∉ cells (l1 ++ l2)).
  { intros a Ha. by eapply apart_not_cell. }
  assert (Hnc' : ∀ a, b - 8 <= a < b + avail - 8 → a ≠ b → a ≠ b + 8 →
                 a ∉ cells (l1 ++ b :: l2)).
  { intros a Ha H1 H2 Hin. rewrite cells_app in Hin. simpl in Hin.
    unfold prev_field, next_field in Hin.
    rewrite elem_of_app, !elem_of_cons in Hin. apply (Hnc a Ha).
    rewrite cells_app, elem_of_app. tauto. }
  unfold setAllocated. consts.
  rstep ltac:(by apply (GET_SIZE_Ret _ (PACK avail 0))).
  rewrite size_of_PACK by (done || by left).
  rewrite (wrap_small (avail - sz)) by lia. rewrite decide_True by done.
  (* the allocated part *)
  rstep ltac:(apply PUT_Ret; eauto).
  rstep ltac:(apply (FTRP_Ret _ (PACK sz 1)); lk).
  rewrite size_of_PACK by (done || by right).
  rstep ltac:(apply PUT_Ret; st_simpl; rewrite is_Some_insert by eauto; apply Hm; lia).
  (* out of the list *)
  set (s2 := with_mem _ _).
  assert (Hefl2 : efl s2 (l1 ++ b :: l2)).
  { unfold s2. apply efl_PUT; [apply efl_PUT; [done |] |]; apply Hnc'; lia. }
  destruct (removeEFLNode_efl _ _ _ _ Hefl2) as (s3 & Hrm & Hefl3 & Hfr3).
  rstep ltac:(exact Hrm).
  assert (H3hdr : mem s3 !! (b - 8) = Some (PACK sz 1)).
  { eapply frame_lookup; [done | apply Hnc; lia |]. unfold s2. lk. }
  rstep ltac:(by apply (NEXT_BLKP_Ret _ (PACK sz 1))).
  rewrite size_of_PACK by (done || by right).
  (* the remainder *)
  assert (Hs2m : ∀ x, is_Some (mem s2 !! x) ↔ is_Some (mem s !! x)).
  { intros x. unfold s2. st_simpl. rewrite !is_Some_insert; [done | eauto |].
    rewrite is_Some_insert by eauto. apply Hm; lia. }
  assert (Hs3m : ∀ x, b - 8 <= x < b + avail - 8 → (x - (b - 8)) mod 8 = 0 →
                 is_Some (mem s3 !! x)).
  { intros x Hx Hx8. eapply frame_is_Some; [done |]. apply Hs2m. by apply Hm. }
  replace (b + sz - 8) with (b + sz - 8) by lia.
  rstep ltac:(apply PUT_Ret; apply Hs3m; lia).
  rstep ltac:(apply (FTRP_Ret _ (PACK (avail - sz) 0)); lk).
  rewrite size_of_PACK by (done || by left).
  replace (b + sz + (avail - sz) - 16) with (b + avail - 16) by lia.
  rstep ltac:(apply PUT_Ret; st_simpl; rewrite is_Some_insert by (apply Hs3m; lia);
              apply Hs3m; lia).
  set (s5 := with_mem _ _).
  assert (Hefl5 : efl s5 (l1 ++ l2)).
  { unfold s5. apply efl_PUT; [apply efl_PUT; [done |] |]; apply Hnc; lia. }
  assert (Hs5m : ∀ x, is_Some (mem s5 !! x) ↔ is_Some (mem s3 !! x)).
  { intros x. unfold s5. st_simpl. rewrite !is_Some_insert; [done | apply Hs3m; lia |].
    rewrite is_Some_insert by (apply Hs3m; lia). apply Hs3m; lia. }
  destruct (addEFLNode_efl s5 (l1 ++ l2) (b + sz)) as (s6 & Hadd & Hefl6 & Hfr6).
  { done. }
  { unfold NULL. lia. }
  { apply Hs5m, Hs3m; lia. }
  { apply Hs5m, Hs3m; lia. }
  { apply Hnc; lia. }
  { apply Hnc; lia. }
  eapply returns_Ret; [exact Hadd |].
  assert (Hc6 : ∀ a, a ≠ b + sz → a ≠ b + sz + 8 → a ∉ cells (l1 ++ l2) →
                a ∉ cells (b + sz :: l1 ++ l2)).
  { intros a H1 H2 H3. simpl. unfold prev_field, next_field.
    rewrite !not_elem_of_cons. tauto. }
  split_and!.
  - eapply frame_lookup; [done | apply Hc6; [lia | lia | apply Hnc; lia] |].
    unfold s5. lk.
  - eapply frame_lookup; [done | apply Hc6; [lia | lia | apply Hnc; lia] |].
    unfold s5. st_simpl. rewrite !lookup_insert_diff by lia.
    eapply frame_lookup; [done | apply Hnc; lia |]. unfold s2. lk.
  - eapply frame_lookup; [done | apply Hc6; [lia | lia | apply Hnc; lia] |].
    unfold s5. lk.
  - eapply frame_lookup; [done | apply Hc6; [lia | lia | apply Hnc; lia] |].
    unfold s5. lk.
  - done.
  - destruct Hfr3 as (Hh3 & _), Hfr6 as (Hh6 & _).
    eapply same_host_trans; [| exact Hh6]. unfold s5.
    eapply same_host_trans; [| apply same_host_with_mem].
    eapply same_host_trans; [| exact Hh3]. unfold s2. done.
  - intros a Ha Hc.
    destruct Hfr6 as (_ & Hf6 & _). rewrite Hf6 by (apply Hc6; [lia | lia | done]).
    unfold s5. st_simpl. rewrite !lookup_insert_diff by lia.
    destruct Hfr3 as (_ & Hf3 & _). rewrite Hf3 by done.
    unfold s2. st_simpl. by rewrite !lookup_insert_diff by lia.
Qed.

Lemma setAllocated_whole s l1 b l2 avail sz :
  efl s (l1 ++ b :: l2) →
  mem s !! (b - 8) = Some (PACK avail 0) →
  size_ok avail → size_ok sz → 32 <= sz → sz <= avail → ¬ avail - sz >= PAGEOVERHEAD →
  mapped_words (mem s) (b - 8) (avail / 8) →
  apart (b - 8) (b + avail - 8) (l1 ++ l2) →
  returns (setAllocated b sz) s (λ _ s',
        mem s' !! (b - 8) = Some (PACK avail 1) ∧
        mem s' !! (b + avail - 16) = Some (PACK avail 1) ∧
        efl s' (l1 ++ l2) ∧
        same_host s s' ∧
        (∀ a, a ≠ b - 8 → a ≠ b + avail - 16 → a ∉ cells (l1 ++ l2) →
              mem s' !! a = mem s !! a)).
Proof.
  intros Hefl Hhdr Hav Hsz Hsz32 Hle Hsplit Hmap Hap. rewrite PAGEOVERHEAD_eq in Hsplit.
  pose proof Hav as [Hav1 Hav2]. pose proof Hsz as [Hsz1 Hsz2].
  assert (Hm : ∀ x, b - 8 <= x < b + avail - 8 → (x - (b - 8)) mod 8 = 0 →
               is_Some (mem s !! x)).
  { intros x Hx Hx8. eapply mapped_words_lookup; [done | lia | done]. }
  assert (Hnc : ∀ a, b - 8 <= a < b + avail - 8 → a ∉ cells (l1 ++ l2)).
  { intros a Ha. by eapply apart_not_cell. }
  assert (Hnc' : ∀ a, b - 8 <= a < b + avail - 8 → a ≠ b → a ≠ b + 8 →
                 a ∉ cells (l1 ++ b :: l2)).
  { intros a Ha H1 H2 Hin. rewrite cells_app in Hin. simpl in Hin.
    unfold prev_field, next_field in Hin.
    rewrite elem_of_app, !elem_of_cons in Hin. apply (Hnc a Ha).
    rewrite cells_app, elem_of_app. tauto. }
  unfold setAllocated. consts.
  rstep ltac:(by apply (GET_SIZE_Ret _ (PACK avail 0))).
  rewrite size_of_PACK by (done || by left).
  rewrite (wrap_small (avail - sz)) by lia. rewrite decide_False by done.
  rstep ltac:(apply PUT_Ret; eauto).
  rstep ltac:(apply (FTRP_Ret _ (PACK avail 1)); lk).
  rewrite size_of_PACK by (done || by right).
  rstep ltac:(apply PUT_Ret; st_simpl; rewrite is_Some_insert by eauto; apply Hm; lia).
  set (s2 := with_mem _ _).
  assert (Hefl2 : efl s2 (l1 ++ b :: l2)).
  { unfold s2. apply efl_PUT; [apply efl_PUT; [done |] |]; apply Hnc'; lia. }
  destruct (removeEFLNode_efl _ _ _ _ Hefl2) as (s3 & Hrm & Hefl3 & Hfr3).
  eapply returns_Ret; [exact Hrm |].
  split_and!.
  - eapply frame_lookup; [done | apply Hnc; lia |]. unfold s2. lk.
  - eapply frame_lookup; [done | apply Hnc; lia |]. unfold s2. lk.
  - done.
  - destruct Hfr3 as (Hh3 & _). eapply same_host_trans; [| exact Hh3]. done.
  - intros a Ha1 Ha2 Hc. destruct Hfr3 as (_ & Hf3 & _). rewrite Hf3 by done.
    unfold s2. st_simpl. by rewrite !lookup_insert_diff by lia.
Qed.

(** ** [coalesce], case by case *)

Lemma bit_0 : bit 0. Proof. by left. Qed.
Lemma bit_1 : bit 1. Proof. by right. Qed.
#[local] Hint Resolve bit_0 bit_1 : core.

Lemma efl_agree s s' L :
  efl s L → nextFree s' = nextFree s →
  (∀ a, a ∈ cells L → mem s' !! a = mem s !! a) → efl s' L.
Proof.
  intros (Hh & Hd & Hn) Hnf Hag. split_and!; [congruence | | done].
  by eapply dll_agree.
Qed.

(** *** Both neighbours allocated *)
Lemma coalesce_11 s L b sz szP szN :
  efl s L → 0 < b →
  mem s !! (b - 8) = Some (PACK sz 0) →
  mem s !! (b - 16) = Some (PACK szP 1) →
  mem s !! (b - szP - 8) = Some (PACK szP 1) →
  mem s !! (b + sz - 8) = Some (PACK szN 1) →
  size_ok sz → size_ok szP → size_ok szN → 32 <= sz →
  is_Some (mem s !! b) → is_Some (mem s !! (b + 8)) →
  apart (b - 16) (b + sz) L →
  returns (coalesce b) s (λ r s',
    r = b ∧ efl s' (b :: L) ∧ same_host s s' ∧
    (∀ a, is_Some (mem s !! a) → is_Some (mem s' !! a)) ∧
    ∀ a, a ∉ cells (b :: L) → mem s' !! a = mem s !! a).
Proof.
  intros Hefl Hb Hhdr HfP HhP HhN Hsz HszP HszN Hsz32 Hm Hm8 Hap.
  assert (Hnc : ∀ a, b - 16 <= a < b + sz → a ∉ cells L).
  { intros a Ha. by eapply apart_not_cell. }
  unfold coalesce. consts.
  rstep ltac:(by apply (PREV_BLKP_Ret _ (PACK szP 1))). rewrite !size_of_PACK by auto.
  rstep ltac:(by apply (FTRP_Ret _ (PACK szP 1))). rewrite !size_of_PACK by auto.
  replace (b - szP + szP - 16) with (b - 16) by lia.
  rstep ltac:(by apply (GET_ALLOC_Ret _ (PACK szP 1))). rewrite alloc_of_PACK by auto.
  rstep ltac:(by apply (NEXT_BLKP_Ret _ (PACK sz 0))). rewrite !size_of_PACK by auto.
  rstep ltac:(by apply (GET_ALLOC_Ret _ (PACK szN 1))). rewrite alloc_of_PACK by auto.
  rstep ltac:(by apply (GET_SIZE_Ret _ (PACK sz 0))). rewrite !size_of_PACK by auto.
  rewrite decide_True by done.
  destruct (addEFLNode_efl s L b) as (s1 & Hadd & Hefl1 & Hfr1);
    [done | unfold NULL; lia | done | done | apply Hnc; lia | apply Hnc; lia |].
  rstep ltac:(exact Hadd).
  eapply returns_Ret; [reflexivity |].
  destruct Hfr1 as (Hh & Hf & Hd). split_and!; try done. intros a. apply Hd.
Qed.

(** *** Only the successor free *)
Lemma coalesce_10 s l1 l2 b sz szP szN :
  efl s (l1 ++ (b + sz) :: l2) → 0 < b →
  mem s !! (b - 8) = Some (PACK sz 0) →
  mem s !! (b - 16) = Some (PACK szP 1) →
  mem s !! (b - szP - 8) = Some (PACK szP 1) →
  mem s !! (b + sz - 8) = Some (PACK szN 0) →
  size_ok sz → size_ok szP → size_ok szN → 32 <= sz → 32 <= szN →
  sz + szN < 2 ^ 64 →
  is_Some (mem s !! b) → is_Some (mem s !! (b + 8)) →
  is_Some (mem s !! (b + sz + szN - 16)) →
  apart (b - 16) (b + sz + szN) (l1 ++ l2) →
  returns (coalesce b) s (λ r s',
    r = b ∧ efl s' (b :: l1 ++ l2) ∧ same_host s s' ∧
    mem s' !! (b - 8) = Some (PACK (sz + szN) 0) ∧
    mem s' !! (b + (sz + szN) - 16) = Some (PACK (sz + szN) 0) ∧
    (∀ a, is_Some (mem s !! a) → is_Some (mem s' !! a)) ∧
    ∀ a, a ≠ b - 8 → a ≠ b + (sz + szN) - 16 → a ∉ cells (b :: l1 ++ l2) →
         mem s' !! a = mem s !! a).
Proof.
  intros Hefl Hb Hhdr HfP HhP HhN Hsz HszP HszN Hsz32 HszN32 Htot Hm Hm8 HfN Hap.
  assert (Hnc : ∀ a, b - 16 <= a < b + sz + szN → a ∉ cells (l1 ++ l2)).
  { intros a Ha. by eapply apart_not_cell. }
  pose proof Hsz as [? ?]. pose proof HszN as [? ?].
  assert (Hsum : size_ok (sz + szN)) by (unfold size_ok; lia).
  unfold coalesce. consts.
  rstep ltac:(by apply (PREV_BLKP_Ret _ (PACK szP 1))). rewrite !size_of_PACK by auto.
  rstep ltac:(by apply (FTRP_Ret _ (PACK szP 1))). rewrite !size_of_PACK by auto.
  replace (b - szP + szP - 16) with (b - 16) by lia.
  rstep ltac:(by apply (GET_ALLOC_Ret _ (PACK szP 1))). rewrite alloc_of_PACK by auto.
  rstep ltac:(by apply (NEXT_BLKP_Ret _ (PACK sz 0))). rewrite !size_of_PACK by auto.
  rstep ltac:(by apply (GET_ALLOC_Ret _ (PACK szN 0))). rewrite alloc_of_PACK by auto.
  rstep ltac:(by apply (GET_SIZE_Ret _ (PACK sz 0))). rewrite !size_of_PACK by auto.
  rewrite decide_False by (intros [_ ?]; done).
  rewrite decide_True by (split; [done | intros ?; done]).
  rstep ltac:(by apply (NEXT_BLKP_Ret _ (PACK sz 0))). rewrite !size_of_PACK by auto.
  rstep ltac:(by apply (GET_SIZE_Ret _ (PACK szN 0))). rewrite !size_of_PACK by auto.
  rewrite (wrap_small (sz + szN)) by lia.
  rstep ltac:(by apply (NEXT_BLKP_Ret _ (PACK sz 0))). rewrite !size_of_PACK by auto.
  destruct (removeEFLNode_efl _ _ _ _ Hefl) as (s1 & Hrm & Hefl1 & Hfr1).
  rstep ltac:(exact Hrm).
  rstep ltac:(apply PUT_Ret; eapply frame_is_Some; eauto).
  rstep ltac:(apply (FTRP_Ret _ (PACK (sz + szN) 0)); lk). rewrite !size_of_PACK by auto.
  rstep ltac:(apply PUT_Ret; st_simpl; rewrite is_Some_insert by (eapply frame_is_Some; eauto);
              eapply frame_is_Some; [done |];
              by replace (b + (sz + szN) - 16) with (b + sz + szN - 16) by lia).
  set (s3 := with_mem _ _).
  assert (H1m : ∀ x, is_Some (mem s !! x) → is_Some (mem s3 !! x)).
  { intros x Hx. unfold s3. st_simpl.
    assert (is_Some (mem s1 !! x)) by (eapply frame_is_Some; eauto).
    destruct (decide (x = b + (sz + szN) - 16)) as [-> | ?];
      [rewrite lookup_insert_eq; eauto | rewrite lookup_insert_ne by done].
    destruct (decide (x = b - 8)) as [-> | ?];
      [rewrite lookup_insert_eq; eauto | by rewrite lookup_insert_ne by done]. }
  destruct (addEFLNode_efl s3 (l1 ++ l2) b) as (s4 & Hadd & Hefl4 & Hfr4).
  { unfold s3. apply efl_PUT; [apply efl_PUT; [done |] |]; apply Hnc; lia. }
  { unfold NULL; lia. }
  { by apply H1m. }
  { by apply H1m. }
  { apply Hnc; lia. }
  { apply Hnc; lia. }
  rstep ltac:(exact Hadd).
  eapply returns_Ret; [reflexivity |].
  assert (Hc4 : ∀ a, a ≠ b → a ≠ b + 8 → a ∉ cells (l1 ++ l2) → a ∉ cells (b :: l1 ++ l2)).
  { intros a Hx1 Hx2 Hx3. simpl. unfold prev_field, next_field.
    rewrite !not_elem_of_cons. tauto. }
  split_and!.
  - done.
  - done.
  - destruct Hfr1 as (Hh1 & _), Hfr4 as (Hh4 & _).
    eapply same_host_trans; [exact Hh1 |]. eapply same_host_trans; [| exact Hh4]. done.
  - eapply frame_lookup; [done | apply Hc4; [lia | lia | apply Hnc; lia] |]. unfold s3. lk.
  - eapply frame_lookup; [done | apply Hc4; [lia | lia | apply Hnc; lia] |]. unfold s3. lk.
  - intros a Ha. eapply frame_is_Some; [exact Hfr4 |]. by apply H1m.
  - intros a Ha1 Ha2 Hc. destruct Hfr4 as (_ & Hf4 & _). rewrite Hf4 by done.
    unfold s3. st_simpl. rewrite !lookup_insert_diff by lia.
    destruct Hfr1 as (_ & Hf1 & _). apply Hf1.
    intros Hin. apply Hc. simpl. rewrite !elem_of_cons. auto.
Qed.

(** *** Only the predecessor free *)
Lemma coalesce_01 s L b sz szP szN :
  efl s L → b - szP ∈ L →
  mem s !! (b - 8) = Some (PACK sz 0) →
  is_Some (mem s !! (b + sz - 16)) →
  mem s !! (b - 16) = Some (PACK szP 0) →
  mem s !! (b - szP - 8) = Some (PACK szP 0) →
  mem s !! (b + sz - 8) = Some (PACK szN 1) →
  size_ok sz → size_ok szP → size_ok szN → 32 <= sz → 32 <= szP →
  sz + szP < 2 ^ 64 →
  (∀ n, n ∈ L → n ≠ b - szP → n + 16 <= b - szP - 16 ∨ b + sz <= n) →
  returns (coalesce b) s (λ r s',
    r = b - szP ∧ efl s' L ∧ same_host s s' ∧ nextFree s' = nextFree s ∧
    mem s' !! (b - szP - 8) = Some (PACK (sz + szP) 0) ∧
    mem s' !! (b - szP + (sz + szP) - 16) = Some (PACK (sz + szP) 0) ∧
    (∀ a, is_Some (mem s !! a) → is_Some (mem s' !! a)) ∧
    ∀ a, a ≠ b - szP - 8 → a ≠ b + sz - 16 → mem s' !! a = mem s !! a).
Proof.
  intros Hefl HP Hhdr Hftr HfP HhP HhN Hsz HszP HszN Hsz32 HszP32 Htot Hap.
  assert (Hnc : ∀ a, b - szP - 16 <= a < b + sz → a ≠ b - szP → a ≠ b - szP + 8 →
                a ∉ cells L).
  { intros a Ha H1 H2 Hin. apply elem_of_cells in Hin as (n & Hn & Hor).
    destruct (decide (n = b - szP)) as [-> | Hne]; [lia |].
    specialize (Hap n Hn Hne). lia. }
  pose proof Hsz as [? ?]. pose proof HszP as [? ?].
  assert (Hsum : size_ok (sz + szP)) by (unfold size_ok; lia).
  unfold coalesce. consts.
  rstep ltac:(by apply (PREV_BLKP_Ret _ (PACK szP 0))). rewrite !size_of_PACK by auto.
  rstep ltac:(by apply (FTRP_Ret _ (PACK szP 0))). rewrite !size_of_PACK by auto.
  replace (b - szP + szP - 16) with (b - 16) by lia.
  rstep ltac:(by apply (GET_ALLOC_Ret _ (PACK szP 0))). rewrite alloc_of_PACK by auto.
  rstep ltac:(by apply (NEXT_BLKP_Ret _ (PACK sz 0))). rewrite !size_of_PACK by auto.
  rstep ltac:(by apply (GET_ALLOC_Ret _ (PACK szN 1))). rewrite alloc_of_PACK by auto.
  rstep ltac:(by apply (GET_SIZE_Ret _ (PACK sz 0))). rewrite !size_of_PACK by auto.
  rewrite decide_False by (intros [? _]; done).
  rewrite decide_False by (intros [? _]; done).
  rewrite decide_True by (split; [intros ?; done | done]).
  rstep ltac:(by apply (PREV_BLKP_Ret _ (PACK szP 0))). rewrite !size_of_PACK by auto.
  rstep ltac:(by apply (GET_SIZE_Ret _ (PACK szP 0))). rewrite !size_of_PACK by auto.
  rewrite (wrap_small (sz + szP)) by lia.
  rstep ltac:(by apply (FTRP_Ret _ (PACK sz 0))). rewrite !size_of_PACK by auto.
  rstep ltac:(by apply PUT_Ret).
  rstep ltac:(apply (PREV_BLKP_Ret _ (PACK szP 0)); lk). rewrite !size_of_PACK by auto.
  rstep ltac:(apply PUT_Ret; st_simpl; rewrite is_Some_insert by done; eauto).
  rstep ltac:(apply (PREV_BLKP_Ret _ (PACK szP 0)); lk). rewrite !size_of_PACK by auto.
  eapply returns_Ret; [reflexivity |]. st_simpl.
  split_and!; try done.
  - eapply efl_agree; [exact Hefl | done |]. intros a Ha. st_simpl.
    assert (a ≠ b - szP - 8) by (intros ->; revert Ha; apply Hnc; lia).
    assert (a ≠ b + sz - 16) by (intros ->; revert Ha; apply Hnc; lia).
    by rewrite !lookup_insert_diff by lia.
  - lk.
  - lk.
  - intros a Ha. repeat (rewrite is_Some_insert); first [done | by eexists].
  - intros a Hx1 Hx2. by rewrite !lookup_insert_diff by lia.
Qed.


(** ** [mm_free] *)

Lemma mem_unmap_Ret addr size s :
  mem_unmap addr size s =
    Ret tt (State (filter (λ kv, ¬ in_range addr size kv.1) (mem s))
                  (basePage s) (nextFree s) (pagesize s) (answers s)
                  (filter (λ r, r.1 ≠ addr) (regions s))
                  ((addr, size) :: unmaps s)).
Proof. reflexivity. Qed.

Lemma size_of_idem w : size_of (PACK (size_of w) 0) = size_of w.
Proof.
  rewrite PACK_0. unfold size_of. by rewrite <- Z.land_assoc, Z.land_diag.
Qed.

Lemma mm_free_returns s b w sz r s1 sz' wL hL wR l1 l2 :
  mem s !! (b - 8) = Some w → size_of w = sz →
  is_Some (mem s !! (b + sz - 16)) →
  coalesce b (cleared b sz s) = Ret r s1 →
  mem s1 !! (r - 8) = Some (PACK sz' 0) → size_ok sz' →
  mem s1 !! (r - 16) = Some wL →
  mem s1 !! (r - size_of wL - 8) = Some hL →
  mem s1 !! (r + sz' - 8) = Some wR →
  efl s1 (l1 ++ r :: l2) →
  returns (mm_free b) s (λ _ s2,
    if decide (size_of hL = OVERHEAD ∧ size_of wR = 0 ∧
               wrap (r - 2 * OVERHEAD) ≠ basePage s1)
    then ∃ s1', removeEFLNode r s1 = Ret tt s1' ∧ efl s1' (l1 ++ l2) ∧
                frame (cells (l1 ++ l2)) s1 s1' ∧
                mem_unmap (wrap (r - 2 * OVERHEAD)) (wrap (sz' + PAGEOVERHEAD)) s1'
                  = Ret tt s2
    else s2 = s1).
Proof.
  intros Hw Hsz Hf Hco Hr Hsz' HwL HhL HwR Hefl.
  unfold mm_free. consts.
  rstep ltac:(by apply (GET_SIZE_Ret _ w)).
  rstep ltac:(apply PUT_Ret; eauto).
  rstep ltac:(apply (FTRP_Ret _ (PACK (size_of w) 0)); lk).
  rewrite size_of_idem, Hsz.
  rstep ltac:(apply PUT_Ret; st_simpl; by rewrite is_Some_insert by (by eexists)).
  rstep ltac:(exact Hco).
  rstep ltac:(by apply (GET_SIZE_Ret _ (PACK sz' 0))). rewrite size_of_PACK by auto.
  rstep ltac:(by apply (PREV_BLKP_Ret _ wL)).
  rstep ltac:(by apply (GET_SIZE_Ret _ hL)).
  destruct (decide (size_of hL = 16)) as [HhL16 | HhL16].
  - rstep ltac:(by apply (NEXT_BLKP_Ret _ (PACK sz' 0))). rewrite size_of_PACK by auto.
    rstep ltac:(by apply (GET_SIZE_Ret _ wR)).
    destruct (decide (size_of wR = 0)) as [HwR0 | HwR0].
    + rstep ltac:(reflexivity).
      destruct (decide (wrap (r - 2 * 16) = basePage s1)) as [Hbase | Hbase].
      * eapply returns_Ret; [reflexivity |]. by rewrite decide_False by tauto.
      * destruct (removeEFLNode_efl _ _ _ _ Hefl) as (s1' & Hrm & Hefl' & Hfr').
        rstep ltac:(exact Hrm).
        eapply returns_Ret; [apply mem_unmap_Ret |].
        rewrite decide_True by done. exists s1'. done.
    + eapply returns_Ret; [reflexivity |]. by rewrite decide_False by tauto.
  - eapply returns_Ret; [reflexivity |]. by rewrite decide_False by tauto.
Qed.



Lemma cleared_lookup b sz s a :
  mem (cleared b sz s) !! a =
    if decide (a = b + sz - 16) then Some (PACK sz 0)
    else if decide (a = b - 8) then Some (PACK sz 0)
    else mem s !! a.
Proof.
  unfold cleared. st_simpl. repeat case_decide;
    repeat first [ rewrite lookup_insert_same by lia
                 | rewrite lookup_insert_diff by lia ]; done.
Qed.

Lemma cleared_other b sz s a w :
  mem s !! a = Some w → a ≠ b + sz - 16 → a ≠ b - 8 →
  mem (cleared b sz s) !! a = Some w.
Proof. intros. rewrite cleared_lookup. by rewrite !decide_False by done. Qed.

Lemma cleared_is_Some b sz s a :
  is_Some (mem s !! (b - 8)) → is_Some (mem s !! (b + sz - 16)) →
  is_Some (mem s !! a) → is_Some (mem (cleared b sz s) !! a).
Proof.
  intros H1 H2 Ha. rewrite cleared_lookup. repeat case_decide; eauto.
Qed.

Lemma cleared_efl b sz s L :
  efl s L → b - 8 ∉ cells L → b + sz - 16 ∉ cells L → efl (cleared b sz s) L.
Proof.
  intros Hefl H1 H2. eapply efl_agree; [exact Hefl | done |].
  intros a Ha. rewrite cleared_lookup.
  rewrite !decide_False; [done | by intros -> | by intros ->].
Qed.





Lemma returns_mono {A} (c : M A) s (Q Q' : A → state → Prop) :
  returns c s Q → (∀ a s', Q a s' → Q' a s') → returns c s Q'.
Proof. intros (a & s' & Hc & HQ) H. exists a, s'. auto. Qed.





Lemma unmap_lookup_out (m : gmap Z Z) addr size a :
  ¬ in_range addr size a →
  filter (λ kv : Z * Z, ¬ in_range addr size kv.1) m !! a = m !! a.
Proof.
  intros Ha. destruct (m !! a) as [w |] eqn:E.
  - by apply map_lookup_filter_Some_2.
  - apply map_lookup_filter_None_2. by left.
Qed.

Lemma unmap_lookup_in (m : gmap Z Z) addr size a :
  in_range addr size a →
  filter (λ kv : Z * Z, ¬ in_range addr size kv.1) m !! a = None.
Proof.
  intros Ha. apply map_lookup_filter_None_2. right. intros x _ Hn. by apply Hn.
Qed.


(** ** Computations that leave the page provider alone *)

Lemma same_host_refl s : same_host s s.
Proof. done. Qed.

Lemma host_stable_ret {A} (a : A) : host_stable (ret a).
Proof. intros s a' s' [= _ <-]. done. Qed.

Lemma host_stable_bind {A B} (c : M A) (k : A → M B) :
  host_stable c → (∀ a, host_stable (k a)) → host_stable (bind c k).
Proof.
  intros Hc Hk s b s'. unfold bind. destruct (c s) as [a s1 | |] eqn:E; [| done | done].
  intros Hka. eapply same_host_trans; [by eapply Hc | by eapply Hk].
Qed.

Lemma host_stable_GET p : host_stable (GET p).
Proof. intros s a s'. unfold GET. destruct (mem s !! p); [| done]. by intros [= _ <-]. Qed.

Lemma host_stable_PUT p v : host_stable (PUT p v).
Proof. intros s a s'. unfold PUT. destruct (mem s !! p); [| done]. by intros [= _ <-]. Qed.

Lemma host_stable_get_nextFree : host_stable get_nextFree.
Proof. by intros s a s' [= _ <-]. Qed.

Lemma host_stable_set_nextFree p : host_stable (set_nextFree p).
Proof. by intros s a s' [= _ <-]. Qed.

Ltac host_stable_tac :=
  repeat first
    [ apply host_stable_ret
    | apply host_stable_GET
    | apply host_stable_PUT
    | apply host_stable_get_nextFree
    | apply host_stable_set_nextFree
    | apply host_stable_bind; [| intros ?]
    | case_decide
    | progress cbv zeta
    | match goal with |- host_stable (if ?b then _ else _) => destruct b end ].

Lemma host_stable_addEFLNode p : host_stable (addEFLNode p).
Proof. unfold addEFLNode. host_stable_tac. Qed.

Lemma host_stable_removeEFLNode p : host_stable (removeEFLNode p).
Proof. unfold removeEFLNode. host_stable_tac. Qed.

Lemma host_stable_coalesce bp : host_stable (coalesce bp).
Proof. unfold coalesce, addEFLNode, removeEFLNode. host_stable_tac. Qed.

Lemma host_stable_setAllocated bp size : host_stable (setAllocated bp size).
Proof. unfold setAllocated, addEFLNode, removeEFLNode. host_stable_tac. Qed.

(** ** [setAllocated]: the split policy *)

(** C4 (amended).  [setAllocated] on a block [b] of the EFL, of size [avail],
    with an aligned request [sz], [32 <= sz <= avail] (32 is
    [MINSIZE + OVERHEAD], the least size [mm_malloc] computes when nothing
    wraps): when [avail - sz >= PAGEOVERHEAD] header and
    footer of [b] become [(sz, 1)], [b] leaves the EFL, and a free block of size
    [avail - sz] is written at [b + sz] and pushed onto the EFL; otherwise
    header and footer become [(avail, 1)], [b] leaves the EFL and nothing else
    changes, so no block is created. *)
Theorem setAllocated_split_policy s l1 b l2 avail sz :
  efl s (l1 ++ b :: l2) → 0 < b →
  mem s !! (b - 8) = Some (PACK avail 0) →
  size_ok avail → size_ok sz → 32 <= sz → sz <= avail →
  mapped_words (mem s) (b - 8) (avail / 8) →
  apart (b - 8) (b + avail - 8) (l1 ++ l2) →
  returns (setAllocated b sz) s (λ _ s',
    (b ∉ l1 ++ l2) ∧ same_host s s' ∧
    if decide (avail - sz >= PAGEOVERHEAD) then
      mem s' !! (b - 8) = Some (PACK sz 1) ∧
      mem s' !! (b + sz - 16) = Some (PACK sz 1) ∧
      efl s' (b + sz :: l1 ++ l2) ∧
      mem s' !! (b + sz - 8) = Some (PACK (avail - sz) 0) ∧
      mem s' !! (b + sz + (avail - sz) - 16) = Some (PACK (avail - sz) 0)
    else
      mem s' !! (b - 8) = Some (PACK avail 1) ∧
      mem s' !! (b + avail - 16) = Some (PACK avail 1) ∧
      efl s' (l1 ++ l2) ∧
      ∀ a, a ≠ b - 8 → a ≠ b + avail - 16 → a ∉ cells (l1 ++ l2) →
           mem s' !! a = mem s !! a).
Proof.
  intros Hefl Hb Hhdr Hav Hsz Hsz32 Hle Hmap Hap.
  assert (Hnin : b ∉ l1 ++ l2).
  { apply efl_nodes_NoDup in Hefl.
    apply NoDup_app in Hefl as (_ & H1 & [H2 _]%NoDup_cons).
    rewrite elem_of_app. intros [Hin | Hin]; [| done].
    apply (H1 _ Hin). apply elem_of_cons. auto. }
  destruct (decide (avail - sz >= PAGEOVERHEAD)) as [Hs | Hs].
  - eapply returns_mono; [by apply (setAllocated_split s l1 b l2 avail sz) |].
    intros _ s' (H1 & H2 & H3 & H4 & H5 & H6 & _). cbv beta.
    replace (b + sz + (avail - sz) - 16) with (b + avail - 16) by lia. done.
  - eapply returns_mono; [by apply (setAllocated_whole s l1 b l2 avail sz) |].
    intros _ s' (H1 & H2 & H3 & H4 & H5). done.
Qed.

(** ** [mm_free]: returning an empty region *)

(** C5.  A release whose coalesced block [r] (size [sz']) has the prologue
    before it and the epilogue after it: the base of the region is
    [r - 2 * OVERHEAD]; when this is [basePage] nothing further happens;
    otherwise [r] leaves the EFL and exactly one [mem_unmap] is issued, for
    [sz' + PAGEOVERHEAD] bytes at that base, and this is the length [len] the
    region was mapped with when the epilogue is its last word. *)
Theorem release_unmaps_empty_region s b w sz r s1 sz' wL hL wR l1 l2 len :
  mem s !! (b - 8) = Some w → size_of w = sz →
  is_Some (mem s !! (b + sz - 16)) →
  coalesce b (cleared b sz s) = Ret r s1 →
  mem s1 !! (r - 8) = Some (PACK sz' 0) → size_ok sz' →
  mem s1 !! (r - 16) = Some wL →
  mem s1 !! (r - size_of wL - 8) = Some hL → size_of hL = OVERHEAD →
  mem s1 !! (r + sz' - 8) = Some wR → size_of wR = 0 →
  efl s1 (l1 ++ r :: l2) →
  2 * OVERHEAD <= r < 2 ^ 64 → sz' + PAGEOVERHEAD < 2 ^ 64 →
  apart (r - 2 * OVERHEAD) (r + sz') (l1 ++ l2) →
  (r - 2 * OVERHEAD, len) ∈ regions s1 →
  r + sz' - 8 = r - 2 * OVERHEAD + len - sizeof_blockFooter →
  returns (mm_free b) s (λ _ s2,
    if decide (r - 2 * OVERHEAD = basePage s1) then s2 = s1
    else
      efl s2 (l1 ++ l2) ∧ (r ∉ l1 ++ l2) ∧
      unmaps s2 = (r - 2 * OVERHEAD, len) :: unmaps s ∧
      (∀ x, (r - 2 * OVERHEAD, x) ∉ regions s2) ∧
      (∀ a, in_range (r - 2 * OVERHEAD) len a → mem s2 !! a = None) ∧
      basePage s2 = basePage s1).
Proof.
  intros Hw Hsz Hf Hco Hr Hsz' HwL HhL HhL16 HwR HwR0 Hefl Hrng Hlen Hap Hreg Hepi.
  pose proof (host_stable_coalesce _ _ _ _ Hco) as (_ & _ & _ & _ & Hun1).
  assert (Hnin : r ∉ l1 ++ l2).
  { pose proof (efl_nodes_NoDup _ _ Hefl) as Hnd.
    apply NoDup_app in Hnd as (_ & H1 & [H2 _]%NoDup_cons).
    rewrite elem_of_app. intros [Hin | Hin]; [| done].
    apply (H1 _ Hin). apply elem_of_cons. auto. }
  eapply returns_mono; [by eapply (mm_free_returns s b w sz r s1 sz' wL hL wR l1 l2) |].
  intros [] s2 Hpost. cbv beta in Hpost. consts.
  assert (Hwr : wrap (r - 2 * 16) = r - 2 * 16) by (apply wrap_small; lia).
  assert (Hwl : wrap (sz' + 32) = sz' + 32).
  { apply wrap_small. destruct Hsz'. lia. }
  rewrite Hwr, Hwl in Hpost.
  destruct (decide (r - 2 * 16 = basePage s1)) as [Hbase | Hbase].
  - by rewrite decide_False in Hpost by tauto.
  - rewrite decide_True in Hpost by done.
    destruct Hpost as (s1' & Hrm & Hefl' & (Hh' & Hfr' & _) & Hum).
    rewrite mem_unmap_Ret in Hum. injection Hum as <-.
    destruct Hh' as (Hbp' & _ & _ & Hrg' & Hun').
    assert (Hlen' : sz' + 32 = len) by lia.
    split_and!; st_simpl.
    + eapply efl_agree; [exact Hefl' | done |]. intros a Ha. st_simpl.
      apply unmap_lookup_out. unfold in_range.
      apply elem_of_cells in Ha as (n & Hn & Hor).
      apply (proj1 (Forall_forall _ _) Hap) in Hn. lia.
    + done.
    + by rewrite Hun', Hun1, Hlen'.
    + intros x Hx. apply list_elem_of_filter in Hx as [Hx _]. by apply Hx.
    + intros a Ha. apply unmap_lookup_in. by rewrite Hlen'.
    + done.
Qed.

(** ** [extend] and [mm_init] *)

Lemma efl_nil s : nextFree s = NULL → efl s [].
Proof. intros H. split_and!; [done | done | constructor]. Qed.

Lemma extend_refused s size :
  hd NULL (answers s) = NULL →
  returns (extend size) s (λ _ s',
    mem s' = mem s ∧ nextFree s' = nextFree s ∧ basePage s' = basePage s ∧
    regions s' = regions s ∧ unmaps s' = unmaps s ∧ pagesize s' = pagesize s ∧
    answers s' = tail (answers s)).
Proof.
  intros Ha. unfold extend. rstep ltac:(reflexivity). cbv zeta.
  destruct (mem_map_refused s
    (wrap ((if decide (size mod pagesize s ≠ 0) then PAGEALIGN (pagesize s) size
            else size) * PAGERATIO)) Ha) as (s' & Hm & Hs').
  rstep ltac:(exact Hm). rewrite decide_True by done.
  eapply returns_Ret; [reflexivity |]. done.
Qed.

(** C6 (amended).  In a region of [len] bytes that [extend] has mapped at
    [base] and laid out, the interior block, at [base + PAGEOVERHEAD], is free,
    is the head of the EFL, and its header records the size
    [len - PAGEOVERHEAD], that is [len - 32]. *)
Theorem extend_interior_block s size base rest L len :
  answers s = base :: rest → 0 < base → efl s L →
  len = extend_bytes (pagesize s) size →
  64 <= len → len mod 16 = 0 →
  Forall (λ c, ¬ in_range base len c) (cells L) →
  returns (extend size) s (λ _ s',
    regions s' = (base, len) :: regions s ∧
    efl s' (base + PAGEOVERHEAD :: L) ∧
    ∃ w, mem s' !! HDRP (base + PAGEOVERHEAD) = Some w ∧
         alloc_of w = 0 ∧ size_of w = len - PAGEOVERHEAD ∧
         len - PAGEOVERHEAD = len - 32).
Proof.
  intros Hans Hbase Hefl -> Hlen Hmod Hout.
  destruct (extend_Ret s size base rest L) as (s' & Hex & Hefl' & _ & _ & Hh & _ & _ & _ & _ & _ & Hrg & _);
    try done.
  eapply returns_Ret; [exact Hex |]. consts.
  pose proof (wrap_range ((if decide (size mod pagesize s ≠ 0)
    then PAGEALIGN (pagesize s) size else size) * PAGERATIO)) as Hr.
  fold (extend_bytes (pagesize s) size) in Hr.
  assert (Hok : size_ok (extend_bytes (pagesize s) size - 32)) by (unfold size_ok; lia).
  split_and!; [done | done |].
  exists (PACK (extend_bytes (pagesize s) size - 32) 0).
  replace (base + 32 - 8) with (base + 24) by lia.
  split_and!; [done | by apply alloc_of_PACK | by apply size_of_PACK | done].
Qed.

Lemma mm_init_fresh s base rest :
  answers s = base :: rest → 0 < base →
  64 <= extend_bytes (pagesize s) (pagesize s) →
  extend_bytes (pagesize s) (pagesize s) mod 16 = 0 →
  returns mm_init s (λ r s',
    r = 0 ∧ efl s' [base + 32] ∧ basePage s' = base ∧
    unmaps s' = unmaps s ∧ answers s' = rest ∧ pagesize s' = pagesize s ∧
    regions s' = (base, extend_bytes (pagesize s) (pagesize s)) :: regions s ∧
    mem s' !! (base + 24) = Some (PACK (extend_bytes (pagesize s) (pagesize s) - 32) 0) ∧
    mem s' !! (base + extend_bytes (pagesize s) (pagesize s) - 16) = Some 0 ∧
    (∀ a, ¬ in_range base (extend_bytes (pagesize s) (pagesize s)) a →
          mem s' !! a = mem s !! a)).
Proof.
  intros Hans Hbase Hlen Hmod. unfold mm_init.
  rstep ltac:(reflexivity). rstep ltac:(reflexivity). rstep ltac:(reflexivity).
  set (s0 := with_basePage NULL (with_nextFree NULL s)).
  destruct (extend_Ret s0 (pagesize s) base rest []) as
    (s' & Hex & Hefl' & _ & _ & Hh & Hf & _ & Hbp & Hps & Han & Hrg & Hun & Hfr);
    first [done | by apply efl_nil | apply Forall_nil_2 | exact Hlen | exact Hmod | idtac].
  change (pagesize s0) with (pagesize s) in *.
  change (pagesize (with_basePage NULL (with_nextFree NULL s))) with (pagesize s).
  rstep ltac:(exact Hex).
  eapply returns_Ret; [reflexivity |].
  split_and!; try done.
  intros a Ha. rewrite Hfr; [done | done |]. simpl. apply not_elem_of_nil.
Qed.

(** C10.  [mm_init] called in any state, whatever has been mapped before, on a
    provider that grants the map: the EFL is reset and holds only the block of
    the fresh region, [basePage] is the fresh region, no [mem_unmap] is issued,
    the regions mapped before are still mapped, and no word outside the fresh
    region has changed. *)
Theorem mm_init_again s base rest len :
  answers s = base :: rest → 0 < base →
  len = extend_bytes (pagesize s) (pagesize s) →
  64 <= len → len mod 16 = 0 →
  returns mm_init s (λ r s',
    r = 0 ∧
    efl s' [base + PAGEOVERHEAD] ∧ basePage s' = base ∧
    unmaps s' = unmaps s ∧
    regions s' = (base, len) :: regions s ∧
    (∀ a, ¬ in_range base len a → mem s' !! a = mem s !! a)).
Proof.
  intros Hans Hbase -> Hlen Hmod.
  eapply returns_mono; [by eapply mm_init_fresh |].
  intros r s' (? & ? & ? & ? & ? & ? & ? & ? & ? & ?). done.
Qed.

(** C7.  On a provider that refuses the map, [mm_init] still returns 0, the
    success status, with no region mapped and both globals [NULL]. *)
Theorem mm_init_refused s :
  hd NULL (answers s) = NULL →
  returns mm_init s (λ r s',
    r = 0 ∧ nextFree s' = NULL ∧ basePage s' = NULL ∧
    regions s' = regions s ∧ mem s' = mem s).
Proof.
  intros Ha. unfold mm_init.
  rstep ltac:(reflexivity). rstep ltac:(reflexivity). rstep ltac:(reflexivity).
  destruct (extend_refused (with_basePage NULL (with_nextFree NULL s))
              (pagesize (with_basePage NULL (with_nextFree NULL s))) Ha)
    as ([] & s' & Hex & Hm & Hn & Hb & Hr & _).
  rstep ltac:(exact Hex). eapply returns_Ret; [reflexivity |]. done.
Qed.

(** ** [mm_malloc] *)

Lemma mm_malloc_unfold fuel size :
  mm_malloc (S fuel) size =
    if decide (size = 0) then ret NULL
    else
      let size1 := if decide (size <= MINSIZE) then MINSIZE else size in
      avail <- get_nextFree ;;
      found <- mm_malloc_walk fuel (sizeAlign_of size) avail ;;
      match found with
      | Some p => ret p
      | None => extend (sizeAlign_of size) ;;; mm_malloc fuel size1
      end.
Proof. reflexivity. Qed.

Lemma mm_malloc_walk_unfold fuel sizeAlign avail :
  mm_malloc_walk (S fuel) sizeAlign avail =
    if decide (avail ≠ NULL) then
      sz <- GET_SIZE (HDRP avail) ;;
      if decide (sz >= sizeAlign) then
        setAllocated avail sizeAlign ;;; ret (Some avail)
      else
        nx <- GET (next_field avail) ;;
        mm_malloc_walk fuel sizeAlign nx
    else ret None.
Proof. reflexivity. Qed.

Lemma sizeAlign_of_needed n :
  0 < n → n + 31 < 2 ^ 64 → sizeAlign_of n = needed n.
Proof.
  intros Hn Hb. unfold sizeAlign_of, needed, align_up. consts.
  assert (Hm : (if decide (n <= 16) then 16 else n) = Z.max n 16) by (case_decide; lia).
  rewrite Hm. rewrite wrap_small by lia. rewrite ALIGN_div by lia.
  f_equal. f_equal. lia.
Qed.

Lemma sizeAlign_of_clamp n :
  sizeAlign_of (if decide (n <= MINSIZE) then MINSIZE else n) = sizeAlign_of n.
Proof. unfold sizeAlign_of. consts. repeat case_decide; try done; lia. Qed.

(** The walk skips the blocks that are too small and stops at the first one
    that is large enough. *)
Lemma mm_malloc_walk_first_fit s la b lb sz p fuel :
  dll (mem s) p (la ++ b :: lb) →
  Forall (λ n, ∃ w, mem s !! (n - 8) = Some w ∧ size_of w < sz) la →
  (∃ w, mem s !! (b - 8) = Some w ∧ size_of w >= sz) →
  (length la < fuel)%nat →
  mm_malloc_walk fuel sz (hd NULL (la ++ b :: lb)) s
    = (setAllocated b sz ;;; ret (Some b)) s.
Proof.
  revert p fuel. induction la as [| x la IH]; intros p fuel Hd Hsmall Hfit Hfuel.
  - destruct fuel as [| fuel]; [simpl in Hfuel; lia |].
    simpl in Hd. destruct Hd as (Hb0 & _). destruct Hfit as (w & Hw & Hsz).
    rewrite mm_malloc_walk_unfold. simpl hd. rewrite decide_True by done.
    unfold HDRP, sizeof_blockHeader.
    rewrite (bind_Ret _ _ _ _ _ (GET_SIZE_Ret _ _ _ Hw)).
    by rewrite decide_True.
  - destruct fuel as [| fuel]; [simpl in Hfuel; lia |].
    simpl in Hd. destruct Hd as (Hx0 & _ & Hnx & Hd).
    apply Forall_cons in Hsmall as [(w & Hw & Hsz) Hsmall].
    rewrite mm_malloc_walk_unfold. simpl hd. rewrite decide_True by done.
    unfold HDRP, sizeof_blockHeader.
    rewrite (bind_Ret _ _ _ _ _ (GET_SIZE_Ret _ _ _ Hw)).
    rewrite decide_False by lia.
    rewrite (bind_Ret _ _ _ _ _ (GET_Ret _ _ _ Hnx)).
    eapply IH; eauto. simpl in Hfuel. lia.
Qed.


Lemma mm_malloc_walk_all_small s L sz p fuel :
  dll (mem s) p L → Forall (too_small s sz) L →
  mm_malloc_walk fuel sz (hd NULL L) s
    = if decide (length L < fuel)%nat then Ret None s else OutOfFuel.
Proof.
  revert p fuel. induction L as [| x L IH]; intros p fuel Hd Hsmall.
  - destruct fuel as [| fuel]; [done |].
    rewrite mm_malloc_walk_unfold. simpl hd. rewrite decide_False by (intros H; by apply H).
    by rewrite decide_True by (simpl; lia).
  - destruct fuel as [| fuel]; [done |].
    simpl in Hd. destruct Hd as (Hx0 & _ & Hnx & Hd).
    apply Forall_cons in Hsmall as [(w & Hw & Hsz) Hsmall].
    rewrite mm_malloc_walk_unfold. simpl hd. rewrite decide_True by done.
    unfold HDRP, sizeof_blockHeader.
    rewrite (bind_Ret _ _ _ _ _ (GET_SIZE_Ret _ _ _ Hw)).
    rewrite decide_False by lia.
    rewrite (bind_Ret _ _ _ _ _ (GET_Ret _ _ _ Hnx)).
    rewrite (IH x fuel Hd Hsmall). simpl length.
    repeat case_decide; try done; lia.
Qed.

Lemma extend_exhausted s size : answers s = [] → extend size s = Ret tt s.
Proof.
  intros Ha. unfold extend, bind, mem_pagesize, mem_map. rewrite Ha.
  by rewrite decide_True.
Qed.

(** C2.  When no block of the EFL is large enough for the request and the
    provider refuses every [mem_map], [mm_malloc] does not return: whatever the
    fuel, the recursion [extend]; [mm_malloc] uses it up.  In particular it does
    not return [NULL]. *)
Theorem mm_malloc_map_refused s L n :
  n ≠ 0 → answers s = [] → efl s L →
  Forall (too_small s (sizeAlign_of n)) L →
  ∀ fuel, mm_malloc fuel n s = OutOfFuel.
Proof.
  intros Hn Ha (Hh & Hd & _) Hsmall fuel. revert n Hn Hsmall.
  induction fuel as [| fuel IH]; intros n Hn Hsmall; [done |].
  rewrite mm_malloc_unfold, decide_False by done. cbv zeta.
  unfold bind at 1, get_nextFree. unfold bind at 1. rewrite Hh.
  rewrite (mm_malloc_walk_all_small s L _ NULL fuel Hd Hsmall).
  case_decide; [| done].
  unfold bind. rewrite extend_exhausted by done.
  apply IH.
  - consts. case_decide; lia.
  - by rewrite sizeAlign_of_clamp.
Qed.

(** C1.  After [mm_init] on a provider that grants a fresh region, the header
    of the interior block records its size, but the word [FTRP] designates as
    its footer was never written and still holds 0. *)
Theorem mm_init_footer_unwritten s base rest len :
  answers s = base :: rest → 0 < base →
  len = extend_bytes (pagesize s) (pagesize s) →
  64 <= len → len mod 16 = 0 →
  returns mm_init s (λ _ s',
    nextFree s' = base + PAGEOVERHEAD ∧
    returns (FTRP (base + PAGEOVERHEAD)) s' (λ f _,
      mem s' !! HDRP (base + PAGEOVERHEAD) = Some (PACK (len - PAGEOVERHEAD) 0) ∧
      mem s' !! f = Some 0 ∧
      PACK (len - PAGEOVERHEAD) 0 ≠ 0)).
Proof.
  intros Hans Hbase -> Hlen Hmod.
  eapply returns_mono; [by eapply mm_init_fresh |].
  intros r s' (_ & (Hnf & _) & _ & _ & _ & _ & _ & Hh & Hf & _). cbv beta. consts.
  split; [done |].
  pose proof (wrap_range ((if decide (pagesize s mod pagesize s ≠ 0)
    then PAGEALIGN (pagesize s) (pagesize s) else pagesize s) * PAGERATIO)) as Hr.
  fold (extend_bytes (pagesize s) (pagesize s)) in Hr.
  set (len := extend_bytes (pagesize s) (pagesize s)) in *.
  assert (Hok : size_ok (len - 32)) by (unfold size_ok; lia).
  replace (base + 32 - 8) with (base + 24) by lia.
  eapply returns_Ret.
  { apply (FTRP_Ret _ (PACK (len - 32) 0)).
    by replace (base + 32 - 8) with (base + 24) by lia. }
  rewrite size_of_PACK by auto.
  replace (base + 32 + (len - 32) - 16) with (base + len - 16) by lia.
  split_and!; [done | done |]. rewrite PACK_0. lia.
Qed.

(** ** The seed scenarios, evaluated *)

Lemma result_final {A} (c : M A) s a :
  result c s = Some a → c s = Ret a (final c s).
Proof. unfold result, final. destruct (c s); [| done | done]. by intros [= ->]. Qed.

Lemma returns_final {A} (c : M A) s a (Q : A → state → Prop) :
  result c s = Some a → Q a (final c s) → returns c s Q.
Proof. intros H HQ. exists a, (final c s). split; [by apply result_final | done]. Qed.

(** Goals about the concrete states are settled by evaluation. *)
Ltac by_run := vm_compute; reflexivity.
Ltac some_run := eexists; vm_compute; reflexivity.
Ltac dec_run :=
  match goal with
  | |- ?P => apply (bool_decide_unpack P); vm_compute; exact I
  end.
Ltac size_run := split; [lia | reflexivity].
Ltac run1 :=
  match goal with
  | |- True => exact I
  | |- _ ≠ NULL => discriminate
  | |- nextFree _ = _ => by_run
  | |- _ !! _ = Some _ => by_run
  | |- is_Some _ => some_run
  | |- size_ok _ => size_run
  | |- bit 0 => by left
  | |- bit 1 => by right
  | |- NoDup _ => dec_run
  | |- apart _ _ _ => dec_run
  | |- mapped_words _ _ _ => dec_run
  | |- _ ↔ _ => dec_run
  | |- 1 = 0 → _ => let H := fresh in intros H; discriminate H
  | |- 0 = 0 → _ ∧ _ => intros _; split; run1
  | |- 0 = 0 → ∃ _, _ ∧ _ ∧ _ => intros _; eexists; split; [run1 | split; run1]
  | |- 0 = 0 → ∃ _, _ ∧ _ => intros _; eexists; split; run1
  | |- 0 = 0 → _ => intros _; run1
  | |- alloc_of _ = _ => by_run
  | |- _ => lia
  end.
Ltac efl_run :=
  unfold efl; cbn [dll hd cells app];
  repeat match goal with |- _ ∧ _ => split end; run1.








(** Witness of C4: on the block that [mm_init] creates, a request of 48 bytes
    splits and a request of the whole block does not. *)
Lemma setAllocated_split_policy_witness :
  returns (setAllocated 65568 48) st_init (λ _ s',
    efl s' [65616] ∧ mem s' !! 65560 = Some (PACK 48 1) ∧
    mem s' !! 65608 = Some (PACK 40880 0)) ∧
  returns (setAllocated 65568 40928) st_init (λ _ s',
    efl s' [] ∧ mem s' !! 65560 = Some (PACK 40928 1)).
Proof.
  split.
  - eapply returns_mono.
    { apply (setAllocated_split_policy st_init [] 65568 [] 40928 48);
        first [ efl_run | run1 ]. }
    intros [] s' (_ & _ & Hpost). cbv beta in Hpost.
    rewrite decide_True in Hpost by (unfold PAGEOVERHEAD, sizeof_blockHeader, sizeof_blockFooter; lia).
    destruct Hpost as (H1 & _ & H2 & H3 & _). split_and!; [exact H2 | exact H1 | exact H3].
  - eapply returns_mono.
    { apply (setAllocated_split_policy st_init [] 65568 [] 40928 40928);
        first [ efl_run | run1 ]. }
    intros [] s' (_ & _ & Hpost). cbv beta in Hpost.
    rewrite decide_False in Hpost by (unfold PAGEOVERHEAD, sizeof_blockHeader, sizeof_blockFooter; lia).
    destruct Hpost as (H1 & _ & H2 & _). split; [exact H2 | exact H1].
Defined.

(** Counterexample to C4 as stated: on the block [mm_init] creates, free, of
    40928 bytes and the head of the EFL, the request 0 is aligned and not above
    the size available, and the difference is at least [PAGEOVERHEAD]; yet the
    block is not left with header [(0, 1)] and off the EFL: it is still free
    with its full size and still the head of the EFL, and the footer of the
    prologue has been overwritten with [(0, 1)].  The request 16 faults. *)
Lemma setAllocated_below_minimum :
  mem st_init !! HDRP 65568 = Some (PACK 40928 0) ∧ nextFree st_init = 65568 ∧
  0 mod ALIGNMENT = 0 ∧ 0 <= 40928 ∧ 40928 - 0 >= PAGEOVERHEAD ∧
  returns (setAllocated 65568 0) st_init (λ _ s1,
    mem s1 !! HDRP 65568 = Some (PACK 40928 0) ∧
    PACK 40928 0 ≠ PACK 0 1 ∧
    nextFree s1 = 65568 ∧
    mem st_init !! 65552 = Some (PACK OVERHEAD 1) ∧
    mem s1 !! 65552 = Some (PACK 0 1)) ∧
  16 mod ALIGNMENT = 0 ∧ 16 <= 40928 ∧
  setAllocated 65568 16 st_init = Fault.
Proof.
  split; [by_run |]. split; [by_run |]. split; [by_run |].
  split; [dec_run |]. split; [dec_run |]. split.
  - apply (returns_final _ _ tt); [by_run |].
    split; [by_run |]. split.
    + intros Heq. vm_compute in Heq. discriminate Heq.
    + split; [by_run |]. split; by_run.
  - split; [by_run |]. split; [dec_run | by_run].
Qed.

(** Witness of C5: the release of the only block of the second region. *)
Lemma release_unmaps_empty_region_witness :
  returns (mm_free 131104) st_two (λ _ s2,
    efl s2 [] ∧ unmaps s2 = (131072, 40960) :: unmaps st_two ∧
    mem s2 !! 131104 = None).
Proof.
  eapply returns_mono.
  { apply (release_unmaps_empty_region st_two 131104 (PACK 80 1) 80 131104
             (final (coalesce 131104) (cleared 131104 80 st_two))
             40928 (PACK 16 1) (PACK 16 1) (PACK 0 1) [] [] 40960);
      first [ efl_run | by apply result_final; by_run | by_run | dec_run | run1 ]. }
  intros [] s2 Hpost. cbv beta in Hpost.
  rewrite decide_False in Hpost by (intros Heq; vm_compute in Heq; discriminate Heq).
  destruct Hpost as (H1 & _ & H2 & _ & H3 & _). split_and!; [exact H1 | exact H2 |].
  apply H3. unfold in_range, OVERHEAD, sizeof_blockHeader, sizeof_blockFooter. lia.
Defined.

(** Counterexample to C6 as stated: the region [mm_init] maps has 40960 bytes,
    and the header of its interior block records 40928, not 40960 - 48. *)
Lemma interior_block_size_not_minus_48 :
  returns mm_init st_boot (λ _ s1,
    regions s1 = [(65536, 40960)] ∧
    ∃ w, mem s1 !! HDRP (65536 + PAGEOVERHEAD) = Some w ∧ alloc_of w = 0 ∧
         size_of w = 40928 ∧
         size_of w ≠ 40960 - (2 * 8 + 2 * 8 + ALIGNMENT / 2 + 8)).
Proof.
  apply (returns_final _ _ 0); [by_run |]. split; [by_run |].
  exists 40928. split; [by_run |]. split; [by_run |]. split; [by_run |].
  intros Heq. vm_compute in Heq. discriminate Heq.
Qed.

(** Witness of C6 (amended). *)
Lemma extend_interior_block_witness :
  returns (extend 4096) st_boot (λ _ s1,
    regions s1 = [(65536, 40960)] ∧ efl s1 [65568] ∧
    ∃ w, mem s1 !! 65560 = Some w ∧ alloc_of w = 0 ∧ size_of w = 40928).
Proof.
  eapply returns_mono.
  { apply (extend_interior_block st_boot 4096 65536 [131072] [] 40960);
      first [ reflexivity | by apply efl_nil | apply Forall_nil_2 | lia ]. }
  intros [] s1 (H1 & H2 & w & H3 & H4 & H5 & _). cbv beta.
  split_and!; [exact H1 | exact H2 |]. exists w. split_and!; [exact H3 | exact H4 | exact H5].
Defined.

(** Witness of C10: [mm_init] once more, after the primordial region is mapped. *)
Lemma mm_init_again_witness :
  returns mm_init st_init (λ r s1,
    r = 0 ∧ efl s1 [131104] ∧ basePage s1 = 131072 ∧
    unmaps s1 = unmaps st_init ∧
    regions s1 = (131072, 40960) :: regions st_init ∧
    mem s1 !! 65560 = mem st_init !! 65560).
Proof.
  eapply returns_mono.
  { apply (mm_init_again st_init 131072 [] 40960); first [ by_run | lia ]. }
  intros r s1 (H1 & H2 & H3 & H4 & H5 & H6). cbv beta.
  split_and!; [exact H1 | exact H2 | exact H3 | exact H4 | exact H5 |].
  apply H6. unfold in_range. lia.
Defined.

(** Witness of C7. *)
Lemma mm_init_refused_witness :
  returns mm_init (boot []) (λ r s1,
    r = 0 ∧ nextFree s1 = NULL ∧ basePage s1 = NULL ∧
    regions s1 = regions (boot []) ∧ mem s1 = mem (boot [])).
Proof. apply (mm_init_refused (boot [])). reflexivity. Defined.

(** Witness of C2: seed scenario 5, [mm_malloc(2^31)] after [mm_init] when the
    provider has nothing more to give. *)
Lemma mm_malloc_map_refused_witness :
  mm_malloc 1000 (2 ^ 31) (final mm_init (boot [65536])) = OutOfFuel.
Proof.
  refine (mm_malloc_map_refused (final mm_init (boot [65536])) [65568] (2 ^ 31)
            _ _ _ _ 1000%nat).
  - lia.
  - by_run.
  - efl_run.
  - apply Forall_cons. split; [| apply Forall_nil_2].
    eexists. split; [by_run | by_run].
Defined.

(** Witness of C1. *)
Lemma mm_init_footer_unwritten_witness :
  returns mm_init st_boot (λ _ s1,
    nextFree s1 = 65568 ∧
    returns (FTRP 65568) s1 (λ f _,
      mem s1 !! 65560 = Some 40928 ∧ mem s1 !! f = Some 0 ∧ f = 106480)).
Proof.
  eapply returns_mono.
  { apply (mm_init_footer_unwritten st_boot 65536 [131072] 40960);
      first [ reflexivity | lia ]. }
  intros r s1 (H1 & f & s2 & H2 & H3 & H4 & _). cbv beta.
  split; [exact H1 |]. exists f, s2. split; [exact H2 |].
  split_and!; [exact H3 | exact H4 |].
  assert (H3' : mem s1 !! (65568 - 8) = Some (PACK 40928 0)) by exact H3.
  pose proof (FTRP_Ret 65568 _ s1 H3') as Hf.
  change (FTRP 65568 s1 = Ret f s2) in H2. rewrite Hf in H2.
  injection H2 as <- _. reflexivity.
Defined.

(** C8.  A request of [2^64 - 16] bytes: the sum [size + OVERHEAD] wraps, so
    [mm_malloc] computes the size 0 where the request needs [2^64] bytes, takes
    the head of the EFL although its 40928 bytes do not fit, and returns it; the
    block handed out is still the head of the EFL and still marked free, and the
    footer of the prologue has been overwritten with [(0, 1)]. *)
Theorem mm_malloc_size_wraps :
  sizeAlign_of (2 ^ 64 - 16) = 0 ∧ needed (2 ^ 64 - 16) = 2 ^ 64 ∧
  returns (mm_malloc 2 (2 ^ 64 - 16)) st_init (λ r s1,
    r = 65568 ∧ nextFree s1 = 65568 ∧
    mem s1 !! HDRP 65568 = Some (PACK 40928 0) ∧
    mem st_init !! 65552 = Some (PACK OVERHEAD 1) ∧
    mem s1 !! 65552 = Some (PACK 0 1)).
Proof.
  split; [by_run |]. split; [by_run |].
  apply (returns_final _ _ 65568); [by_run |].
  split; [reflexivity |]. split; [by_run |]. split; [by_run |]. split; by_run.
Qed.

(** C9.  [extend] asked for [2^63 + 4096] bytes with pages of 4096 bytes: the
    product by [PAGERATIO] wraps, [mem_map] is asked for 40960 bytes, not for
    10 times the page-aligned size, and the free block created has 40928 bytes,
    fewer than asked for; the walk of [mm_malloc] that follows finds no block
    that fits. *)
Theorem extend_size_wraps :
  extend_bytes 4096 (2 ^ 63 + 4096) = 40960 ∧
  PAGERATIO * align_up (2 ^ 63 + 4096) 4096 = 10 * (2 ^ 63 + 4096) ∧
  returns (extend (2 ^ 63 + 4096)) st_boot (λ _ s1,
    regions s1 = [(65536, 40960)] ∧ nextFree s1 = 65568 ∧
    (∃ w, mem s1 !! HDRP 65568 = Some w ∧ size_of w = 40928 ∧
          size_of w < 2 ^ 63 + 4096) ∧
    result (mm_malloc_walk 3 (2 ^ 63 + 4096) 65568) s1 = Some None).
Proof.
  split; [by_run |]. split; [by_run |].
  apply (returns_final _ _ tt); [by_run |].
  split; [by_run |]. split; [by_run |]. split; [| by_run].
  exists 40928. split; [by_run |]. split; by_run.
Qed.

(** Where nothing wraps, [extend] asks for [PAGERATIO] times the page-aligned
    size, and the block it creates is large enough. *)
Lemma extend_bytes_exact k size :
  2 <= k → 0 < size → PAGERATIO * align_up size (2 ^ k) < 2 ^ 64 →
  extend_bytes (2 ^ k) size = PAGERATIO * align_up size (2 ^ k) ∧
  size <= extend_bytes (2 ^ k) size - PAGEOVERHEAD.
Proof.
  intros Hk Hs Hb. unfold extend_bytes, align_up in *.
  rewrite ?PAGEOVERHEAD_eq in *. unfold PAGERATIO in *.
  assert (Hp : 4 <= 2 ^ k).
  { change 4 with (2 ^ 2). apply Z.pow_le_mono_r; lia. }
  set (ps := 2 ^ k) in *.
  pose proof (Z.div_mod (size + ps - 1) ps ltac:(lia)) as Hdm.
  pose proof (Z.mod_pos_bound (size + ps - 1) ps ltac:(lia)) as Hmb.
  set (q := (size + ps - 1) / ps) in *. set (r := (size + ps - 1) mod ps) in *.
  assert (Hq : 1 <= q).
  { destruct (decide (1 <= q)); [done |]. assert (q <= 0) by lia. nia. }
  assert (Hpq : ps * q < 2 ^ 64) by lia.
  assert (Hps : ps <= ps * q) by nia.
  assert (Hk64 : k <= 64).
  { destruct (decide (k <= 64)) as [? | Hgt]; [done |].
    exfalso. assert (2 ^ 64 <= 2 ^ k) by (apply Z.pow_le_mono_r; lia).
    fold ps in H. lia. }
  assert (Hpa : (if decide (size mod ps ≠ 0) then PAGEALIGN ps size else size)
                = ps * q).
  { case_decide as Hm.
    - unfold ps. rewrite PAGEALIGN_div; [| lia | lia |].
      + fold ps. f_equal. unfold q. f_equal. lia.
      + fold ps. lia.
    - assert (size mod ps = 0) as H0 by (destruct (decide (size mod ps = 0)); tauto).
      pose proof (Z.div_mod size ps ltac:(lia)) as Hs2. rewrite H0 in Hs2.
      set (q2 := size / ps) in *.
      assert (ps * q + r = ps * q2 + (ps - 1)) by lia.
      assert (q = q2) by nia. lia. }
  rewrite Hpa. rewrite wrap_small by lia. split; [lia |]. lia.
Qed.

(** * Further properties of the allocator *)

(** ** Tags and block navigation *)

(** X1.  A tag written with [PUT(p, PACK(size, alloc))] reads back through
    [GET_SIZE(p)] and [GET_ALLOC(p)] as the same size and allocation bit, for
    every size that is a multiple of 16 and either bit; no other word changes. *)
Theorem tag_round_trip s p sz a :
  size_ok sz → bit a → is_Some (mem s !! p) →
  returns (PUT p (PACK sz a) ;;; x <- GET_SIZE p ;; y <- GET_ALLOC p ;; ret (x, y)) s
    (λ r s', r = (sz, a) ∧ ∀ q, q ≠ p → mem s' !! q = mem s !! q).
Proof.
  intros Hsz Ha Hp.
  rstep ltac:(by apply PUT_Ret).
  rstep ltac:(apply (GET_SIZE_Ret _ (PACK sz a)); st_simpl; apply lookup_insert_eq).
  rstep ltac:(apply (GET_ALLOC_Ret _ (PACK sz a)); st_simpl; apply lookup_insert_eq).
  eapply returns_Ret; [reflexivity |]. split.
  - by rewrite size_of_PACK, alloc_of_PACK.
  - intros q Hq. st_simpl. by apply lookup_insert_ne.
Qed.

(** X2.  For a block [b] whose header and footer record the same size [sz]:
    [FTRP(b)] is the footer [b + sz - OVERHEAD], [NEXT_BLKP(b)] is [b + sz],
    and [PREV_BLKP] of that successor leads back to [b]; nothing is written. *)
Theorem block_navigation s b sz a a' :
  size_ok sz → bit a → bit a' →
  mem s !! HDRP b = Some (PACK sz a) →
  mem s !! (b + sz - OVERHEAD) = Some (PACK sz a') →
  returns (f <- FTRP b ;; nx <- NEXT_BLKP b ;; pv <- PREV_BLKP nx ;; ret (f, nx, pv)) s
    (λ r s', r = (b + sz - OVERHEAD, b + sz, b) ∧ s' = s).
Proof.
  intros Hsz Ha Ha' Hh Hf. consts.
  rstep ltac:(apply (FTRP_Ret _ _ _ Hh)).
  rstep ltac:(apply (NEXT_BLKP_Ret _ _ _ Hh)).
  rewrite size_of_PACK by done.
  rstep ltac:(by apply (PREV_BLKP_Ret _ (PACK sz a'))).
  eapply returns_Ret; [reflexivity |].
  rewrite size_of_PACK by done. split; [| done]. do 2 f_equal; lia.
Qed.

(** X3.  [ALIGN(x)] is a multiple of 16; when [x + 15] fits a [size_t] it is
    the least multiple of 16 that is at least [x], and for the 15 largest
    values of [x] the sum wraps and [ALIGN(x)] is 0. *)
Theorem ALIGN_rounds_up x :
  0 <= x < 2 ^ 64 →
  ALIGN x mod 16 = 0 ∧
  (x + 15 < 2 ^ 64 → x <= ALIGN x < x + 16) ∧
  (2 ^ 64 <= x + 15 → ALIGN x = 0).
Proof.
  intros Hx. unfold ALIGN, ALIGNMENT.
  pose proof (wrap_range (x + (16 - 1))) as Hr.
  pose proof (land_mask_pow2 (wrap (x + (16 - 1))) 4 ltac:(lia) Hr) as E.
  change (2 ^ 4 - 1) with (16 - 1) in E. change (2 ^ 4) with 16 in E.
  rewrite E. clear E. split_and!.
  - rewrite Z.mul_comm. apply Z.mod_mul. lia.
  - intros Hb. rewrite wrap_small by lia. lia.
  - intros Hb. unfold wrap in *.
    assert ((x + (16 - 1)) mod 2 ^ 64 = x + 15 - 2 ^ 64) as ->; [| lia].
    symmetry. apply (Z.mod_unique_pos _ _ 1); lia.
Qed.

(** ** The free list: insertion and removal *)



(** X5.  [removeEFLNode(b)] followed by [addEFLNode(b)], for a node [b]
    anywhere in the EFL, moves [b] to the front and keeps the other nodes in
    their order; only link fields of nodes of the list are written. *)
Theorem removeEFLNode_addEFLNode s l1 b l2 :
  efl s (l1 ++ b :: l2) →
  returns (removeEFLNode b ;;; addEFLNode b) s (λ _ s',
    efl s' (b :: l1 ++ l2) ∧ same_host s s' ∧
    ∀ a, a ∉ cells (l1 ++ b :: l2) → mem s' !! a = mem s !! a).
Proof.
  intros Hefl.
  destruct (removeEFLNode_efl s l1 b l2 Hefl) as (s1 & Hrm & Hefl1 & Hfr1).
  pose proof Hefl as (_ & Hd & Hnd).
  assert (Hbin : b ∈ l1 ++ b :: l2) by (rewrite elem_of_app, elem_of_cons; auto).
  assert (Hcell : ∀ a, a = b ∨ a = b + 8 → a ∈ cells (l1 ++ b :: l2)).
  { intros a Ha. apply elem_of_cells. eauto. }
  assert (Hnot : ∀ a, a = b ∨ a = b + 8 → a ∉ cells (l1 ++ l2)).
  { intros a Ha Hin. rewrite cells_app in Hnd, Hin. simpl in Hnd.
    apply NoDup_app in Hnd as (_ & Hd1 & [Hx [Hy _]%NoDup_cons]%NoDup_cons).
    unfold prev_field, next_field in *.
    apply elem_of_app in Hin as [Hin | Hin].
    - apply (Hd1 _ Hin). rewrite !elem_of_cons. destruct Ha; auto.
    - destruct Ha as [-> | ->]; [| done]. apply Hx. rewrite elem_of_cons. auto. }
  destruct (addEFLNode_efl s1 (l1 ++ l2) b) as (s2 & Hadd & Hefl2 & Hfr2); try done.
  - by eapply dll_nonzero.
  - eapply frame_is_Some; [done |]. eapply dll_mapped; [done |]. apply Hcell; auto.
  - eapply frame_is_Some; [done |]. eapply dll_mapped; [done |]. apply Hcell; auto.
  - apply Hnot; auto.
  - apply Hnot; auto.
  - rstep ltac:(exact Hrm). eapply returns_Ret; [exact Hadd |].
    destruct Hfr1 as (Hh1 & Hm1 & _), Hfr2 as (Hh2 & Hm2 & _).
    split_and!; [done | by eapply same_host_trans |].
    intros a Ha. rewrite Hm2, Hm1; [done | |].
    + intros Hin. by apply Ha, cells_remove_subset.
    + simpl. unfold prev_field, next_field. rewrite !not_elem_of_cons. split_and!.
      * intros ->. apply Ha, Hcell; auto.
      * intros ->. apply Ha, Hcell; auto.
      * intros Hin. by apply Ha, cells_remove_subset.
Qed.

(** ** Computations that work on the heap only *)

Lemma bind_Ret_inv {A B} (c : M A) (k : A → M B) s b s' :
  bind c k s = Ret b s' → ∃ a s1, c s = Ret a s1 ∧ k a s1 = Ret b s'.
Proof. unfold bind. destruct (c s) as [a s1 | |]; [eauto | done | done]. Qed.

Lemma heap_only_ret {A} (a : A) : heap_only (ret a).
Proof. intros s a' s' [= _ <-]. done. Qed.

Lemma heap_only_bind {A B} (c : M A) (k : A → M B) :
  heap_only c → (∀ a, heap_only (k a)) → heap_only (bind c k).
Proof.
  intros Hc Hk s b s' (a & s1 & H1 & H2)%bind_Ret_inv.
  destruct (Hc _ _ _ H1) as [Hh1 Hd1], (Hk _ _ _ _ H2) as [Hh2 Hd2].
  split; [by eapply same_host_trans |]. intros p. etrans; [apply Hd2 | apply Hd1].
Qed.

Lemma heap_only_GET p : heap_only (GET p).
Proof. intros s a s'. unfold GET. destruct (mem s !! p); [| done]. by intros [= _ <-]. Qed.

Lemma heap_only_PUT p v : heap_only (PUT p v).
Proof.
  intros s a s'. unfold PUT. destruct (mem s !! p) as [w |] eqn:E; [| done].
  intros [= _ <-]. split; [done |]. intros q. simpl. by apply is_Some_insert.
Qed.

Lemma heap_only_get_nextFree : heap_only get_nextFree.
Proof. by intros s a s' [= _ <-]. Qed.

Lemma heap_only_set_nextFree p : heap_only (set_nextFree p).
Proof. by intros s a s' [= _ <-]. Qed.

Ltac heap_only_tac :=
  repeat first
    [ apply heap_only_ret
    | apply heap_only_GET
    | apply heap_only_PUT
    | apply heap_only_get_nextFree
    | apply heap_only_set_nextFree
    | apply heap_only_bind; [| intros ?]
    | case_decide
    | progress cbv zeta
    | match goal with |- heap_only (if ?b then _ else _) => destruct b end ].

Lemma heap_only_addEFLNode p : heap_only (addEFLNode p).
Proof. unfold addEFLNode. heap_only_tac. Qed.

Lemma heap_only_removeEFLNode p : heap_only (removeEFLNode p).
Proof. unfold removeEFLNode. heap_only_tac. Qed.

Lemma heap_only_coalesce bp : heap_only (coalesce bp).
Proof.
  unfold coalesce, FTRP, NEXT_BLKP, PREV_BLKP, GET_SIZE, GET_ALLOC,
    addEFLNode, removeEFLNode.
  heap_only_tac.
Qed.

Lemma heap_only_setAllocated bp size : heap_only (setAllocated bp size).
Proof.
  unfold setAllocated, FTRP, NEXT_BLKP, GET_SIZE, addEFLNode, removeEFLNode.
  heap_only_tac.
Qed.

Lemma heap_only_mm_malloc_walk fuel sz p : heap_only (mm_malloc_walk fuel sz p).
Proof.
  revert p. induction fuel as [| fuel IH]; intros p; [done |].
  rewrite mm_malloc_walk_unfold. unfold GET_SIZE.
  case_decide; [| apply heap_only_ret].
  apply heap_only_bind; [heap_only_tac | intros sz'].
  case_decide.
  - apply heap_only_bind; [apply heap_only_setAllocated | intros ?; apply heap_only_ret].
  - apply heap_only_bind; [apply heap_only_GET | intros ?; apply IH].
Qed.

Lemma heap_only_get_basePage : heap_only get_basePage.
Proof. by intros s a s' [= _ <-]. Qed.

Lemma heap_only_mem_pagesize : heap_only mem_pagesize.
Proof. by intros s a s' [= _ <-]. Qed.

Lemma heap_only_GET_SIZE p : heap_only (GET_SIZE p).
Proof. unfold GET_SIZE. heap_only_tac. Qed.

Lemma heap_only_FTRP p : heap_only (FTRP p).
Proof. unfold FTRP, GET_SIZE. heap_only_tac. Qed.

Lemma heap_only_NEXT_BLKP p : heap_only (NEXT_BLKP p).
Proof. unfold NEXT_BLKP, GET_SIZE. heap_only_tac. Qed.

Lemma heap_only_PREV_BLKP p : heap_only (PREV_BLKP p).
Proof. unfold PREV_BLKP, GET_SIZE. heap_only_tac. Qed.

(** ** [mm_malloc] on a block that fits *)

Lemma mm_malloc_fit_run s la b lb n w fuel :
  0 < n → n + 31 < 2 ^ 64 → efl s (la ++ b :: lb) →
  Forall (λ x, ∃ w, mem s !! (x - 8) = Some w ∧ size_of w < needed n) la →
  mem s !! (b - 8) = Some w → size_of w >= needed n →
  (S (length la) < fuel)%nat →
  mm_malloc fuel n s = (setAllocated b (needed n) ;;; ret b) s.
Proof.
  intros Hn Hb (Hh & Hd & _) Hsmall Hw Hfit Hfuel.
  destruct fuel as [| fuel]; [lia |].
  rewrite mm_malloc_unfold, decide_False by lia. cbv zeta.
  rewrite sizeAlign_of_needed by done.
  unfold bind at 1, get_nextFree. rewrite Hh. unfold bind at 1.
  rewrite (mm_malloc_walk_first_fit s la b lb (needed n) NULL fuel);
    [| done | done | by eauto | lia].
  unfold bind. by destruct (setAllocated b (needed n) s).
Qed.

(** The block [mm_malloc] hands out, in full. *)
Lemma mm_malloc_fit s la b lb n avail fuel :
  0 < n → n + 31 < 2 ^ 64 →
  efl s (la ++ b :: lb) → 0 < b →
  Forall (λ x, ∃ w, mem s !! (x - 8) = Some w ∧ size_of w < needed n) la →
  mem s !! (b - 8) = Some (PACK avail 0) → size_ok avail → needed n <= avail →
  mapped_words (mem s) (b - 8) (avail / 8) →
  apart (b - 8) (b + avail - 8) (la ++ lb) →
  (S (length la) < fuel)%nat →
  returns (mm_malloc fuel n) s (λ r s',
    r = b ∧ same_host s s' ∧ same_domain s s' ∧
    if decide (avail - needed n >= PAGEOVERHEAD) then
      mem s' !! (b - 8) = Some (PACK (needed n) 1) ∧
      mem s' !! (b + needed n - 16) = Some (PACK (needed n) 1) ∧
      mem s' !! (b + needed n - 8) = Some (PACK (avail - needed n) 0) ∧
      mem s' !! (b + avail - 16) = Some (PACK (avail - needed n) 0) ∧
      efl s' (b + needed n :: la ++ lb) ∧
      (∀ a, ¬ (b - 8 <= a < b + avail - 8) → a ∉ cells (la ++ lb) →
            mem s' !! a = mem s !! a)
    else
      mem s' !! (b - 8) = Some (PACK avail 1) ∧
      mem s' !! (b + avail - 16) = Some (PACK avail 1) ∧
      efl s' (la ++ lb) ∧
      (∀ a, a ≠ b - 8 → a ≠ b + avail - 16 → a ∉ cells (la ++ lb) →
            mem s' !! a = mem s !! a)).
Proof.
  intros Hn Hb Hefl Hb0 Hsmall Hhdr Hav Hfit Hmap Hap Hfuel.
  assert (Hnd : size_ok (needed n) ∧ 32 <= needed n).
  { unfold needed, align_up, size_ok. consts. lia. }
  destruct Hnd as [Hnok Hn32].
  assert (Hrun := mm_malloc_fit_run s la b lb n (PACK avail 0) fuel Hn Hb Hefl Hsmall Hhdr).
  rewrite size_of_PACK in Hrun by auto.
  specialize (Hrun ltac:(lia) Hfuel).
  assert (Hset : returns (setAllocated b (needed n)) s (λ _ s',
    if decide (avail - needed n >= PAGEOVERHEAD) then
      mem s' !! (b - 8) = Some (PACK (needed n) 1) ∧
      mem s' !! (b + needed n - 16) = Some (PACK (needed n) 1) ∧
      mem s' !! (b + needed n - 8) = Some (PACK (avail - needed n) 0) ∧
      mem s' !! (b + avail - 16) = Some (PACK (avail - needed n) 0) ∧
      efl s' (b + needed n :: la ++ lb) ∧
      (∀ a, ¬ (b - 8 <= a < b + avail - 8) → a ∉ cells (la ++ lb) →
            mem s' !! a = mem s !! a)
    else
      mem s' !! (b - 8) = Some (PACK avail 1) ∧
      mem s' !! (b + avail - 16) = Some (PACK avail 1) ∧
      efl s' (la ++ lb) ∧
      (∀ a, a ≠ b - 8 → a ≠ b + avail - 16 → a ∉ cells (la ++ lb) →
            mem s' !! a = mem s !! a))).
  { destruct (decide (avail - needed n >= PAGEOVERHEAD)) as [Hs | Hs].
    - eapply returns_mono;
        [by apply (setAllocated_split s la b lb avail (needed n)) |].
      intros _ s' (H1 & H2 & H3 & H4 & H5 & _ & H7). done.
    - eapply returns_mono;
        [by apply (setAllocated_whole s la b lb avail (needed n)) |].
      intros _ s' (H1 & H2 & H3 & _ & H5). done. }
  destruct Hset as ([] & s' & Hexec & Hpost).
  destruct (heap_only_setAllocated _ _ _ _ _ Hexec) as [Hh Hdom].
  exists b, s'. split.
  - rewrite Hrun. by rewrite (bind_Ret _ _ _ _ _ Hexec).
  - done.
Qed.

Lemma mapped_words_domain m m' a n :
  (∀ x, is_Some (m !! x) → is_Some (m' !! x)) →
  mapped_words m a n → mapped_words m' a n.
Proof. intros H Hm. eapply Forall_impl; [exact Hm |]. intros i. apply H. Qed.

Lemma needed_bounds n : 0 < n → 32 <= needed n ∧ n + 16 <= needed n ∧ needed n mod 16 = 0.
Proof. intros Hn. unfold needed, align_up. consts. lia. Qed.

Lemma apart_mono lo hi lo' hi' L :
  apart lo hi L → lo <= lo' → hi' <= hi → apart lo' hi' L.
Proof. intros H ? ?. eapply Forall_impl; [exact H |]. intros x Hx. simpl in Hx. lia. Qed.

Lemma mapped_words_sub m a n a' n' :
  mapped_words m a n → a <= a' → (a' - a) mod 8 = 0 → 0 <= n' →
  a' + 8 * n' <= a + 8 * n → mapped_words m a' n'.
Proof.
  intros Hm Ha Hmod Hn Hle. apply Forall_forall. intros i Hi%elem_of_seqZ.
  apply (mapped_words_lookup m a n); [done | lia | lia].
Qed.

(** X7.  A request of 1 to [MINSIZE] bytes is served exactly as a request of
    [MINSIZE] bytes: same result, same final state. *)
Theorem mm_malloc_small_request fuel n s :
  0 < n <= MINSIZE → mm_malloc fuel n s = mm_malloc fuel MINSIZE s.
Proof.
  intros Hn. destruct fuel as [| fuel]; [done |].
  rewrite !mm_malloc_unfold. consts.
  rewrite !decide_False by lia. cbv zeta.
  rewrite <- (sizeAlign_of_clamp n). consts.
  by rewrite !decide_True by lia.
Qed.

(** X8.  When every node of the EFL is a multiple of [ALIGNMENT], the payload
    [mm_malloc] returns from the list is one too, and so is every node of the
    EFL afterwards, the remainder of a split included. *)
Theorem mm_malloc_aligned s la b lb n avail fuel :
  0 < n → n + 31 < 2 ^ 64 →
  efl s (la ++ b :: lb) → 0 < b →
  Forall (λ x, x mod ALIGNMENT = 0) (la ++ b :: lb) →
  Forall (λ x, ∃ w, mem s !! (x - 8) = Some w ∧ size_of w < needed n) la →
  mem s !! (b - 8) = Some (PACK avail 0) → size_ok avail → needed n <= avail →
  mapped_words (mem s) (b - 8) (avail / 8) →
  apart (b - 8) (b + avail - 8) (la ++ lb) →
  (S (length la) < fuel)%nat →
  returns (mm_malloc fuel n) s (λ r s',
    r mod ALIGNMENT = 0 ∧
    ∃ L', efl s' L' ∧ Forall (λ x, x mod ALIGNMENT = 0) L').
Proof.
  intros Hn Hb Hefl Hb0 Hal Hsmall Hhdr Hav Hfit Hmap Hap Hfuel.
  eapply returns_mono; [by apply (mm_malloc_fit s la b lb n avail fuel) |].
  intros r s' (-> & _ & _ & Hpost). cbv beta.
  apply Forall_app in Hal as [Hla [Hbal Hlb]%Forall_cons].
  split; [done |].
  assert (Hnm : needed n mod 16 = 0).
  { unfold needed, align_up. consts. lia. }
  case_decide.
  - destruct Hpost as (_ & _ & _ & _ & He & _). eexists. split; [exact He |].
    apply Forall_cons. split; [| by apply Forall_app]. consts. lia.
  - destruct Hpost as (_ & _ & He & _). eexists. split; [exact He |].
    by apply Forall_app.
Qed.

(** X9.  Two requests in a row, of [n1 > 0] and [n2 > 0] bytes, when [b] is
    the first block of the EFL that is large enough for the first (the blocks
    before it are smaller than [needed n1]) and [b] can hold both
    ([needed n1 + needed n2 <= avail]): the first is served at [b], the second
    at [b + needed n1], directly behind the first block, without a call of the
    provider. *)
Theorem mm_malloc_twice s la b lb n1 n2 avail fuel :
  0 < n1 → 0 < n2 →
  efl s (la ++ b :: lb) → 0 < b →
  Forall (λ x, ∃ w, mem s !! (x - 8) = Some w ∧ size_of w < needed n1) la →
  mem s !! (b - 8) = Some (PACK avail 0) → size_ok avail →
  needed n1 + needed n2 <= avail →
  mapped_words (mem s) (b - 8) (avail / 8) →
  apart (b - 8) (b + avail - 8) (la ++ lb) →
  (S (length la) < fuel)%nat →
  returns (p <- mm_malloc fuel n1 ;; q <- mm_malloc fuel n2 ;; ret (p, q)) s (λ r s',
    r = (b, b + needed n1) ∧ same_host s s' ∧
    mem s' !! HDRP b = Some (PACK (needed n1) 1) ∧
    ∃ sz, mem s' !! HDRP (b + needed n1) = Some (PACK sz 1) ∧ needed n2 <= sz).
Proof.
  intros Hn1 Hn2 Hefl Hb Hsmall Hhdr Hav Hfit Hmap Hap Hfuel.
  pose proof (needed_bounds n1 Hn1) as (H132 & H116 & H1m).
  pose proof (needed_bounds n2 Hn2) as (H232 & H216 & H2m).
  pose proof Hav as [Hrange Hm16]. consts.
  destruct (mm_malloc_fit s la b lb n1 avail fuel) as
    (r & s1 & Hm & -> & Hh1 & Hd1 & Hpost); try done; try lia.
  rewrite decide_True in Hpost by (consts; lia).
  destruct Hpost as (Hhd & _ & HhdR & _ & Hefl1 & Hfr1).
  rstep ltac:(exact Hm).
  assert (Hrok : size_ok (avail - needed n1)) by (unfold size_ok; lia).
  assert (Hnc : ∀ a, b - 8 <= a < b + avail - 8 → a ∉ cells (la ++ lb)).
  { intros a Ha. by eapply apart_not_cell. }
  destruct (mm_malloc_fit s1 [] (b + needed n1) (la ++ lb) n2 (avail - needed n1) fuel)
    as (r & s2 & Hm2 & -> & Hh2 & _ & Hpost2); try done; try lia.
  { eapply mapped_words_domain; [intros x; apply Hd1 |].
    eapply mapped_words_sub; [exact Hmap | lia | lia | lia | lia]. }
  { simpl. eapply apart_mono; [exact Hap | lia | lia]. }
  { simpl. lia. }
  rstep ltac:(exact Hm2).
  eapply returns_Ret; [reflexivity |].
  split_and!; [done | by eapply same_host_trans | |].
  - case_decide.
    + destruct Hpost2 as (_ & _ & _ & _ & _ & Hfr2).
      rewrite Hfr2; [done | lia | apply Hnc; lia].
    + destruct Hpost2 as (_ & _ & _ & Hfr2).
      rewrite Hfr2; [done | lia | lia | apply Hnc; lia].
  - case_decide.
    + destruct Hpost2 as (H1 & _). eexists. split; [exact H1 | lia].
    + destruct Hpost2 as (H1 & _). eexists. split; [exact H1 | lia].
Qed.

(** ** [mm_free] without a release of the region *)

Lemma same_domain_cleared b sz s :
  is_Some (mem s !! (b - 8)) → is_Some (mem s !! (b + sz - 16)) →
  same_domain s (cleared b sz s).
Proof.
  intros H1 H2 a. unfold cleared. st_simpl.
  rewrite is_Some_insert; [by apply is_Some_insert |].
  by apply is_Some_insert.
Qed.

(** [mm_free] of a block whose neighbours are both allocated, when the
    region is not handed back. *)
Lemma mm_free_11 s L b w sz szP szN :
  efl s L → 2 * OVERHEAD <= b < 2 ^ 64 →
  mem s !! (b - 8) = Some w → size_of w = sz →
  mem s !! (b - 16) = Some (PACK szP 1) →
  mem s !! (b - szP - 8) = Some (PACK szP 1) →
  mem s !! (b + sz - 8) = Some (PACK szN 1) →
  size_ok sz → size_ok szP → size_ok szN → 32 <= sz → 16 <= szP →
  is_Some (mem s !! b) → is_Some (mem s !! (b + 8)) →
  is_Some (mem s !! (b + sz - 16)) →
  apart (b - szP - 8) (b + sz) L →
  ¬ (szP = OVERHEAD ∧ szN = 0 ∧ b - 2 * OVERHEAD ≠ basePage s) →
  returns (mm_free b) s (λ _ s',
    efl s' (b :: L) ∧ same_host s s' ∧ same_domain s s' ∧
    mem s' !! (b - 8) = Some (PACK sz 0) ∧
    mem s' !! (b + sz - 16) = Some (PACK sz 0) ∧
    ∀ a, a ≠ b - 8 → a ≠ b + sz - 16 → a ∉ cells (b :: L) →
         mem s' !! a = mem s !! a).
Proof.
  intros Hefl Hb Hw Hsz HP HPh HN Hsok HPok HNok H32 H16 Hb0 Hb8 Hft Hap Hkeep.
  consts.
  assert (Hnc : ∀ a, b - szP - 8 <= a < b + sz → a ∉ cells L).
  { intros a Ha. by eapply apart_not_cell. }
  assert (Hcl : ∀ a v, mem s !! a = Some v → a ≠ b + sz - 16 → a ≠ b - 8 →
                       mem (cleared b sz s) !! a = Some v).
  { intros a v. apply cleared_other. }
  destruct (coalesce_11 (cleared b sz s) L b sz szP szN) as
    (r & s1 & Hco & -> & Hefl1 & Hhost1 & Hsome1 & Hfr1); try done.
  { apply cleared_efl; [done | |]; apply Hnc; lia. }
  { lia. }
  { rewrite cleared_lookup. repeat case_decide; done. }
  { apply Hcl; [done | lia | lia]. }
  { apply Hcl; [done | lia | lia]. }
  { apply Hcl; [done | lia | lia]. }
  { apply cleared_is_Some; eauto. }
  { apply cleared_is_Some; eauto. }
  { eapply apart_mono; [exact Hap | lia | lia]. }
  assert (Hout : ∀ a, b - szP - 8 <= a < b + sz → a ≠ b → a ≠ b + 8 →
                      mem s1 !! a = mem (cleared b sz s) !! a).
  { intros a Ha H0 H8. apply Hfr1. simpl. unfold prev_field, next_field.
    rewrite !not_elem_of_cons. split_and!; [done | done | by apply Hnc]. }
  destruct (heap_only_coalesce _ _ _ _ Hco) as [_ Hdom1].
  eapply returns_mono.
  { eapply (mm_free_returns s b w sz b s1 sz (PACK szP 1) (PACK szP 1) (PACK szN 1) [] L);
      try done.
    - rewrite Hout by lia. rewrite cleared_lookup. repeat case_decide; done.
    - rewrite Hout by lia. apply Hcl; [done | lia | lia].
    - rewrite size_of_PACK by auto. rewrite Hout by lia. apply Hcl; [done | lia | lia].
    - rewrite Hout by lia. apply Hcl; [done | lia | lia]. }
  intros [] s2 Hpost. cbv beta in Hpost.
  rewrite !size_of_PACK in Hpost by auto.
  destruct Hhost1 as (Hbp & Hrest). change (basePage (cleared b sz s)) with (basePage s) in Hbp.
  rewrite decide_False in Hpost.
  2:{ consts. rewrite wrap_small by lia. rewrite Hbp. intros (? & ? & ?). apply Hkeep. done. }
  subst s2. split_and!.
  - done.
  - split; [done |]. exact Hrest.
  - intros a. etrans; [apply Hdom1 |]. apply same_domain_cleared; eauto.
  - rewrite Hout by lia. rewrite cleared_lookup. repeat case_decide; done.
  - rewrite Hout by lia. rewrite cleared_lookup. repeat case_decide; first [done | lia].
  - intros a Ha1 Ha2 Ha3. rewrite Hfr1 by done. rewrite cleared_lookup.
    repeat case_decide; first [done | lia].
Qed.

Lemma not_cells_insert a l1 x l2 :
  a ≠ x → a ≠ x + 8 → a ∉ cells (l1 ++ l2) → a ∉ cells (l1 ++ x :: l2).
Proof.
  intros H0 H8 Hn. rewrite cells_app in *. simpl. unfold prev_field, next_field.
  rewrite elem_of_app, !elem_of_cons. rewrite elem_of_app in Hn. tauto.
Qed.

(** [mm_free] of a block whose predecessor is allocated and whose successor
    is free, when the region is not handed back. *)
Lemma mm_free_10 s l1 l2 b w sz szP szN szNN :
  efl s (l1 ++ (b + sz) :: l2) → 2 * OVERHEAD <= b < 2 ^ 64 →
  mem s !! (b - 8) = Some w → size_of w = sz →
  mem s !! (b - 16) = Some (PACK szP 1) →
  mem s !! (b - szP - 8) = Some (PACK szP 1) →
  mem s !! (b + sz - 8) = Some (PACK szN 0) →
  mem s !! (b + sz + szN - 8) = Some (PACK szNN 1) →
  size_ok sz → size_ok szP → size_ok szN → size_ok szNN →
  32 <= sz → 16 <= szP → 32 <= szN → sz + szN < 2 ^ 64 →
  is_Some (mem s !! b) → is_Some (mem s !! (b + 8)) →
  is_Some (mem s !! (b + sz - 16)) → is_Some (mem s !! (b + sz + szN - 16)) →
  apart (b - szP - 8) (b + sz + szN) (l1 ++ l2) →
  ¬ (szP = OVERHEAD ∧ szNN = 0 ∧ b - 2 * OVERHEAD ≠ basePage s) →
  returns (mm_free b) s (λ _ s',
    efl s' (b :: l1 ++ l2) ∧ same_host s s' ∧ same_domain s s' ∧
    mem s' !! (b - 8) = Some (PACK (sz + szN) 0) ∧
    mem s' !! (b + sz + szN - 16) = Some (PACK (sz + szN) 0) ∧
    ∀ a, a ≠ b - 8 → a ≠ b + sz - 16 → a ≠ b + sz + szN - 16 →
         a ∉ cells (b :: l1 ++ l2) → mem s' !! a = mem s !! a).
Proof.
  intros Hefl Hb Hw Hsz HP HPh HN HNN Hsok HPok HNok HNNok H32 H16 H32N Hsum
    Hb0 Hb8 Hft HftN Hap Hkeep.
  consts.
  assert (Hnc : ∀ a, b - szP - 8 <= a < b + sz + szN → a ∉ cells (l1 ++ l2)).
  { intros a Ha. by eapply apart_not_cell. }
  assert (Hcl : ∀ a v, mem s !! a = Some v → a ≠ b + sz - 16 → a ≠ b - 8 →
                       mem (cleared b sz s) !! a = Some v).
  { intros a v. apply cleared_other. }
  assert (Hsumok : size_ok (sz + szN)).
  { destruct Hsok, HNok. unfold size_ok. lia. }
  destruct (coalesce_10 (cleared b sz s) l1 l2 b sz szP szN) as
    (r & s1 & Hco & -> & Hefl1 & Hhost1 & Hh1 & Hf1 & Hsome1 & Hfr1); try done.
  { apply cleared_efl; [done | |]; apply not_cells_insert; first [lia | apply Hnc; lia]. }
  { lia. }
  { rewrite cleared_lookup. repeat case_decide; done. }
  { apply Hcl; [done | lia | lia]. }
  { apply Hcl; [done | lia | lia]. }
  { apply Hcl; [done | lia | lia]. }
  { apply cleared_is_Some; eauto. }
  { apply cleared_is_Some; eauto. }
  { apply cleared_is_Some; eauto. }
  { eapply apart_mono; [exact Hap | lia | lia]. }
  assert (Hout : ∀ a, b - szP - 8 <= a < b + sz + szN → a ≠ b → a ≠ b + 8 →
                      a ≠ b - 8 → a ≠ b + (sz + szN) - 16 →
                      mem s1 !! a = mem (cleared b sz s) !! a).
  { intros a Ha H0 H8 H1 H2. apply Hfr1; [done | done |]. simpl.
    unfold prev_field, next_field.
    rewrite !not_elem_of_cons. split_and!; [done | done | by apply Hnc]. }
  destruct (heap_only_coalesce _ _ _ _ Hco) as [_ Hdom1].
  eapply returns_mono.
  { eapply (mm_free_returns s b w sz b s1 (sz + szN) (PACK szP 1) (PACK szP 1)
              (PACK szNN 1) [] (l1 ++ l2)); try done.
    - rewrite Hout by lia. apply Hcl; [done | lia | lia].
    - rewrite size_of_PACK by auto. rewrite Hout by lia. apply Hcl; [done | lia | lia].
    - rewrite Hout by lia. apply Hcl; [| lia | lia].
      by replace (b + (sz + szN) - 8) with (b + sz + szN - 8) by lia. }
  intros [] s2 Hpost. cbv beta in Hpost.
  rewrite !size_of_PACK in Hpost by auto.
  destruct Hhost1 as (Hbp & Hrest). change (basePage (cleared b sz s)) with (basePage s) in Hbp.
  rewrite decide_False in Hpost.
  2:{ consts. rewrite wrap_small by lia. rewrite Hbp. intros (? & ? & ?). apply Hkeep. done. }
  subst s2. split_and!.
  - done.
  - split; [done |]. exact Hrest.
  - intros a. etrans; [apply Hdom1 |]. apply same_domain_cleared; eauto.
  - done.
  - by replace (b + sz + szN - 16) with (b + (sz + szN) - 16) by lia.
  - intros a Ha1 Ha2 Ha3 Ha4. rewrite Hfr1; [| done | lia | done].
    rewrite cleared_lookup. repeat case_decide; first [done | lia].
Qed.

(** X10.  For a request of [n] bytes, [0 < n] and [n + 31 < 2^64], when [b]
    is the first block of the EFL that is large enough ([needed n <= avail],
    the blocks before it smaller), lies between two allocated blocks and is
    not alone in a region other than the base region: [mm_malloc] followed by
    [mm_free] of the block it returned leaves [b] free again with its full
    size [avail] in header and footer; it is the head of the EFL, the other
    nodes keep their order, and no word outside the block and the link fields
    of the list has changed. *)
Theorem mm_malloc_then_mm_free s la b lb n avail szP szN fuel :
  0 < n → n + 31 < 2 ^ 64 →
  efl s (la ++ b :: lb) → 2 * OVERHEAD <= b < 2 ^ 64 →
  Forall (λ x, ∃ w, mem s !! (x - 8) = Some w ∧ size_of w < needed n) la →
  mem s !! (b - 8) = Some (PACK avail 0) → size_ok avail → needed n <= avail →
  mem s !! (b - 16) = Some (PACK szP 1) →
  mem s !! (b - szP - 8) = Some (PACK szP 1) →
  mem s !! (b + avail - 8) = Some (PACK szN 1) →
  size_ok szP → size_ok szN → 16 <= szP →
  mapped_words (mem s) (b - 8) (avail / 8) →
  apart (b - szP - 8) (b + avail) (la ++ lb) →
  ¬ (szP = OVERHEAD ∧ szN = 0 ∧ b - 2 * OVERHEAD ≠ basePage s) →
  (S (length la) < fuel)%nat →
  returns (p <- mm_malloc fuel n ;; mm_free p) s (λ _ s',
    efl s' (b :: la ++ lb) ∧ same_host s s' ∧
    mem s' !! (b - 8) = Some (PACK avail 0) ∧
    mem s' !! (b + avail - 16) = Some (PACK avail 0) ∧
    ∀ a, ¬ (b - 8 <= a < b + avail - 8) → a ∉ cells (la ++ lb) →
         mem s' !! a = mem s !! a).
Proof.
  intros Hn Hnb Hefl Hb Hsmall Hhdr Hav Hfit HP HPh HN HPok HNok H16 Hmap Hap Hkeep Hfuel.
  pose proof (needed_bounds n Hn) as (Hn32 & Hn16 & Hnm).
  assert (Hnok : size_ok (needed n)).
  { destruct Hav. split; [lia | done]. }
  assert (Hsome : ∀ x, b - 8 <= x < b - 8 + avail → (x - (b - 8)) mod 8 = 0 →
                       is_Some (mem s !! x)).
  { intros x Hx Hm. apply (mapped_words_lookup _ (b - 8) (avail / 8)); [done | | done].
    destruct Hav. lia. }
  assert (Hnc : ∀ a, b - szP - 8 <= a < b + avail → a ∉ cells (la ++ lb)).
  { intros a Ha. by eapply apart_not_cell. }
  consts.
  destruct (mm_malloc_fit s la b lb n avail fuel) as
    (r & s1 & Hm & -> & Hh1 & Hd1 & Hpost); try done.
  { lia. }
  { eapply apart_mono; [exact Hap | lia | lia]. }
  rstep ltac:(exact Hm).
  assert (Hbp : basePage s1 = basePage s) by apply Hh1.
  destruct (decide (avail - needed n >= PAGEOVERHEAD)) as [Hs | Hs]; consts.
  - destruct Hpost as (Hhd & Hft & HhdR & HftR & Hefl1 & Hfr1).
    assert (Hrok : size_ok (avail - needed n)).
    { destruct Hav, Hnok. unfold size_ok. lia. }
    eapply returns_mono.
    { apply (mm_free_10 s1 [] (la ++ lb) b (PACK (needed n) 1) (needed n) szP
               (avail - needed n) szN); try done.
      - by apply size_of_PACK.
      - rewrite Hfr1; [done | lia | apply Hnc; lia].
      - rewrite Hfr1; [done | lia | apply Hnc; lia].
      - replace (b + needed n + (avail - needed n) - 8) with (b + avail - 8) by lia.
        rewrite Hfr1; [done | lia | apply Hnc; lia].
      - lia.
      - destruct Hav. lia.
      - apply Hd1, Hsome; destruct Hav; lia.
      - apply Hd1, Hsome; destruct Hav; lia.
      - apply Hd1, Hsome; destruct Hav; lia.
      - simpl. eapply apart_mono; [exact Hap | lia | lia].
      - consts. by rewrite Hbp. }
    intros [] s2 (He & Hh2 & _ & H1 & H2 & Hfr2). cbv beta. simpl app in *.
    replace (needed n + (avail - needed n)) with avail in * by lia.
    replace (b + needed n + (avail - needed n) - 16) with (b + avail - 16) in * by lia.
    split_and!; [done | by eapply same_host_trans | done | done |].
    intros a Ha Hcell. rewrite Hfr2, Hfr1; [done | done | done | lia | lia | lia |].
    simpl. unfold prev_field, next_field. rewrite !not_elem_of_cons.
    split_and!; [lia | lia | done].
  - destruct Hpost as (Hhd & Hft & Hefl1 & Hfr1).
    eapply returns_mono.
    { apply (mm_free_11 s1 (la ++ lb) b (PACK avail 1) avail szP szN); try done.
      - by apply size_of_PACK.
      - rewrite Hfr1; [done | lia | lia | apply Hnc; lia].
      - rewrite Hfr1; [done | lia | lia | apply Hnc; lia].
      - rewrite Hfr1; [done | lia | lia | apply Hnc; lia].
      - lia.
      - apply Hd1, Hsome; destruct Hav; lia.
      - apply Hd1, Hsome; destruct Hav; lia.
      - consts. by rewrite Hbp. }
    intros [] s2 (He & Hh2 & _ & H1 & H2 & Hfr2). cbv beta.
    split_and!; [done | by eapply same_host_trans | done | done |].
    intros a Ha Hcell. rewrite Hfr2, Hfr1; [done | lia | lia | done | lia | lia |].
    simpl. unfold prev_field, next_field. rewrite !not_elem_of_cons.
    split_and!; [lia | lia | done].
Qed.


(** ** [extend] and the growth of the heap *)

Lemma pow2_16 k : 4 <= k → ∃ p, 0 < p ∧ 2 ^ k = 16 * p.
Proof.
  intros Hk. exists (2 ^ (k - 4)). split; [apply Z.pow_pos_nonneg; lia |].
  replace k with (4 + (k - 4)) at 1 by lia. rewrite Z.pow_add_r by lia. done.
Qed.

Lemma extend_len_facts k size :
  4 <= k → 0 < size →
  64 <= PAGERATIO * align_up size (2 ^ k) ∧
  (PAGERATIO * align_up size (2 ^ k)) mod 16 = 0 ∧
  size <= align_up size (2 ^ k).
Proof.
  intros Hk Hs. destruct (pow2_16 k Hk) as (p & Hp & ->).
  unfold align_up, PAGERATIO.
  assert (Hq : 1 <= (size + 16 * p - 1) / (16 * p)).
  { apply Z.div_le_lower_bound; lia. }
  pose proof (Z.mul_div_le (size + 16 * p - 1) (16 * p) ltac:(lia)) as Hle.
  pose proof (Z.mod_pos_bound (size + 16 * p - 1) (16 * p) ltac:(lia)) as Hmb.
  pose proof (Z.div_mod (size + 16 * p - 1) (16 * p) ltac:(lia)) as Hdm.
  set (q := (size + 16 * p - 1) / (16 * p)) in *.
  set (r := (size + 16 * p - 1) mod (16 * p)) in *.
  split_and!.
  - assert (16 <= 16 * p * q) by nia. lia.
  - replace (10 * (16 * p * q)) with ((10 * p * q) * 16) by lia. apply Z.mod_mul. lia.
  - lia.
Qed.

Lemma extend_mem_mapped m base len h i :
  0 <= i < len / 8 → is_Some (extend_mem m base len h !! (base + 8 * i)).
Proof.
  intros Hi. rewrite extend_mem_lookup. repeat case_decide; eauto.
  rewrite zero_fill_in; [eauto | lia].
Qed.

(** [extend] on a provider that grants the region, in full. *)
Lemma extend_grants s size base rest L k :
  pagesize s = 2 ^ k → 4 <= k → 0 < size →
  PAGERATIO * align_up size (2 ^ k) < 2 ^ 64 →
  answers s = base :: rest → 0 < base → efl s L →
  Forall (λ c, ¬ in_range base (PAGERATIO * align_up size (2 ^ k)) c) (cells L) →
  returns (extend size) s (λ _ s',
    efl s' (base + 32 :: L) ∧
    mem s' !! (base + 24) = Some (PACK (PAGERATIO * align_up size (2 ^ k) - 32) 0) ∧
    mapped_words (mem s') base (PAGERATIO * align_up size (2 ^ k) / 8) ∧
    basePage s' = (if decide (basePage s = NULL) then base else basePage s) ∧
    pagesize s' = pagesize s ∧ answers s' = rest ∧
    regions s' = (base, PAGERATIO * align_up size (2 ^ k)) :: regions s ∧
    unmaps s' = unmaps s ∧
    (∀ a, ¬ in_range base (PAGERATIO * align_up size (2 ^ k)) a → a ∉ cells L →
          mem s' !! a = mem s !! a)).
Proof.
  intros Hps Hk Hsz Hb Hans Hbase Hefl Hout.
  destruct (extend_bytes_exact k size ltac:(lia) Hsz Hb) as [Hlen Hfit].
  destruct (extend_len_facts k size Hk Hsz) as (H64 & Hm16 & _).
  rewrite <- Hlen, <- Hps in *.
  set (len := extend_bytes (pagesize s) size) in *.
  destruct (extend_Ret s size base rest L) as
    (s' & Hex & Hefl' & _ & _ & Hh & _ & _ & Hbp & Hpg & Han & Hrg & Hun & Hfr);
    try done.
  eapply returns_Ret; [exact Hex |]. split_and!; try done.
  pose proof Hex as Hex'. rewrite (extend_exec s size base rest) in Hex'; try done.
  - injection Hex' as <-. st_simpl. fold len.
    apply Forall_forall. intros i Hi%elem_of_seqZ. apply extend_mem_mapped. lia.
  - unfold NULL. lia.
  - intros Hnf. destruct Hefl as (Hh0 & Hd & _). eapply dll_mapped; [exact Hd |].
    rewrite Hh0 in *. by apply hd_cells.
Qed.


Lemma needed_clamp n : needed (if decide (n <= MINSIZE) then MINSIZE else n) = needed n.
Proof. unfold needed. consts. f_equal. case_decide; lia. Qed.


Lemma fresh_region_apart base len L :
  64 <= len → Forall (λ c, ¬ in_range base len c) (cells L) →
  apart (base + 24) (base + len - 8) L.
Proof.
  intros Hlen Hout. apply Forall_forall. intros x Hx.
  assert (H0 : ¬ in_range base len x).
  { eapply Forall_cells_out; [exact Hout |]. apply elem_of_cells. eauto. }
  assert (H8 : ¬ in_range base len (x + 8)).
  { eapply Forall_cells_out; [exact Hout |]. apply elem_of_cells. eauto. }
  unfold in_range in *. lia.
Qed.

(** The block [mm_malloc] hands out from a region it has just been granted. *)
Lemma mm_malloc_fresh_block s1 L n len base fuel :
  0 < n → n + 31 < 2 ^ 64 → 0 < base →
  64 <= len < 2 ^ 64 → len mod 16 = 0 → needed n <= len - 32 →
  efl s1 (base + 32 :: L) →
  mem s1 !! (base + 24) = Some (PACK (len - 32) 0) →
  mapped_words (mem s1) base (len / 8) →
  Forall (λ c, ¬ in_range base len c) (cells L) →
  (1 < fuel)%nat →
  returns (mm_malloc fuel n) s1 (λ r s',
    r = base + 32 ∧ same_host s1 s' ∧
    ∃ sz, mem s' !! (base + 24) = Some (PACK sz 1) ∧ needed n <= sz).
Proof.
  intros Hn Hnb Hbase Hlen Hm16 Hfit Hefl Hh Hmap Hout Hfuel.
  assert (Hok : size_ok (len - 32)) by (unfold size_ok; lia).
  eapply returns_mono.
  { apply (mm_malloc_fit s1 [] (base + 32) L n (len - 32) fuel); try done.
    - lia.
    - by replace (base + 32 - 8) with (base + 24) by lia.
    - eapply mapped_words_sub; [exact Hmap | lia | lia | lia | lia].
    - simpl. replace (base + 32 - 8) with (base + 24) by lia.
      replace (base + 32 + (len - 32) - 8) with (base + len - 8) by lia.
      apply fresh_region_apart; [lia | done]. }
  intros r s' (-> & Hh2 & _ & Hpost). cbv beta.
  replace (base + 32 - 8) with (base + 24) in Hpost by lia.
  split; [done |]. split; [done |].
  case_decide.
  - destruct Hpost as (H1 & _). eexists. split; [exact H1 | lia].
  - destruct Hpost as (H1 & _). eexists. split; [exact H1 | lia].
Qed.

(** X13.  For a request of [n > 0] bytes whose size computation does not wrap
    ([PAGERATIO] times [needed n] rounded up to whole pages is below [2^64]),
    with a page size that is a power of two, at least 16, when no block of the
    EFL is large enough and the provider grants a region at [base] that holds
    no link field of the EFL: [mm_malloc] maps exactly one region, of
    [PAGERATIO] times the page-rounded block size, and returns the payload
    [base + PAGEOVERHEAD] of its block, marked allocated and large enough. *)
Theorem mm_malloc_extends s L n base rest k fuel :
  0 < n → pagesize s = 2 ^ k → 4 <= k →
  PAGERATIO * align_up (needed n) (2 ^ k) < 2 ^ 64 →
  efl s L → Forall (too_small s (needed n)) L →
  answers s = base :: rest → 0 < base →
  Forall (λ c, ¬ in_range base (PAGERATIO * align_up (needed n) (2 ^ k)) c) (cells L) →
  (length L + 2 < fuel)%nat →
  returns (mm_malloc fuel n) s (λ r s',
    r = base + PAGEOVERHEAD ∧
    regions s' = (base, PAGERATIO * align_up (needed n) (2 ^ k)) :: regions s ∧
    answers s' = rest ∧ unmaps s' = unmaps s ∧
    ∃ sz, mem s' !! HDRP r = Some (PACK sz 1) ∧ needed n <= sz).
Proof.
  intros Hn Hps Hk Hb Hefl Hsmall Hans Hbase Hout Hfuel.
  pose proof (needed_bounds n Hn) as (Hn32 & Hn16 & Hnm).
  destruct (extend_len_facts k (needed n) Hk ltac:(lia)) as (H64 & Hm16 & Hle).
  destruct (extend_bytes_exact k (needed n) ltac:(lia) ltac:(lia) Hb) as [Hlen Hfit].
  rewrite Hlen in Hfit. unfold PAGERATIO in *. consts.
  set (len := 10 * align_up (needed n) (2 ^ k)) in *.
  assert (Hnb : n + 31 < 2 ^ 64) by lia.
  destruct fuel as [| fuel]; [lia |].
  rewrite mm_malloc_unfold, decide_False by lia. cbv zeta.
  rewrite sizeAlign_of_needed by done.
  rstep ltac:(reflexivity).
  pose proof Hefl as (Hh & Hd & _). rewrite Hh.
  rstep ltac:(rewrite (mm_malloc_walk_all_small s L _ NULL fuel Hd Hsmall);
              rewrite decide_True by lia; reflexivity).
  cbv beta iota.
  destruct (extend_grants s (needed n) base rest L k) as
    ([] & s1 & Hex & Hefl1 & Hh1 & Hmap1 & _ & _ & Han & Hrg & Hun & _); try done.
  { lia. }
  rstep ltac:(exact Hex).
  eapply returns_mono.
  { apply (mm_malloc_fresh_block s1 L _ len base fuel); try done.
    - consts. case_decide; lia.
    - consts. case_decide; lia.
    - by rewrite needed_clamp.
    - lia. }
  intros r s' (-> & (_ & _ & Han2 & Hrg2 & Hun2) & sz & Hsz & Hge). cbv beta.
  rewrite needed_clamp in Hge.
  split_and!; [done | by rewrite Hrg2 | by rewrite Han2 | by rewrite Hun2 |].
  exists sz. replace (base + 32 - 8) with (base + 24) by lia. done.
Qed.


(** ** What the public operations do to the provider *)

Section keeps.
Variable R : state → state → Prop.
Hypothesis R_refl : ∀ s, R s s.
Hypothesis R_trans : ∀ s1 s2 s3, R s1 s2 → R s2 s3 → R s1 s3.
Hypothesis R_heap : ∀ s s', same_host s s' → same_domain s s' → R s s'.

Lemma keeps_ret {A} (a : A) : keeps R (ret a).
Proof. intros s a' s' [= _ <-]. apply R_refl. Qed.

Lemma keeps_bind {A B} (c : M A) (k : A → M B) :
    keeps R c → (∀ a, keeps R (k a)) → keeps R (bind c k).
Proof.
  intros Hc Hk s b s' (a & s1 & H1 & H2)%bind_Ret_inv.
  eapply R_trans; [by eapply Hc | by eapply Hk].
Qed.

Lemma keeps_heap_only {A} (c : M A) : heap_only c → keeps R c.
Proof. intros Hc s a s' H. destruct (Hc _ _ _ H). by apply R_heap. Qed.
End keeps.

Lemma alloc_effect_refl s : alloc_effect s s.
Proof. by unfold alloc_effect. Qed.

Lemma alloc_effect_trans s1 s2 s3 :
  alloc_effect s1 s2 → alloc_effect s2 s3 → alloc_effect s1 s3.
Proof.
  intros (Hu & Hp & Hb & Hm & Hr & Ha) (Hu' & Hp' & Hb' & Hm' & Hr' & Ha').
  split_and!.
  - by rewrite Hu', Hu.
  - by rewrite Hp', Hp.
  - intros Hn. rewrite Hb', Hb; [done | done |]. by rewrite Hb.
  - eauto.
  - by etrans.
  - by etrans.
Qed.

Lemma alloc_effect_heap s s' : same_host s s' → same_domain s s' → alloc_effect s s'.
Proof.
  intros (Hb & Hp & Ha & Hr & Hu) Hd. split_and!; try done.
  - intros a. apply Hd.
  - by rewrite Hr.
  - by rewrite Ha.
Qed.

Lemma keeps_mem_map size : keeps alloc_effect (mem_map size).
Proof.
  intros s a s'. unfold mem_map. destruct (answers s) as [| x rest] eqn:Ha.
  - intros [= _ <-]. apply alloc_effect_refl.
  - case_decide.
    + intros [= _ <-]. split_and!; try done. simpl. rewrite Ha. by apply suffix_cons_r.
    + intros [= _ <-]. split_and!; try done; simpl.
      * intros p. apply zero_fill_mono.
      * by apply suffix_cons_r.
      * rewrite Ha. by apply suffix_cons_r.
Qed.

Lemma keeps_set_basePage_once p :
  keeps alloc_effect
    (base <- get_basePage ;; if decide (base = NULL) then set_basePage p else ret tt).
Proof.
  intros s a s'. unfold bind, get_basePage. case_decide as Hb.
  - intros [= _ <-]. split_and!; done.
  - intros [= _ <-]. apply alloc_effect_refl.
Qed.

Lemma keeps_extend size : keeps alloc_effect (extend size).
Proof.
  unfold extend.
  apply (keeps_bind _ alloc_effect_trans);
    [apply (keeps_heap_only _ alloc_effect_heap), heap_only_mem_pagesize | intros ps].
  cbv zeta.
  apply (keeps_bind _ alloc_effect_trans); [apply keeps_mem_map | intros pageAdr].
  case_decide; [apply (keeps_ret _ alloc_effect_refl) |].
  repeat (apply (keeps_bind _ alloc_effect_trans);
    [ apply (keeps_heap_only _ alloc_effect_heap);
      first [ apply heap_only_PUT | apply heap_only_FTRP | apply heap_only_addEFLNode ]
    | intros ? ]).
  apply keeps_set_basePage_once.
Qed.

(** X15.  Whenever [mm_malloc] returns: it has issued no [mem_unmap], every
    address that held a word still holds one, regions have only been added,
    the page size is the same, and [basePage], once set, is the same. *)
Theorem mm_malloc_provider_calls fuel n s r s' :
  mm_malloc fuel n s = Ret r s' →
  unmaps s' = unmaps s ∧ pagesize s' = pagesize s ∧
  (basePage s ≠ NULL → basePage s' = basePage s) ∧
  (∀ a, is_Some (mem s !! a) → is_Some (mem s' !! a)) ∧
  regions s `suffix_of` regions s' ∧ answers s' `suffix_of` answers s.
Proof.
  revert s r s'. change (keeps alloc_effect (mm_malloc fuel n)).
  revert n. induction fuel as [| fuel IH]; intros n; [done |].
  rewrite mm_malloc_unfold. case_decide; [apply (keeps_ret _ alloc_effect_refl) |].
  cbv zeta.
  apply (keeps_bind _ alloc_effect_trans);
    [apply (keeps_heap_only _ alloc_effect_heap), heap_only_get_nextFree | intros avail].
  apply (keeps_bind _ alloc_effect_trans);
    [apply (keeps_heap_only _ alloc_effect_heap), heap_only_mm_malloc_walk | intros found].
  destruct found as [p |]; [apply (keeps_ret _ alloc_effect_refl) |].
  apply (keeps_bind _ alloc_effect_trans); [apply keeps_extend | intros ?]. apply IH.
Qed.

Lemma release_effect_step {A} (c : M A) s a s1 s' :
  heap_only c → c s = Ret a s1 → release_effect s1 s' → release_effect s s'.
Proof.
  intros Hc H (Ha & Hp & Hb & Hm & Hu).
  destruct (Hc _ _ _ H) as [(Hb1 & Hp1 & Ha1 & Hr1 & Hu1) Hd1].
  split_and!.
  - by rewrite Ha, Ha1.
  - by rewrite Hp, Hp1.
  - by rewrite Hb, Hb1.
  - intros p Hs. by apply Hd1, Hm.
  - destruct Hu as [[Hu Hr] | (start & size & Hu & Hne)].
    + left. by rewrite Hu, Hr, Hu1, Hr1.
    + right. exists start, size. by rewrite Hu, Hu1, <- Hb1.
Qed.

Lemma release_effect_refl s : release_effect s s.
Proof. unfold release_effect. split_and!; auto. Qed.

Ltac release_peel H lem a s1 :=
  let Hc := fresh "Hc" in
  apply bind_Ret_inv in H as (a & s1 & Hc & H);
  apply (release_effect_step _ _ _ _ _ lem Hc);
  clear Hc.

(** X16.  Whenever [mm_free] returns: it has not called [mem_map], has mapped
    no new address, has left [basePage] and the page size alone, and has
    issued at most one [mem_unmap], never for the region at [basePage]. *)
Theorem mm_free_provider_calls b s r s' :
  mm_free b s = Ret r s' →
  answers s' = answers s ∧ pagesize s' = pagesize s ∧ basePage s' = basePage s ∧
  (∀ a, is_Some (mem s' !! a) → is_Some (mem s !! a)) ∧
  (unmaps s' = unmaps s ∧ regions s' = regions s ∨
   ∃ start size, unmaps s' = (start, size) :: unmaps s ∧ start ≠ basePage s).
Proof.
  intros H. change (release_effect s s'). unfold mm_free in H.
  release_peel H (heap_only_GET_SIZE (HDRP b)) sz0 s1.
  release_peel H (heap_only_PUT (HDRP b) (PACK sz0 0)) u1 s2.
  release_peel H (heap_only_FTRP b) f s3.
  release_peel H (heap_only_PUT f (PACK sz0 0)) u2 s4.
  release_peel H (heap_only_coalesce b) bp1 s5.
  release_peel H (heap_only_GET_SIZE (HDRP bp1)) sz1 s6.
  release_peel H (heap_only_PREV_BLKP bp1) pv s7.
  release_peel H (heap_only_GET_SIZE (HDRP pv)) psz s8.
  case_decide; [| unfold ret in H; simplify_eq; apply release_effect_refl].
  release_peel H (heap_only_NEXT_BLKP bp1) nx s9.
  release_peel H (heap_only_GET_SIZE (HDRP nx)) nsz s10.
  case_decide; [| unfold ret in H; simplify_eq; apply release_effect_refl].
  cbv zeta in H. unfold bind at 1, get_basePage in H.
  case_decide as Hbase; [unfold ret in H; simplify_eq; apply release_effect_refl |].
  apply bind_Ret_inv in H as ([] & s11 & Hrm & H).
  destruct (heap_only_removeEFLNode _ _ _ _ Hrm) as [(Hb1 & Hp1 & Ha1 & Hr1 & Hu1) Hd1].
  rewrite mem_unmap_Ret in H. simplify_eq.
  split_and!; simpl; try done.
  - intros p [v Hv]. apply Hd1. apply map_lookup_filter_Some in Hv as [Hv _]. eauto.
  - right. eexists _, _. split; [by rewrite Hu1 | done].
Qed.

(** ** Releasing a block twice *)

(** [mm_free] when the region is not handed back: it ends in the state
    [coalesce] leaves. *)
Lemma mm_free_kept s b w sz r s1 sz' wL hL wR :
  mem s !! (b - 8) = Some w → size_of w = sz →
  is_Some (mem s !! (b + sz - 16)) →
  coalesce b (cleared b sz s) = Ret r s1 →
  mem s1 !! (r - 8) = Some (PACK sz' 0) → size_ok sz' →
  mem s1 !! (r - 16) = Some wL →
  mem s1 !! (r - size_of wL - 8) = Some hL →
  mem s1 !! (r + sz' - 8) = Some wR →
  ¬ (size_of hL = OVERHEAD ∧ size_of wR = 0 ∧
     wrap (r - 2 * OVERHEAD) ≠ basePage s1) →
  mm_free b s = Ret tt s1.
Proof.
  intros Hw Hsz Hf Hco Hr Hsz' HwL HhL HwR Hkeep.
  unfold mm_free. consts.
  mstep ltac:(by apply (GET_SIZE_Ret _ w)).
  mstep ltac:(apply PUT_Ret; eauto).
  mstep ltac:(apply (FTRP_Ret _ (PACK (size_of w) 0)); lk).
  rewrite size_of_idem, Hsz.
  mstep ltac:(apply PUT_Ret; st_simpl; by rewrite is_Some_insert by (by eexists)).
  mstep ltac:(exact Hco).
  mstep ltac:(by apply (GET_SIZE_Ret _ (PACK sz' 0))). rewrite size_of_PACK by auto.
  mstep ltac:(by apply (PREV_BLKP_Ret _ wL)).
  mstep ltac:(by apply (GET_SIZE_Ret _ hL)).
  destruct (decide (size_of hL = 16)) as [HhL16 | HhL16]; [| done].
  mstep ltac:(by apply (NEXT_BLKP_Ret _ (PACK sz' 0))). rewrite size_of_PACK by auto.
  mstep ltac:(by apply (GET_SIZE_Ret _ wR)).
  destruct (decide (size_of wR = 0)) as [HwR0 | HwR0]; [| done].
  mstep ltac:(reflexivity).
  destruct (decide (wrap (r - 2 * 16) = basePage s1)) as [Hbase | Hbase]; [done |].
  exfalso. apply Hkeep. done.
Qed.

Lemma mm_malloc_walk_self_loop s b w sa fuel :
  b ≠ NULL → mem s !! (b - 8) = Some w → size_of w < sa →
  mem s !! next_field b = Some b →
  mm_malloc_walk fuel sa b s = OutOfFuel.
Proof.
  intros Hb Hw Hsz Hnx. induction fuel as [| fuel IH]; [done |].
  rewrite mm_malloc_walk_unfold, decide_True by done. consts.
  rewrite (bind_Ret _ _ _ _ _ (GET_SIZE_Ret _ _ _ Hw)).
  rewrite decide_False by lia.
  by rewrite (bind_Ret _ _ _ _ _ (GET_Ret _ _ _ Hnx)).
Qed.

(** X17.  [mm_free] does not look at the allocation bit: when the block [b]
    it is given is already free and is the head of the EFL (its neighbours
    allocated, its region not handed back), [addEFLNode] links [b] to itself;
    afterwards [nextFree] is [b], the [next] field of [b] is [b], and every
    request of [n] bytes with [0 < n], [n + 31 < 2^64] and [needed n] above the
    size of [b] makes the walk of [mm_malloc] go round for ever. *)
Theorem mm_free_twice_loops s L b sz szP szN :
  efl s (b :: L) → 2 * OVERHEAD <= b < 2 ^ 64 →
  mem s !! (b - 8) = Some (PACK sz 0) →
  is_Some (mem s !! (b + sz - 16)) →
  mem s !! (b - 16) = Some (PACK szP 1) →
  mem s !! (b - szP - 8) = Some (PACK szP 1) →
  mem s !! (b + sz - 8) = Some (PACK szN 1) →
  size_ok sz → size_ok szP → size_ok szN → 32 <= sz → 16 <= szP →
  ¬ (szP = OVERHEAD ∧ szN = 0 ∧ b - 2 * OVERHEAD ≠ basePage s) →
  returns (mm_free b) s (λ _ s',
    nextFree s' = b ∧ mem s' !! next_field b = Some b ∧
    mem s' !! HDRP b = Some (PACK sz 0) ∧
    ∀ n fuel, 0 < n → n + 31 < 2 ^ 64 → sz < needed n →
              mm_malloc fuel n s' = OutOfFuel).
Proof.
  intros (Hnf & Hd & _) Hb Hhdr Hft HP HPh HN Hsok HPok HNok H32 H16 Hkeep.
  simpl in Hnf, Hd. destruct Hd as (Hb0 & Hbp & Hbn & _). consts.
  set (c := cleared b sz s).
  assert (Hcl : ∀ a v, mem s !! a = Some v → a ≠ b + sz - 16 → a ≠ b - 8 →
                       mem c !! a = Some v).
  { intros a v. apply cleared_other. }
  assert (Hch : mem c !! (b - 8) = Some (PACK sz 0)).
  { unfold c. rewrite cleared_lookup. repeat case_decide; done. }
  set (s1 := with_nextFree b (with_mem (link (mem c) b b) c)).
  assert (Hco : coalesce b c = Ret b s1).
  { unfold coalesce. consts.
    mstep ltac:(apply (PREV_BLKP_Ret _ (PACK szP 1)); apply Hcl; [done | lia | lia]).
    rewrite !size_of_PACK by auto.
    mstep ltac:(apply (FTRP_Ret _ (PACK szP 1)); apply Hcl; [done | lia | lia]).
    rewrite !size_of_PACK by auto.
    replace (b - szP + szP - 16) with (b - 16) by lia.
    mstep ltac:(apply (GET_ALLOC_Ret _ (PACK szP 1)); apply Hcl; [done | lia | lia]).
    rewrite alloc_of_PACK by auto.
    mstep ltac:(by apply (NEXT_BLKP_Ret _ (PACK sz 0))). rewrite !size_of_PACK by auto.
    mstep ltac:(apply (GET_ALLOC_Ret _ (PACK szN 1)); apply Hcl; [done | lia | lia]).
    rewrite alloc_of_PACK by auto.
    mstep ltac:(by apply (GET_SIZE_Ret _ (PACK sz 0))). rewrite !size_of_PACK by auto.
    rewrite decide_True by done.
    mstep ltac:(apply addEFLNode_Ret).
    - eexists. apply Hcl; [exact Hbp | lia | lia].
    - eexists. apply Hcl; [exact Hbn | lia | lia].
    - intros _. change (nextFree c) with (nextFree s). rewrite Hnf.
      eexists. apply Hcl; [exact Hbp | lia | lia].
    - change (nextFree c) with (nextFree s). by rewrite Hnf. }
  assert (Hlk : ∀ a v, mem c !! a = Some v → a ≠ b → a ≠ b + 8 → mem s1 !! a = Some v).
  { intros a v Hv H0 H8. unfold s1. st_simpl. rewrite link_lookup.
    rewrite decide_False by (intros [_ ?]; done).
    by rewrite !decide_False by done. }
  assert (Hnx : mem s1 !! (b + 8) = Some b).
  { unfold s1. st_simpl. rewrite link_lookup.
    rewrite decide_False by (intros [_ ?]; lia). by rewrite decide_True. }
  assert (Hfree : mm_free b s = Ret tt s1).
  { apply (mm_free_kept s b (PACK sz 0) sz b s1 sz (PACK szP 1) (PACK szP 1) (PACK szN 1));
      try done.
    - by apply size_of_PACK.
    - apply Hlk; [done | lia | lia].
    - apply Hlk; [| lia | lia]. apply Hcl; [done | lia | lia].
    - rewrite size_of_PACK by auto. apply Hlk; [| lia | lia]. apply Hcl; [done | lia | lia].
    - apply Hlk; [| lia | lia]. apply Hcl; [done | lia | lia].
    - rewrite !size_of_PACK by auto. consts. rewrite wrap_small by lia.
      intros (? & ? & ?). apply Hkeep. done. }
  eapply returns_Ret; [exact Hfree |].
  split_and!; [done | done | apply Hlk; [done | lia | lia] |].
  intros n fuel Hn Hnb Hbig.
  destruct fuel as [| fuel]; [done |].
  rewrite mm_malloc_unfold, decide_False by lia. cbv zeta.
  rewrite sizeAlign_of_needed by done.
  unfold bind at 1, get_nextFree. change (nextFree s1) with b. unfold bind at 1.
  rewrite (mm_malloc_walk_self_loop s1 b (PACK sz 0)); try done.
  - apply Hlk; [done | lia | lia].
  - by rewrite size_of_PACK by auto.
Qed.

(** ** Releasing adjacent blocks *)

(** [mm_free] of a block whose predecessor is free and whose successor is
    allocated, when the region is not handed back. *)
Lemma mm_free_01 s L b w sz szP szN szPP :
  efl s L → b - szP ∈ L → 2 * OVERHEAD <= b - szP → b < 2 ^ 64 →
  mem s !! (b - 8) = Some w → size_of w = sz →
  is_Some (mem s !! (b + sz - 16)) →
  mem s !! (b - 16) = Some (PACK szP 0) →
  mem s !! (b - szP - 8) = Some (PACK szP 0) →
  mem s !! (b + sz - 8) = Some (PACK szN 1) →
  mem s !! (b - szP - 16) = Some (PACK szPP 1) →
  mem s !! (b - szP - szPP - 8) = Some (PACK szPP 1) →
  size_ok sz → size_ok szP → size_ok szN → size_ok szPP →
  32 <= sz → 32 <= szP → 16 <= szPP → sz + szP < 2 ^ 64 →
  (∀ n, n ∈ L → n ≠ b - szP → n + 16 <= b - szP - szPP - 8 ∨ b + sz <= n) →
  ¬ (szPP = OVERHEAD ∧ szN = 0 ∧ b - szP - 2 * OVERHEAD ≠ basePage s) →
  returns (mm_free b) s (λ _ s',
    efl s' L ∧ same_host s s' ∧ same_domain s s' ∧
    mem s' !! (b - szP - 8) = Some (PACK (sz + szP) 0) ∧
    mem s' !! (b + sz - 16) = Some (PACK (sz + szP) 0) ∧
    ∀ a, a ≠ b - 8 → a ≠ b - szP - 8 → a ≠ b + sz - 16 →
         mem s' !! a = mem s !! a).
Proof.
  intros Hefl Hin Hb Hb64 Hw Hsz Hft HP HPh HN HPP HPPh Hsok HPok HNok HPPok
    H32 H32P H16 Hsum Hothers Hkeep.
  consts.
  assert (Hnc : ∀ a, b - szP + 16 <= a < b + sz → a ∉ cells L).
  { intros a Ha (n & Hn & Hor)%elem_of_cells.
    destruct (decide (n = b - szP)) as [-> | Hne]; [lia |].
    specialize (Hothers n Hn Hne). lia. }
  assert (Hcl : ∀ a v, mem s !! a = Some v → a ≠ b + sz - 16 → a ≠ b - 8 →
                       mem (cleared b sz s) !! a = Some v).
  { intros a v. apply cleared_other. }
  assert (Hsumok : size_ok (sz + szP)).
  { destruct Hsok, HPok. unfold size_ok. lia. }
  destruct (coalesce_01 (cleared b sz s) L b sz szP szN) as
    (r & s1 & Hco & -> & Hefl1 & Hhost1 & _ & Hh1 & Hf1 & Hsome1 & Hfr1); try done.
  { apply cleared_efl; [done | |]; apply Hnc; lia. }
  { rewrite cleared_lookup. repeat case_decide; done. }
  { apply cleared_is_Some; eauto. }
  { apply Hcl; [done | lia | lia]. }
  { apply Hcl; [done | lia | lia]. }
  { apply Hcl; [done | lia | lia]. }
  { intros n Hn Hne. specialize (Hothers n Hn Hne). lia. }
  destruct (heap_only_coalesce _ _ _ _ Hco) as [_ Hdom1].
  destruct Hhost1 as (Hbp & Hrest).
  change (basePage (cleared b sz s)) with (basePage s) in Hbp.
  assert (Hfree : mm_free b s = Ret tt s1).
  { apply (mm_free_kept s b w sz (b - szP) s1 (sz + szP) (PACK szPP 1) (PACK szPP 1)
             (PACK szN 1)); try done.
    - rewrite Hfr1 by lia. apply Hcl; [done | lia | lia].
    - rewrite size_of_PACK by auto. rewrite Hfr1 by lia. apply Hcl; [done | lia | lia].
    - rewrite Hfr1 by lia. apply Hcl; [| lia | lia].
      by replace (b - szP + (sz + szP) - 8) with (b + sz - 8) by lia.
    - rewrite !size_of_PACK by auto. consts. rewrite wrap_small by lia. rewrite Hbp.
      intros (? & ? & ?). apply Hkeep. done. }
  eapply returns_Ret; [exact Hfree |]. split_and!.
  - done.
  - split; [done |]. exact Hrest.
  - intros a. etrans; [apply Hdom1 |]. apply same_domain_cleared; eauto.
  - done.
  - by replace (b + sz - 16) with (b - szP + (sz + szP) - 16) by lia.
  - intros a Ha1 Ha2 Ha3. rewrite Hfr1 by done. rewrite cleared_lookup.
    repeat case_decide; first [done | lia].
Qed.

(** X18.  Two adjacent allocated blocks, at [a] and [a + szA], between
    allocated neighbours: released in either order they end up as one free
    block at [a] of size [szA + szB], header and footer, which is the head of
    the EFL; the other nodes of the EFL are as before. *)
Theorem mm_free_adjacent_merge s L a szA szB szP szN :
  efl s L → 2 * OVERHEAD <= a → a + szA < 2 ^ 64 →
  mem s !! (a - 8) = Some (PACK szA 1) →
  mem s !! (a + szA - 16) = Some (PACK szA 1) →
  mem s !! (a + szA - 8) = Some (PACK szB 1) →
  mem s !! (a - 16) = Some (PACK szP 1) →
  mem s !! (a - szP - 8) = Some (PACK szP 1) →
  mem s !! (a + szA + szB - 8) = Some (PACK szN 1) →
  size_ok szA → size_ok szB → size_ok szP → size_ok szN →
  32 <= szA → 32 <= szB → 16 <= szP → szA + szB < 2 ^ 64 →
  mapped_words (mem s) (a - 8) ((szA + szB) / 8) →
  apart (a - szP - 8) (a + szA + szB) L →
  ¬ (szP = OVERHEAD ∧ szN = 0 ∧ a - 2 * OVERHEAD ≠ basePage s) →
  returns (mm_free a ;;; mm_free (a + szA)) s (λ _ s',
    efl s' (a :: L) ∧ same_host s s' ∧
    mem s' !! (a - 8) = Some (PACK (szA + szB) 0) ∧
    mem s' !! (a + szA + szB - 16) = Some (PACK (szA + szB) 0)) ∧
  returns (mm_free (a + szA) ;;; mm_free a) s (λ _ s',
    efl s' (a :: L) ∧ same_host s s' ∧
    mem s' !! (a - 8) = Some (PACK (szA + szB) 0) ∧
    mem s' !! (a + szA + szB - 16) = Some (PACK (szA + szB) 0)).
Proof.
  intros Hefl Ha Ha64 HA HAf HB HP HPh HN HAok HBok HPok HNok H32A H32B H16 Hsum
    Hmap Hap Hkeep.
  consts.
  assert (Hsome : ∀ x, a - 8 <= x < a - 8 + (szA + szB) → (x - (a - 8)) mod 8 = 0 →
                       is_Some (mem s !! x)).
  { intros x Hx Hm. apply (mapped_words_lookup _ (a - 8) ((szA + szB) / 8));
      [done | | done]. destruct HAok, HBok. lia. }
  assert (Hnc : ∀ x, a - szP - 8 <= x < a + szA + szB → x ∉ cells L).
  { intros x Hx. by eapply apart_not_cell. }
  assert (Hnode : ∀ n, n ∈ L → n + 16 <= a - szP - 8 ∨ a + szA + szB <= n).
  { intros n Hn. by apply (proj1 (Forall_forall _ _) Hap). }
  pose proof HAok as [HAr HAm]. pose proof HBok as [HBr HBm].
  split.
  - destruct (mm_free_11 s L a (PACK szA 1) szA szP szB) as
      ([] & s1 & Hfree1 & Hefl1 & Hh1 & Hd1 & Hhd1 & Hft1 & Hfr1); try done.
    { consts. lia. }
    { by apply size_of_PACK. }
    { apply Hsome; lia. }
    { apply Hsome; lia. }
    { eapply apart_mono; [exact Hap | lia | lia]. }
    { consts. lia. }
    rstep ltac:(exact Hfree1).
    assert (Hkept : ∀ x v, mem s !! x = Some v → a - szP - 8 <= x < a + szA + szB →
                           x ≠ a - 8 → x ≠ a + szA - 16 → x ≠ a → x ≠ a + 8 →
                           mem s1 !! x = Some v).
    { intros x v Hv Hx H1 H2 H3 H4. rewrite Hfr1; [done | done | done |].
      simpl. unfold prev_field, next_field. rewrite !not_elem_of_cons.
      split_and!; [done | done | by apply Hnc]. }
    assert (Hbp : basePage s1 = basePage s) by apply Hh1.
    eapply returns_mono.
    { apply (mm_free_01 s1 (a :: L) (a + szA) (PACK szB 1) szB szA szN szP);
        try done.
      - replace (a + szA - szA) with a by lia. apply elem_of_cons. by left.
      - consts. lia.
      - apply Hkept; [done | lia | lia | lia | lia | lia].
      - by apply size_of_PACK.
      - apply Hd1, Hsome; lia.
      - by replace (a + szA - szA - 8) with (a - 8) by lia.
      - apply Hkept; [done | lia | lia | lia | lia | lia].
      - replace (a + szA - szA - 16) with (a - 16) by lia.
        apply Hkept; [done | lia | lia | lia | lia | lia].
      - replace (a + szA - szA - szP - 8) with (a - szP - 8) by lia.
        apply Hkept; [done | lia | lia | lia | lia | lia].
      - lia.
      - intros n [-> | Hn]%elem_of_cons Hne; [lia |]. specialize (Hnode n Hn). lia.
      - consts. replace (a + szA - szA - 2 * 16) with (a - 2 * 16) by lia.
        by rewrite Hbp. }
    intros [] s2 (He & Hh2 & _ & H1 & H2 & _). cbv beta.
    replace (a + szA - szA - 8) with (a - 8) in H1 by lia.
    replace (szB + szA) with (szA + szB) in * by lia.
    split_and!; [done | by eapply same_host_trans | done | done].
  - destruct (mm_free_11 s L (a + szA) (PACK szB 1) szB szA szN) as
      ([] & s1 & Hfree1 & Hefl1 & Hh1 & Hd1 & Hhd1 & Hft1 & Hfr1); try done.
    { consts. lia. }
    { by apply size_of_PACK. }
    { by replace (a + szA - szA - 8) with (a - 8) by lia. }
    { lia. }
    { apply Hsome; lia. }
    { apply Hsome; lia. }
    { apply Hsome; lia. }
    { eapply apart_mono; [exact Hap | lia | lia]. }
    { consts. lia. }
    rstep ltac:(exact Hfree1).
    assert (Hkept : ∀ x v, mem s !! x = Some v → a - szP - 8 <= x < a + szA + szB →
                           x ≠ a + szA - 8 → x ≠ a + szA + szB - 16 →
                           x ≠ a + szA → x ≠ a + szA + 8 →
                           mem s1 !! x = Some v).
    { intros x v Hv Hx H1 H2 H3 H4. rewrite Hfr1; [done | done | done |].
      simpl. unfold prev_field, next_field. rewrite !not_elem_of_cons.
      split_and!; [done | done | by apply Hnc]. }
    assert (Hbp : basePage s1 = basePage s) by apply Hh1.
    eapply returns_mono.
    { apply (mm_free_10 s1 [] L a (PACK szA 1) szA szP szB szN); try done.
      - consts. lia.
      - apply Hkept; [done | lia | lia | lia | lia | lia].
      - by apply size_of_PACK.
      - apply Hkept; [done | lia | lia | lia | lia | lia].
      - apply Hkept; [done | lia | lia | lia | lia | lia].
      - apply Hkept; [done | lia | lia | lia | lia | lia].
      - apply Hd1, Hsome; lia.
      - apply Hd1, Hsome; lia.
      - apply Hd1, Hsome; lia.
      - consts. by rewrite Hbp. }
    intros [] s2 (He & Hh2 & _ & H1 & H2 & _). cbv beta. simpl app in He.
    split_and!; [done | by eapply same_host_trans | done | done].
Qed.

(** ** The result of [mm_malloc] *)

Lemma mm_malloc_walk_Some fuel sa p s q s' :
  mm_malloc_walk fuel sa p s = Ret (Some q) s' → q ≠ NULL.
Proof.
  revert p s. induction fuel as [| fuel IH]; intros p s; [done |].
  rewrite mm_malloc_walk_unfold. case_decide as Hp; [| done].
  intros (sz & s1 & _ & H)%bind_Ret_inv. case_decide.
  - apply bind_Ret_inv in H as ([] & s2 & _ & H). unfold ret in H. by simplify_eq.
  - apply bind_Ret_inv in H as (nx & s2 & _ & H). by eapply IH.
Qed.

(** X19.  Whenever [mm_malloc] returns, the pointer is [NULL] exactly when
    the request was for 0 bytes, and then the state is untouched: a request for
    at least one byte is never answered with [NULL]. *)
Theorem mm_malloc_NULL_iff fuel n s r s' :
  mm_malloc fuel n s = Ret r s' → (r = NULL ↔ n = 0) ∧ (n = 0 → s' = s).
Proof.
  revert n s. induction fuel as [| fuel IH]; intros n s; [done |].
  rewrite mm_malloc_unfold. case_decide as Hn.
  - unfold ret. intros ?. by simplify_eq.
  - cbv zeta. intros (avail & s1 & _ & H)%bind_Ret_inv.
    apply bind_Ret_inv in H as (found & s2 & Hwalk & H).
    destruct found as [p |].
    + unfold ret in H. simplify_eq. apply mm_malloc_walk_Some in Hwalk.
      split; [split |]; done.
    + apply bind_Ret_inv in H as ([] & s3 & _ & H).
      apply IH in H as [Hiff _]. consts.
      split; [| done]. split; [| done].
      intros Hr. apply Hiff in Hr. case_decide; lia.
Qed.

(** ** The further properties on the seed scenarios *)

Ltac small_words :=
  apply Forall_cons; split; [| apply Forall_nil_2];
  eexists; split; [by_run | by_run].

Ltac run2 :=
  match goal with
  | |- efl _ _ => efl_run
  | |- Forall _ _ => first [ apply Forall_nil_2 | dec_run | small_words ]
  | |- (_ < _)%nat => dec_run
  | |- ¬ _ => dec_run
  | |- _ <= _ < _ => dec_run
  | |- _ <= _ => dec_run
  | |- _ < _ => dec_run
  | |- pagesize _ = _ => by_run
  | |- answers _ = _ => by_run
  | |- _ => run1
  end.

(** Witness of X1. *)
Lemma tag_round_trip_witness :
  returns (PUT 65560 (PACK 48 1) ;;;
           x <- GET_SIZE 65560 ;; y <- GET_ALLOC 65560 ;; ret (x, y)) st_init
    (λ r s', r = (48, 1) ∧ ∀ q, q ≠ 65560 → mem s' !! q = mem st_init !! q).
Proof. apply (tag_round_trip st_init 65560 48 1); run2. Defined.

(** Witness of X3. *)
Lemma ALIGN_rounds_up_witness :
  ALIGN 100 mod 16 = 0 ∧
  (100 + 15 < 2 ^ 64 → 100 <= ALIGN 100 < 100 + 16) ∧
  (2 ^ 64 <= 100 + 15 → ALIGN 100 = 0).
Proof. apply (ALIGN_rounds_up 100). lia. Defined.

(** Witness of X2. *)
Lemma block_navigation_witness :
  returns (f <- FTRP 65696 ;; nx <- NEXT_BLKP 65696 ;; pv <- PREV_BLKP nx ;;
           ret (f, nx, pv)) st_xyz
    (λ r s', r = (65696 + 128 - OVERHEAD, 65696 + 128, 65696) ∧ s' = st_xyz).
Proof. apply (block_navigation st_xyz 65696 128 1 1); run2. Defined.

(** Witness of X7. *)
Lemma mm_malloc_small_request_witness :
  mm_malloc 3 5 st_init = mm_malloc 3 MINSIZE st_init.
Proof. apply (mm_malloc_small_request 3 5 st_init). dec_run. Defined.


(** Witness of X5. *)
Lemma removeEFLNode_addEFLNode_witness :
  returns (removeEFLNode 65952 ;;; addEFLNode 65952) st_xz (λ _ s',
    efl s' (65952 :: [65696] ++ []) ∧ same_host st_xz s' ∧
    ∀ a, a ∉ cells ([65696] ++ 65952 :: []) → mem s' !! a = mem st_xz !! a).
Proof. apply (removeEFLNode_addEFLNode st_xz [65696] 65952 []). run2. Defined.



(** Witness of X10. *)
Lemma mm_malloc_then_mm_free_witness :
  returns (p <- mm_malloc 3 150 ;; mm_free p) st_holes (λ _ s',
    efl s' (65952 :: [65696] ++ [66304]) ∧ same_host st_holes s' ∧
    mem s' !! (65952 - 8) = Some (PACK 224 0) ∧
    mem s' !! (65952 + 224 - 16) = Some (PACK 224 0) ∧
    ∀ a, ¬ (65952 - 8 <= a < 65952 + 224 - 8) → a ∉ cells ([65696] ++ [66304]) →
         mem s' !! a = mem st_holes !! a).
Proof.
  apply (mm_malloc_then_mm_free st_holes [65696] 65952 [66304] 150 224 128 128 3);
    run2.
Defined.

(** Witness of X13. *)
Lemma mm_malloc_extends_witness :
  returns (mm_malloc 3 64) st_full (λ r s',
    r = 131072 + PAGEOVERHEAD ∧
    regions s' = (131072, PAGERATIO * align_up (needed 64) (2 ^ 12)) :: regions st_full ∧
    answers s' = [] ∧ unmaps s' = unmaps st_full ∧
    ∃ sz, mem s' !! HDRP r = Some (PACK sz 1) ∧ needed 64 <= sz).
Proof.
  apply (mm_malloc_extends st_full [] 64 131072 [] 12 3); run2.
Defined.


(** Witness of X15. *)
Lemma mm_malloc_provider_calls_witness :
  unmaps (final (mm_malloc 5 64) st_full) = unmaps st_full ∧
  pagesize (final (mm_malloc 5 64) st_full) = pagesize st_full ∧
  (basePage st_full ≠ NULL →
   basePage (final (mm_malloc 5 64) st_full) = basePage st_full) ∧
  (∀ a, is_Some (mem st_full !! a) →
        is_Some (mem (final (mm_malloc 5 64) st_full) !! a)) ∧
  regions st_full `suffix_of` regions (final (mm_malloc 5 64) st_full) ∧
  answers (final (mm_malloc 5 64) st_full) `suffix_of` answers st_full.
Proof.
  apply (mm_malloc_provider_calls 5 64 st_full 131104 (final (mm_malloc 5 64) st_full)).
  apply (result_final (mm_malloc 5 64) st_full 131104). by_run.
Defined.

(** Witness of X16. *)
Lemma mm_free_provider_calls_witness :
  answers (final (mm_free 131104) st_two) = answers st_two ∧
  pagesize (final (mm_free 131104) st_two) = pagesize st_two ∧
  basePage (final (mm_free 131104) st_two) = basePage st_two ∧
  (∀ a, is_Some (mem (final (mm_free 131104) st_two) !! a) →
        is_Some (mem st_two !! a)) ∧
  (unmaps (final (mm_free 131104) st_two) = unmaps st_two ∧
   regions (final (mm_free 131104) st_two) = regions st_two ∨
   ∃ start size, unmaps (final (mm_free 131104) st_two)
                   = (start, size) :: unmaps st_two ∧
                 start ≠ basePage st_two).
Proof.
  apply (mm_free_provider_calls 131104 st_two tt (final (mm_free 131104) st_two)).
  apply (result_final (mm_free 131104) st_two tt). by_run.
Defined.


(** Witness of X8. *)
Lemma mm_malloc_aligned_witness :
  returns (mm_malloc 3 150) st_holes (λ r s',
    r mod ALIGNMENT = 0 ∧
    ∃ L', efl s' L' ∧ Forall (λ x, x mod ALIGNMENT = 0) L').
Proof.
  apply (mm_malloc_aligned st_holes [65696] 65952 [66304] 150 224 3); run2.
Defined.

(** Witness of X9. *)
Lemma mm_malloc_twice_witness :
  returns (p <- mm_malloc 3 150 ;; q <- mm_malloc 3 20 ;; ret (p, q)) st_holes
    (λ r s',
      r = (65952, 65952 + needed 150) ∧ same_host st_holes s' ∧
      mem s' !! HDRP 65952 = Some (PACK (needed 150) 1) ∧
      ∃ sz, mem s' !! HDRP (65952 + needed 150) = Some (PACK sz 1) ∧
            needed 20 <= sz).
Proof.
  apply (mm_malloc_twice st_holes [65696] 65952 [66304] 150 20 224 3); run2.
Defined.

(** Witness of X17. *)
Lemma mm_free_twice_loops_witness :
  returns (mm_free 65696) st_xz (λ _ s',
    nextFree s' = 65696 ∧ mem s' !! next_field 65696 = Some 65696 ∧
    mem s' !! HDRP 65696 = Some (PACK 128 0) ∧
    ∀ n fuel, 0 < n → n + 31 < 2 ^ 64 → 128 < needed n →
              mm_malloc fuel n s' = OutOfFuel).
Proof.
  apply (mm_free_twice_loops st_xz [65952] 65696 128 128 128); run2.
Defined.

(** Witness of X18: the second and third block of [st_five]. *)
Lemma mm_free_adjacent_merge_witness :
  returns (mm_free 65696 ;;; mm_free (65696 + 128)) st_five (λ _ s',
    efl s' (65696 :: [66304]) ∧ same_host st_five s' ∧
    mem s' !! (65696 - 8) = Some (PACK (128 + 128) 0) ∧
    mem s' !! (65696 + 128 + 128 - 16) = Some (PACK (128 + 128) 0)) ∧
  returns (mm_free (65696 + 128) ;;; mm_free 65696) st_five (λ _ s',
    efl s' (65696 :: [66304]) ∧ same_host st_five s' ∧
    mem s' !! (65696 - 8) = Some (PACK (128 + 128) 0) ∧
    mem s' !! (65696 + 128 + 128 - 16) = Some (PACK (128 + 128) 0)).
Proof.
  apply (mm_free_adjacent_merge st_five [66304] 65696 128 128 128 224); run2.
Defined.

(** Witness of X19. *)
Lemma mm_malloc_NULL_iff_witness :
  (65568 = NULL ↔ 100 = 0) ∧
  (100 = 0 → final (mm_malloc 2 100) st_init = st_init).
Proof.
  apply (mm_malloc_NULL_iff 2 100 st_init 65568 (final (mm_malloc 2 100) st_init)).
  apply (result_final (mm_malloc 2 100) st_init 65568). by_run.
Defined.
